(** * Jigsaw solver (week-4/Group-D-Jigsaw-20By20/backend/main.py)

    A shallow embedding of the genetic-algorithm jigsaw solver and the
    verification of its specification.

    Conventions of the embedding.
    - Python exceptions are values of [exn]; a computation that may raise
      returns a [result].
    - The ambient generator of the [random] module is an explicit state
      [rng]: an infinite tape of draws and a read position.  Code that
      draws lives in the monad [M] (state of the generator + exceptions).
    - Python [int] parameters are [Z]; indices and lengths are [nat].
    - [float] values are idealised: finite values are exact rationals
      ([Q]), with the two special values the program can meet,
      [float('-inf')] and [nan].  Rounding is not modelled.
    - A PIL image is a record of its mode, size and rows of pixels; a
      pixel is the list of its band values. *)

From Stdlib Require Import ZArith QArith Lia Lqa.
From stdpp Require Import base list.

Local Open Scope nat_scope.

(* ===================================================================== *)
(** ** Exceptions and results *)
(* ===================================================================== *)

Inductive exn :=
| ValueError
| ZeroDivisionError
| IndexError
| AttributeError
| TypeError
| ConfigurationError.

#[global] Instance exn_eq_dec : EqDecision exn.
Proof. solve_decision. Defined.

Inductive result (A : Type) :=
| Ok (a : A)
| Raise (e : exn).
Arguments Ok {A} a.
Arguments Raise {A} e.

Definition rbind {A B} (x : result A) (f : A -> result B) : result B :=
  match x with
  | Ok a => f a
  | Raise e => Raise e
  end.

(** [l[i]] for a non-negative index. *)
Definition getitem {A} (l : list A) (i : nat) : result A :=
  match l !! i with
  | Some x => Ok x
  | None => Raise IndexError
  end.

(** [l[i] = x] for a non-negative index. *)
Definition setitem {A} (l : list A) (i : nat) (x : A) : result (list A) :=
  if decide (i < length l) then Ok (<[i:=x]> l) else Raise IndexError.

(* ===================================================================== *)
(** ** The random generator *)
(* ===================================================================== *)

Record rng := Rng { tape : nat -> N; pos : nat }.

Definition M (A : Type) : Type := rng -> result (A * rng).

Definition ret {A} (a : A) : M A := fun r => Ok (a, r).

Definition bind {A B} (m : M A) (f : A -> M B) : M B :=
  fun r =>
    match m r with
    | Ok (a, r') => f a r'
    | Raise e => Raise e
    end.

Definition raise {A} (e : exn) : M A := fun _ => Raise e.

Definition lift {A} (x : result A) : M A :=
  fun r =>
    match x with
    | Ok a => Ok (a, r)
    | Raise e => Raise e
    end.

Declare Scope ga_scope.
Delimit Scope ga_scope with ga.
Notation "'let*' x ':=' m 'in' k" := (bind m (fun x => k))
  (at level 10, x name, m at level 100, k at level 200, only parsing) : ga_scope.
Notation "'let*' ' pat ':=' m 'in' k" :=
  (bind m (fun x => match x with pat => k end))
  (at level 10, pat pattern, m at level 100, k at level 200, only parsing) : ga_scope.
Local Open Scope ga_scope.

Definition draw : M N :=
  fun r => Ok (tape r (pos r), Rng (tape r) (S (pos r))).

(** [random._randbelow(n)]: a uniform integer of [range(n)]. *)
Definition randbelow (n : nat) : M nat :=
  match n with
  | 0 => raise ValueError
  | S _ => let* d := draw in ret (N.to_nat (d mod N.of_nat n))
  end.

(** [random.random()]: a multiple of 2^-53 in [0, 1). *)
Definition two53 : positive := 9007199254740992.

Definition random_random : M Q :=
  let* d := draw in ret (Z.of_N (d mod Npos two53) # two53).

(** [random.randint(a, b)] with [a = 0] and [b = n - 1]. *)
Definition randint0 (n : nat) : M nat := randbelow n.

(** [x[i], x[j] = x[j], x[i]]: both reads happen before both writes. *)
Definition swap {A} (l : list A) (i j : nat) : result (list A) :=
  rbind (getitem l j) (fun xj =>
  rbind (getitem l i) (fun xi =>
  rbind (setitem l i xj) (fun l1 =>
  setitem l1 j xi))).

(** [random.shuffle(x)]:
    [for i in reversed(range(1, len(x))): j = randbelow(i + 1); swap]. *)
Fixpoint shuffle_from {A} (i : nat) (x : list A) : M (list A) :=
  match i with
  | 0 => ret x
  | S i' =>
      let* j := randbelow (S i) in
      let* x' := lift (swap x i j) in
      shuffle_from i' x'
  end.

Definition shuffle {A} (x : list A) : M (list A) :=
  shuffle_from (length x - 1) x.

(** [random.sample(population, k)]: [k] elements at distinct positions,
    each drawn from the positions still in the pool. *)
Fixpoint sample_pool {A} (k : nat) (pool : list A) : M (list A) :=
  match k with
  | 0 => ret []
  | S k' =>
      let* j := randbelow (length pool) in
      let* x := lift (getitem pool j) in
      let* rest := sample_pool k' (take j pool ++ drop (S j) pool) in
      ret (x :: rest)
  end.

Definition sample {A} (population : list A) (k : nat) : M (list A) :=
  if decide (k <= length population)
  then sample_pool k population
  else raise ValueError.

(* ===================================================================== *)
(** ** Floats *)
(* ===================================================================== *)

Inductive fl :=
| NegInf
| Fin (q : Q)
| NaN.

Definition Qltb (a b : Q) : bool :=
  (Qnum a * QDen b <? Qnum b * QDen a)%Z.

Definition fadd (a b : fl) : fl :=
  match a, b with
  | Fin x, Fin y => Fin (x + y)
  | NaN, _ | _, NaN => NaN
  | NegInf, _ | _, NegInf => NegInf
  end.

(** [a < b] and [a > b]: false as soon as one side is [nan]. *)
Definition flt (a b : fl) : bool :=
  match a, b with
  | Fin x, Fin y => Qltb x y
  | NegInf, Fin _ => true
  | _, _ => false
  end.

Definition fgt (a b : fl) : bool := flt b a.

(* ===================================================================== *)
(** ** Loops over a list in the exception monads *)
(* ===================================================================== *)

Fixpoint mapR {A B} (f : A -> result B) (l : list A) : result (list B) :=
  match l with
  | [] => Ok []
  | a :: l' =>
      rbind (f a) (fun b => rbind (mapR f l') (fun bs => Ok (b :: bs)))
  end.

Fixpoint foldR {A S} (f : S -> A -> result S) (s : S) (l : list A) : result S :=
  match l with
  | [] => Ok s
  | a :: l' => rbind (f s a) (fun s' => foldR f s' l')
  end.

Fixpoint mmap {A B} (f : A -> M B) (l : list A) : M (list B) :=
  match l with
  | [] => ret []
  | a :: l' =>
      let* b := f a in
      let* bs := mmap f l' in
      ret (b :: bs)
  end.

Fixpoint mfold {A S} (f : S -> A -> M S) (s : S) (l : list A) : M S :=
  match l with
  | [] => ret s
  | a :: l' => let* s' := f s a in mfold f s' l'
  end.

(** [range(n)] for a Python [int]: empty when [n <= 0]. *)
Definition range (n : Z) : list nat := seq 0 (Z.to_nat n).

(* ===================================================================== *)
(** ** Images (the part of PIL and numpy the program uses) *)
(* ===================================================================== *)

Inductive mode := L | RGB | RGBA.

#[global] Instance mode_eq_dec : EqDecision mode.
Proof. solve_decision. Defined.

Definition bands (m : mode) : nat :=
  match m with
  | L => 1
  | RGB => 3
  | RGBA => 4
  end.

Abbreviation pixel := (list Z).

Record Image := mkImage {
  im_mode : mode;
  im_width : nat;
  im_height : nat;
  im_rows : list (list pixel)
}.

Definition black (m : mode) : pixel := replicate (bands m) 0%Z.

Definition getpixel (im : Image) (x y : nat) : pixel :=
  default (black (im_mode im)) (default [] (im_rows im !! y) !! x).

(** The image of mode [m] and size [(w, h)] whose pixel at [(x, y)] is
    [f x y]. *)
Definition raster (m : mode) (w h : nat) (f : nat -> nat -> pixel) : Image :=
  mkImage m w h (map (fun y => map (fun x => f x y) (seq 0 w)) (seq 0 h)).

(** [Image.new(mode, (w, h))]: a black image; a negative side is refused. *)
Definition Image_new (m : mode) (w h : Z) : result Image :=
  if decide (w < 0 \/ h < 0)%Z then Raise ValueError
  else Ok (raster m (Z.to_nat w) (Z.to_nat h) (fun _ _ => black m)).

(** [image.crop((x0, y0, x1, y1))]. *)
Definition crop (im : Image) (x0 y0 x1 y1 : nat) : Image :=
  raster (im_mode im) (x1 - x0) (y1 - y0)
         (fun x y => getpixel im (x0 + x) (y0 + y)).

(** What [convert] and [paste] do to one pixel when the modes differ
    (for L the ITU-R 601-2 luma transform, as PIL computes it). *)
Definition convert_pixel (src dst : mode) (p : pixel) : pixel :=
  let b i := default 0%Z (p !! i) in
  match src, dst with
  | L, L | RGB, RGB | RGBA, RGBA => p
  | L, RGB => [b 0; b 0; b 0]
  | L, RGBA => [b 0; b 0; b 0; 255%Z]
  | RGB, RGBA => [b 0; b 1; b 2; 255%Z]
  | RGBA, RGB => [b 0; b 1; b 2]
  | _, L => [Z.shiftr (b 0 * 19595 + b 1 * 38470 + b 2 * 7471 + 32768) 16]
  end.

(** [dest.paste(src, (x0, y0))]: the pixels of [src] replace those of
    [dest] in the box whose upper left corner is [(x0, y0)]; [dest] keeps
    its mode and size. *)
Definition paste (dest src : Image) (x0 y0 : nat) : Image :=
  raster (im_mode dest) (im_width dest) (im_height dest)
    (fun x y =>
       if bool_decide (x0 <= x < x0 + im_width src /\
                       y0 <= y < y0 + im_height src)
       then convert_pixel (im_mode src) (im_mode dest)
                          (getpixel src (x - x0) (y - y0))
       else getpixel dest x y).

(** [image.resize((w, h))].  The resampling filter itself is PIL's and is
    left as a parameter [resample]; around it, [resize] returns a copy when
    the size does not change and refuses an empty target. *)
Definition Image_resize (resample : Image -> nat -> nat -> Image)
    (im : Image) (w h : Z) : result Image :=
  if decide (Z.of_nat (im_width im) = w /\ Z.of_nat (im_height im) = h)
  then Ok im
  else if decide (w < 1 \/ h < 1)%Z then Raise ValueError
  else Ok (resample im (Z.to_nat w) (Z.to_nat h)).

(** Nearest-neighbour resampling, one admissible [resample]. *)
Definition nearest (im : Image) (w h : nat) : Image :=
  raster (im_mode im) w h
    (fun x y => getpixel im (x * im_width im / w) (y * im_height im / h)).

(* ===================================================================== *)
(** ** split_image *)
(* ===================================================================== *)

Definition cells (n : nat) : list (nat * nat) :=
  i ← seq 0 n; j ← seq 0 n; [(i, j)].

Definition split_image (resample : Image -> nat -> nat -> Image)
    (image : Image) (grid_size : Z) : result (list Image * list nat) :=
  let width := Z.of_nat (im_width image) in
  let height := Z.of_nat (im_height image) in
  if decide (grid_size = 0)%Z then Raise ZeroDivisionError else
  let piece_width := (width / grid_size)%Z in
  let piece_height := (height / grid_size)%Z in
  rbind (Image_resize resample image (piece_width * grid_size)
                      (piece_height * grid_size)) (fun image =>
  let n := Z.to_nat grid_size in
  let pw := Z.to_nat piece_width in
  let ph := Z.to_nat piece_height in
  let pieces :=
    map (fun '(i, j) => crop image (j * pw) (i * ph) ((j + 1) * pw) ((i + 1) * ph))
        (cells n) in
  let original_sequence := map (fun '(i, j) => i * n + j) (cells n) in
  Ok (pieces, original_sequence)).

(* ===================================================================== *)
(** ** create_chromosome *)
(* ===================================================================== *)

Definition create_chromosome (pieces : list Image) : M (list nat) :=
  shuffle (seq 0 (length pieces)).

(* ===================================================================== *)
(** ** compare_edges *)
(* ===================================================================== *)

Inductive direction := Right | Bottom.

(** [np.array(piece)] has shape (height, width, bands), except for a
    single-band image, whose array has two axes only: indexing it with
    three indices raises IndexError, as does index [-1] or [0] on an empty
    axis. *)
Definition column (last : bool) (piece : Image) : result (list pixel) :=
  if decide (im_mode piece = L \/ im_width piece = 0) then Raise IndexError
  else
    let x := if last then im_width piece - 1 else 0 in
    Ok (map (fun y => getpixel piece x y) (seq 0 (im_height piece))).

Definition row (last : bool) (piece : Image) : result (list pixel) :=
  if decide (im_mode piece = L \/ im_height piece = 0) then Raise IndexError
  else
    let y := if last then im_height piece - 1 else 0 in
    Ok (map (fun x => getpixel piece x y) (seq 0 (im_width piece))).

(** [np.abs(edge1 - edge2)], flattened.  The tiles of one run share one
    shape; when the shapes of two edges differ numpy broadcasts or raises
    ValueError, and the model raises ValueError. *)
Definition abs_diff (bands1 bands2 : nat) (edge1 edge2 : list pixel)
  : result (list Z) :=
  if decide (length edge1 = length edge2 /\ bands1 = bands2)
  then Ok (concat (zip_with (zip_with (fun a b => Z.abs (a - b))) edge1 edge2))
  else Raise ValueError.

(** [np.mean]: [nan] (None) on an empty array. *)
Definition np_mean (xs : list Z) : option Q :=
  match xs with
  | [] => None
  | _ => Some (inject_Z (foldr Z.add 0%Z xs) / inject_Z (Z.of_nat (length xs)))%Q
  end.

Definition compare_edges (piece1 piece2 : Image) (d : direction) : result fl :=
  rbind (match d with Right => column true piece1 | Bottom => row true piece1 end)
        (fun edge1 =>
  rbind (match d with Right => column false piece2 | Bottom => row false piece2 end)
        (fun edge2 =>
  rbind (abs_diff (bands (im_mode piece1)) (bands (im_mode piece2)) edge1 edge2)
        (fun d =>
  Ok (match np_mean d with
      | Some m => Fin (1 - m / 255)
      | None => NaN
      end)))).

(* ===================================================================== *)
(** ** calculate_fitness *)
(* ===================================================================== *)

Abbreviation chromosome := (list nat).

(** [[chromosome[i] == original_sequence[i] for i in range(len(chromosome))]] *)
Definition correct_positions_of (c original_sequence : list nat)
  : result (list bool) :=
  mapR (fun i =>
          rbind (getitem c i) (fun ci =>
          rbind (getitem original_sequence i) (fun oi =>
          Ok (bool_decide (ci = oi)))))
       (seq 0 (length c)).

(** [sum(bools)]. *)
Definition count_true (bs : list bool) : nat := length (filter (fun b => b = true) bs).

(** [pieces[chromosome[k]]]. *)
Definition piece_at (pieces : list Image) (c : chromosome) (k : nat)
  : result Image :=
  rbind (getitem c k) (fun t => getitem pieces t).

(** The body of the double loop.  [n] is the length of [range(grid_size)];
    within the loop [j < grid_size - 1] is [j + 1 < n]. *)
Definition fitness_cell (c : chromosome) (pieces : list Image) (n : nat)
    (fitness : fl) (ij : nat * nat) : result fl :=
  let '(i, j) := ij in
  let index := i * n + j in
  rbind (if decide (j + 1 < n)
         then rbind (piece_at pieces c index) (fun p1 =>
              rbind (piece_at pieces c (i * n + (j + 1))) (fun p2 =>
              rbind (compare_edges p1 p2 Right) (fun s =>
              Ok (fadd fitness s))))
         else Ok fitness) (fun fitness =>
  if decide (i + 1 < n)
  then rbind (piece_at pieces c index) (fun p1 =>
       rbind (piece_at pieces c ((i + 1) * n + j)) (fun p2 =>
       rbind (compare_edges p1 p2 Bottom) (fun s =>
       Ok (fadd fitness s))))
  else Ok fitness).

Definition calculate_fitness (c : chromosome) (pieces : list Image)
    (original_sequence : list nat) (grid_size : Z) : result (fl * list bool) :=
  rbind (correct_positions_of c original_sequence) (fun correct_positions =>
  rbind (foldR (fitness_cell c pieces (Z.to_nat grid_size)) (Fin 0)
               (cells (Z.to_nat grid_size))) (fun fitness =>
  Ok (fadd fitness (Fin (inject_Z (Z.of_nat (count_true correct_positions * 5)))),
      correct_positions))).

(* ===================================================================== *)
(** ** tournament_selection *)
(* ===================================================================== *)

(** [max(items, key=lambda x: x[1])]: the first item whose key no later
    item exceeds. *)
Fixpoint max_from (best : chromosome * fl) (items : list (chromosome * fl))
  : chromosome * fl :=
  match items with
  | [] => best
  | x :: items' => max_from (if fgt (snd x) (snd best) then x else best) items'
  end.

Definition py_max (items : list (chromosome * fl)) : result (chromosome * fl) :=
  match items with
  | [] => Raise ValueError
  | x :: items' => Ok (max_from x items')
  end.

Definition tournament_selection (population : list chromosome)
    (fitnesses : list fl) (k : nat) : M chromosome :=
  let* picked := sample (zip population fitnesses) k in
  let* winner := lift (py_max picked) in
  ret (fst winner).

(* ===================================================================== *)
(** ** crossover *)
(* ===================================================================== *)

(** [child[a:b] = xs] for [0 <= a], [0 <= b]. *)
Definition set_slice {A} (child : list A) (a b : nat) (xs : list A) : list A :=
  take a child ++ xs ++ drop (a `max` b) child.

(** [parent[a:b]]. *)
Definition slice {A} (parent : list A) (a b : nat) : list A :=
  take (b - a) (drop a parent).

(** [while parent2[p2_index] in child: p2_index += 1], entered with
    [rest = parent2[p2_index:]]; the index that leaves the loop. *)
Fixpoint skip_present (rest : list nat) (child : list (option nat))
    (p2_index : nat) : result nat :=
  match rest with
  | [] => Raise IndexError
  | g :: rest' =>
      if bool_decide (Some g ∈ child)
      then skip_present rest' child (S p2_index)
      else Ok p2_index
  end.

(** The body of [for i in range(size)]. *)
Definition fill_step (parent2 : chromosome)
    (st : list (option nat) * nat) (i : nat) : result (list (option nat) * nat) :=
  let '(child, p2_index) := st in
  rbind (getitem child i) (fun ci =>
  match ci with
  | Some _ => Ok (child, p2_index)
  | None =>
      rbind (skip_present (drop p2_index parent2) child p2_index) (fun p2_index =>
      rbind (getitem parent2 p2_index) (fun g =>
      rbind (setitem child i (Some g)) (fun child =>
      Ok (child, S p2_index))))
  end).

(** The returned list holds genes only: the loop has visited every index.
    A slot still empty would be a [None] among the genes. *)
Definition genes (child : list (option nat)) : result chromosome :=
  mapR (fun o => match o with Some g => Ok g | None => Raise TypeError end) child.

(** [crossover] once the two cut points are drawn and sorted. *)
Definition crossover_at (start end_ : nat) (parent1 parent2 : chromosome)
  : result chromosome :=
  let size := length parent1 in
  let child := replicate size None in
  let child := set_slice child start (end_ + 1)
                         (Some <$> slice parent1 start (end_ + 1)) in
  rbind (foldR (fill_step parent2) (child, 0) (seq 0 size)) (fun st =>
  genes (fst st)).

Definition crossover (parent1 parent2 : chromosome) : M chromosome :=
  let size := length parent1 in
  let* cuts := sample (seq 0 size) 2 in
  match cuts with
  | [a; b] => lift (crossover_at (a `min` b) (a `max` b) parent1 parent2)
  | _ => raise ValueError
  end.

(* ===================================================================== *)
(** ** mutate *)
(* ===================================================================== *)

Definition mutate_step (mutation_rate : Q) (c : chromosome) (i : nat)
  : M chromosome :=
  let* u := random_random in
  if Qltb u mutation_rate
  then let* j := randint0 (length c) in lift (swap c i j)
  else ret c.

Definition mutate (c : chromosome) (mutation_rate : Q) : M chromosome :=
  mfold (mutate_step mutation_rate) c (seq 0 (length c)).

(* ===================================================================== *)
(** ** genetic_algorithm *)
(* ===================================================================== *)

(** [np.argmax(xs)]: the first index of the maximum, a [nan] counting as
    the maximum; ValueError on an empty sequence. *)
Definition exceeds (x best : fl) : bool :=
  match best, x with
  | NaN, _ => false
  | _, NaN => true
  | _, _ => fgt x best
  end.

Fixpoint argmax_from (best_index : nat) (best : fl) (i : nat) (xs : list fl)
  : nat :=
  match xs with
  | [] => best_index
  | x :: xs' =>
      if exceeds x best
      then argmax_from i x (S i) xs'
      else argmax_from best_index best (S i) xs'
  end.

Definition argmax (xs : list fl) : result nat :=
  match xs with
  | [] => Raise ValueError
  | x :: xs' => Ok (argmax_from 0 x 1 xs')
  end.

(** [sorted(pairs, key=lambda x: x[0], reverse=True)]: stable, descending. *)
Fixpoint insert_desc (x : fl * chromosome) (sorted : list (fl * chromosome))
  : list (fl * chromosome) :=
  match sorted with
  | [] => [x]
  | y :: sorted' =>
      if flt (fst x) (fst y)
      then y :: insert_desc x sorted'
      else x :: y :: sorted'
  end.

Definition sorted_desc (pairs : list (fl * chromosome)) : list (fl * chromosome) :=
  foldr insert_desc [] pairs.

(** [l[:e]] for a Python [int] [e]. *)
Definition slice_to {A} (l : list A) (e : Z) : list A :=
  if decide (e < 0)%Z
  then take (length l - Z.to_nat (- e)) l
  else take (Z.to_nat e) l.

(** [l[-k] = x] for [k >= 1]. *)
Definition setitem_back {A} (l : list A) (k : nat) (x : A) : result (list A) :=
  if decide (k <= length l) then setitem l (length l - k) x
  else Raise IndexError.

(** [x.copy()] where [x] may be [None]. *)
Definition copy_of (x : option chromosome) : result chromosome :=
  match x with
  | Some c => Ok c
  | None => Raise AttributeError
  end.

(** One recorded generation: (chromosome, fitness, correct count). *)
Definition snapshot : Type := chromosome * fl * nat.

Record ga_state := mkState {
  population : list chromosome;
  best_solutions : list snapshot;
  global_best_chromo : option chromosome;
  global_best_fitness : fl;
  stagnation_counter : nat
}.

Section GeneticAlgorithm.

Variable pieces : list Image.
Variable original_sequence : list nat.
Variable population_size : Z.
Variable generations : Z.
Variable mutation_rate : Q.
Variable grid_size : Z.
Variable elite_count : Z.
Variable stagnation_threshold : Z.

Definition initial_population : M (list chromosome) :=
  mmap (fun _ => create_chromosome pieces) (range population_size).

Definition initial_state (population : list chromosome) : ga_state :=
  mkState population [] None NegInf 0.

(** Lines 91-94. *)
Definition evaluate (population : list chromosome)
  : result (list fl * list nat) :=
  rbind (mapR (fun chromo =>
                 calculate_fitness chromo pieces original_sequence grid_size)
              population) (fun fitness_results =>
  Ok (fst <$> fitness_results, (fun r => count_true (snd r)) <$> fitness_results)).

(** Lines 95-100: the new global best and stagnation counter. *)
Definition track_best (st : ga_state) (fitnesses : list fl) (best_index : nat)
  : result (option chromosome * fl * nat) :=
  rbind (getitem fitnesses best_index) (fun f =>
  if fgt f (global_best_fitness st)
  then rbind (getitem (population st) best_index) (fun c =>
       Ok (Some c, f, 0))
  else Ok (global_best_chromo st, global_best_fitness st,
           stagnation_counter st + 1)).

(** Line 102. *)
Definition take_snapshot (best : option chromosome) (fitness : fl)
    (correct_counts : list nat) (best_index : nat) : result snapshot :=
  rbind (copy_of best) (fun c =>
  rbind (getitem correct_counts best_index) (fun n =>
  Ok (c, fitness, n))).

(** Lines 104-107: the population and the counter after the stagnation
    test. *)
Definition diversify (population : list chromosome) (stagnation : nat)
  : M (list chromosome * nat) :=
  if decide (stagnation_threshold <= Z.of_nat stagnation)%Z
  then
    let* population :=
      mfold (fun population i =>
               let* c := create_chromosome pieces in
               lift (setitem_back population (i + 1) c))
            population (range (population_size ÷ 2)) in
    ret (population, 0)
  else ret (population, stagnation).

(** Lines 109-110. *)
Definition elites (fitnesses : list fl) (population : list chromosome)
  : list chromosome :=
  let sorted_population := snd <$> sorted_desc (zip fitnesses population) in
  slice_to sorted_population elite_count.

(** Lines 112-115.  Every turn of the [while] loop appends one child, so
    the loop turns [population_size - len(new_population)] times. *)
Definition breed (fitnesses : list fl) (population : list chromosome)
  : M chromosome :=
  let* parent1 := tournament_selection population fitnesses 3 in
  let* parent2 := tournament_selection population fitnesses 3 in
  let* child := crossover parent1 parent2 in
  mutate child mutation_rate.

Definition reproduce (fitnesses : list fl) (population : list chromosome)
    (new_population : list chromosome) : M (list chromosome) :=
  mfold (fun new_population _ =>
           let* child := breed fitnesses population in
           ret (new_population ++ [child]))
        new_population
        (range (population_size - Z.of_nat (length new_population))).

(** Line 116. *)
Definition inject_best (best : option chromosome)
    (new_population : list chromosome) : result (list chromosome) :=
  rbind (copy_of best) (fun c => setitem new_population 0 c).

(** The body of [for generation in range(generations)]. *)
Definition generation_step (st : ga_state) : M ga_state :=
  let population := population st in
  let* '(fitnesses, correct_counts) := lift (evaluate population) in
  let* best_index := lift (argmax fitnesses) in
  let* '(best, best_fitness, stagnation) :=
    lift (track_best st fitnesses best_index) in
  let* snap :=
    lift (take_snapshot best best_fitness correct_counts best_index) in
  let best_solutions := best_solutions st ++ [snap] in
  let* '(population, stagnation) := diversify population stagnation in
  let new_population := elites fitnesses population in
  let* new_population := reproduce fitnesses population new_population in
  let* new_population := lift (inject_best best new_population) in
  ret (mkState new_population best_solutions best best_fitness stagnation).

Fixpoint run_generations (n : nat) (st : ga_state) : M ga_state :=
  match n with
  | 0 => ret st
  | S n' => let* st' := generation_step st in run_generations n' st'
  end.

Definition genetic_algorithm : M (list snapshot) :=
  let* population := initial_population in
  let* st := run_generations (Z.to_nat generations) (initial_state population) in
  ret (best_solutions st).

End GeneticAlgorithm.

(* ===================================================================== *)
(** ** assemble_image and solve_puzzle *)
(* ===================================================================== *)

Definition assemble_image (c : chromosome) (pieces : list Image)
    (grid_size : Z) : result Image :=
  rbind (getitem pieces 0) (fun piece0 =>
  let piece_width := im_width piece0 in
  let piece_height := im_height piece0 in
  rbind (Image_new RGB (Z.of_nat piece_width * grid_size)
                   (Z.of_nat piece_height * grid_size)) (fun assembled_image =>
  foldR (fun assembled_image '(i, j) =>
           rbind (piece_at pieces c (i * Z.to_nat grid_size + j)) (fun piece =>
           Ok (paste assembled_image piece (j * piece_width) (i * piece_height))))
        assembled_image (cells (Z.to_nat grid_size)))).

(** One entry of the response: generation, fitness, correct positions and
    the assembled image (its PNG encoding is left out). *)
Definition rendered : Type := nat * fl * nat * Image.

(** The endpoint, from the decoded image on.  [genetic_algorithm] is
    called with its default [elite_count] and [stagnation_threshold]. *)
Definition solve_puzzle (resample : Image -> nat -> nat -> Image)
    (img : Image) (grid_size population_size generations : Z)
    (mutation_rate : Q) : M (list rendered) :=
  let* '(pieces, original_sequence) := lift (split_image resample img grid_size) in
  let* best_solutions :=
    genetic_algorithm pieces original_sequence population_size generations
                      mutation_rate grid_size 10 20 in
  lift (mapR (fun '(index, (c, fitness, correct_positions)) =>
                rbind (assemble_image c pieces grid_size) (fun solved_image =>
                Ok (index, fitness, correct_positions, solved_image)))
             (imap pair best_solutions)).


(* ===================================================================== *)
(** * Specification vocabulary *)
(* ===================================================================== *)

(** ** Outcomes *)

(** [rspec x Q E]: if [x] is a value it satisfies [Q], if it is an
    exception the exception satisfies [E]. *)
Definition rspec {A} (x : result A) (Q : A -> Prop) (E : exn -> Prop) : Prop :=
  match x with
  | Ok a => Q a
  | Raise e => E e
  end.

Definition mspec {A} (m : M A) (Q : A -> Prop) (E : exn -> Prop) : Prop :=
  forall r, rspec (m r) (fun ar => Q (fst ar)) E.

Definition anything {A} : A -> Prop := fun _ => True.
Definition nothing {A} : A -> Prop := fun _ => False.


(** ** Floats as an order *)

(** [fle a b]: [a <= b] on the values a global best can take. *)
Definition fle (a b : fl) : Prop :=
  match a, b with
  | Fin x, Fin y => (x <= y)%Q
  | NegInf, NegInf | NegInf, Fin _ => True
  | _, _ => False
  end.

Definition nondecreasing (l : list fl) : Prop :=
  forall i j x y, i <= j -> l !! i = Some x -> l !! j = Some y -> fle x y.

Definition snap_chromosome (s : snapshot) : chromosome := s.1.1.
Definition snap_fitness (s : snapshot) : fl := s.1.2.
Definition snap_count (s : snapshot) : nat := s.2.

(** ** Well-formed images and tiles *)

(** The rows of a decoded image agree with its size and mode, and band
    values are bytes. *)
Definition wf_pixel (m : mode) (p : pixel) : Prop :=
  length p = bands m /\ Forall (fun v => (0 <= v <= 255)%Z) p.

Definition wf_image (im : Image) : Prop :=
  length (im_rows im) = im_height im /\
  Forall (fun row => length row = im_width im /\
                     Forall (wf_pixel (im_mode im)) row) (im_rows im).

#[global] Instance wf_pixel_dec m p : Decision (wf_pixel m p).
Proof. unfold wf_pixel. apply _. Defined.

#[global] Instance wf_image_dec im : Decision (wf_image im).
Proof. unfold wf_image. apply _. Defined.

(** Values that fit a byte, as differences of band values do. *)
Definition byte_diffs (d : list Z) : Prop :=
  Forall (fun v => (0 <= v <= 255)%Z) d.

(** A finite fitness of at least [q]. *)
Definition finite_from (q : Q) (f : fl) : Prop :=
  exists q', f = Fin q' /\ (q <= q')%Q.

(** A tile of positive width and height. *)
Definition wf_tile (p : Image) : Prop :=
  wf_image p /\ 0 < im_width p /\ 0 < im_height p.

#[global] Instance wf_tile_dec p : Decision (wf_tile p).
Proof. unfold wf_tile. apply _. Defined.

(** ** The values one generation computes, in program order *)

Inductive generation_trace
    (pieces : list Image) (original_sequence : list nat) (population_size : Z)
    (mutation_rate : Q) (grid_size elite_count stagnation_threshold : Z)
    (st : ga_state) (r : rng) (st' : ga_state) (r' : rng) : Prop :=
| Trace (fitnesses : list fl) (counts : list nat) (best_index : nat)
    (best : option chromosome) (best_fitness : fl) (stagnation : nat)
    (snap : snapshot) (diversified : list chromosome) (stagnation' : nat)
    (r1 : rng) (bred final : list chromosome)
    (tr_evaluate :
       evaluate pieces original_sequence grid_size (population st)
       = Ok (fitnesses, counts))
    (tr_argmax : argmax fitnesses = Ok best_index)
    (tr_track :
       track_best st fitnesses best_index = Ok (best, best_fitness, stagnation))
    (tr_snapshot :
       take_snapshot best best_fitness counts best_index = Ok snap)
    (tr_diversify :
       diversify pieces population_size stagnation_threshold
                 (population st) stagnation r
       = Ok ((diversified, stagnation'), r1))
    (tr_reproduce :
       reproduce population_size mutation_rate fitnesses diversified
                 (elites elite_count fitnesses diversified) r1
       = Ok (bred, r'))
    (tr_inject : inject_best best bred = Ok final)
    (tr_state :
       st' = mkState final (best_solutions st ++ [snap]) best best_fitness
                     stagnation').

(** ** Invariants of the generation loop *)

(** Every recorded fitness is below the running global best, and the
    recorded sequence is non-decreasing. *)
Definition monotone_inv (st : ga_state) : Prop :=
  global_best_fitness st <> NaN /\
  nondecreasing (snap_fitness <$> best_solutions st) /\
  Forall (fun s => fle (snap_fitness s) (global_best_fitness st))
         (best_solutions st).

(** ** Running a computation from a generator state *)

Definition outcome {A} (m : M A) (r : rng) : result A :=
  match m r with
  | Ok (a, _) => Ok a
  | Raise e => Raise e
  end.

(** ** A small instance used to exercise the theorems

    A 4x4 RGB gradient cut into 2x2 tiles, and a family of tapes (a
    64-bit mixing function of the position and of a seed [k]). *)

Definition demo_image : Image :=
  raster RGB 4 4
    (fun x y => [Z.of_nat (x * 40); Z.of_nat (y * 50); Z.of_nat ((x + y) * 10)]).

Definition demo_pieces : list Image :=
  match split_image nearest demo_image 2 with
  | Ok (pieces, _) => pieces
  | Raise _ => []
  end.

Definition demo_sequence : list nat := [0; 1; 2; 3].

Definition mix (x : N) : N :=
  let x := (N.lxor x (N.shiftr x 30) * 13787848793156543929 mod 2 ^ 64)%N in
  let x := (N.lxor x (N.shiftr x 27) * 10723151780598845931 mod 2 ^ 64)%N in
  N.lxor x (N.shiftr x 31).

Definition demo_tape (k : N) : nat -> N :=
  fun n => mix ((N.of_nat n + 1) * 11400714819323198485 + k * 6364136223846793005).

Definition demo_rng (k : N) : rng := Rng (demo_tape k) 0.

(** One run on the small instance: five chromosomes, five generations,
    two elites, diversification after two stagnant generations. *)
Definition demo_run (k : N) : result (list snapshot) :=
  outcome (genetic_algorithm demo_pieces demo_sequence 5 5 (1 # 5) 2 2 2)
          (demo_rng k).

Definition demo_snaps : list snapshot :=
  Eval vm_compute in
    match demo_run 6 with
    | Ok snaps => snaps
    | Raise _ => []
    end.

(** ** Snapshots and the chromosome they record *)

(** The fitness and the count of a snapshot are those of its chromosome. *)
Definition consistent (pieces : list Image) (original_sequence : list nat)
    (grid_size : Z) (s : snapshot) : Prop :=
  exists cp,
    calculate_fitness (snap_chromosome s) pieces original_sequence grid_size
    = Ok (snap_fitness s, cp) /\
    snap_count s = count_true cp.

(** Once a global best exists it sits at position 0 of the population,
    with the fitness recorded for it. *)
Definition best_inv (pieces : list Image) (original_sequence : list nat)
    (grid_size : Z) (st : ga_state) : Prop :=
  Forall (consistent pieces original_sequence grid_size) (best_solutions st) /\
  match global_best_chromo st with
  | None => global_best_fitness st = NegInf
  | Some c =>
      population st !! 0 = Some c /\
      exists cp,
        calculate_fitness c pieces original_sequence grid_size
        = Ok (global_best_fitness st, cp)
  end.

(** ** Permutations of the tile ids *)

Definition is_permutation (n : nat) (c : chromosome) : Prop := c ≡ₚ seq 0 n.

#[global] Instance is_permutation_dec n c : Decision (is_permutation n c).
Proof. unfold is_permutation. apply _. Defined.

(** The transposition of two indices. *)
Definition transpose (i j k : nat) : nat :=
  if decide (k = i) then j else if decide (k = j) then i else k.

(** Ordered crossover as the specification words it: the slice of
    [parent1] between the cut points stays where it is, and the genes of
    [parent2] that are not in the slice fill the other positions in
    order. *)
Definition ox_child (start end_ : nat) (parent1 parent2 : chromosome)
  : chromosome :=
  let kept := slice parent1 start (end_ + 1) in
  let others := filter (fun g => g ∉ kept) parent2 in
  take start others ++ kept ++ drop start others.

(** What the specification asks of the child of an ordered crossover with
    cut points [start <= end_]. *)
Definition ordered_child (n start end_ : nat) (parent1 parent2 child : chromosome)
  : Prop :=
  (forall i, start <= i <= end_ -> child !! i = parent1 !! i) /\
  take start child ++ drop (end_ + 1) child
  = filter (fun g => g ∉ slice parent1 start (end_ + 1)) parent2 /\
  is_permutation n child /\
  length child = n.

Definition demo_parent1 : chromosome := [3; 0; 2; 1].
Definition demo_parent2 : chromosome := [1; 3; 2; 0].

(** Every chromosome the state holds is a permutation of [0..n-1]. *)
Definition perm_inv (n : nat) (st : ga_state) : Prop :=
  Forall (is_permutation n) (population st) /\
  (forall c, global_best_chromo st = Some c -> is_permutation n c) /\
  Forall (fun s => is_permutation n (snap_chromosome s)) (best_solutions st).

(** The state after [n] generations of a run. *)
Definition state_after (pieces : list Image) (original_sequence : list nat)
    (population_size : Z) (mutation_rate : Q)
    (grid_size elite_count stagnation_threshold : Z) (n : nat) : M ga_state :=
  let* population := initial_population pieces population_size in
  run_generations pieces original_sequence population_size mutation_rate
                  grid_size elite_count stagnation_threshold n
                  (initial_state population).

Definition demo_child : chromosome :=
  Eval vm_compute in
    match outcome (crossover demo_parent1 demo_parent2) (demo_rng 1) with
    | Ok child => child
    | Raise _ => []
    end.

(** The state of the run behind [demo_snaps] after four generations. *)
Definition demo_state : ga_state :=
  Eval vm_compute in
    match outcome (state_after demo_pieces demo_sequence 5 (1 # 5) 2 2 2 4)
                  (demo_rng 6) with
    | Ok st => st
    | Raise _ => initial_state []
    end.

(** The snapshot of its fourth generation. *)
Definition demo_snapshot : snapshot :=
  Eval vm_compute in
    match demo_snaps !! 3 with
    | Some s => s
    | None => ([], NaN, 0)
    end.

(** ** Exceptions the loop can meet on bad indices or small samples *)

(** Neither the failure of [None.copy()] nor a configuration error. *)
Definition benign (e : exn) : Prop :=
  e <> AttributeError /\ e <> ConfigurationError.

(** The global best is missing only while its fitness is [-inf]. *)
Definition best_defined_inv (st : ga_state) : Prop :=
  global_best_chromo st = None -> global_best_fitness st = NegInf.

(** ** Images as rasters *)

(** The rows of an image agree with its size. *)
Definition rectangular (im : Image) : Prop :=
  length (im_rows im) = im_height im /\
  Forall (fun row => length row = im_width im) (im_rows im).

#[global] Instance rectangular_dec im : Decision (rectangular im).
Proof. unfold rectangular. apply _. Defined.

(** What [resize] promises of the resampling filter: the requested size,
    the mode of the source, and rows that agree with the size. *)
Definition resample_contract (resample : Image -> nat -> nat -> Image) : Prop :=
  forall im w h,
    im_mode (resample im w h) = im_mode im /\
    im_width (resample im w h) = w /\
    im_height (resample im w h) = h /\
    rectangular (resample im w h).

(** The canvas of [assemble_image] once the cells of [done] are pasted:
    the pixels of [source] in those cells, black elsewhere. *)
Definition pasted (source : Image) (pw ph : nat) (done : list (nat * nat))
  : Image :=
  raster RGB (im_width source) (im_height source)
    (fun x y =>
       if bool_decide ((y / ph, x / pw) ∈ done) then getpixel source x y
       else black RGB).

(** A 2x2 image with an alpha band. *)
Definition demo_rgba : Image :=
  raster RGBA 2 2
    (fun x y => [Z.of_nat (x * 100); Z.of_nat (y * 100); 50%Z; 128%Z]).

(** Its correct-positions list. *)
Definition demo_correct : list bool :=
  Eval vm_compute in
    match correct_positions_of (snap_chromosome demo_snapshot) demo_sequence with
    | Ok cp => cp
    | Raise _ => []
    end.

(** Not the rejection of a configuration. *)
Definition unchecked (e : exn) : Prop := e <> ConfigurationError.

(** ** Tile sets and configurations on which a run completes *)

Definition same_shape (p q : Image) : Prop :=
  im_mode p = im_mode q /\ im_width p = im_width q /\
  im_height p = im_height q.

(** The tiles of an [n]x[n] grid: [n]² multi-band tiles of one positive
    shape, as [split_image] cuts them. *)
Definition tile_set (n : nat) (pieces : list Image) : Prop :=
  Forall wf_tile pieces /\
  Forall (fun p => im_mode p <> L /\ Forall (same_shape p) pieces) pieces /\
  length pieces = n * n.

#[global] Instance tile_set_dec n pieces : Decision (tile_set n pieces).
Proof. unfold tile_set, same_shape. apply _. Defined.

(** The state of a run that can go on: [population_size] permutations, and
    a global best that exists unless its fitness is [-inf]. *)
Definition run_inv (n : nat) (population_size : Z) (st : ga_state) : Prop :=
  perm_inv n st /\
  length (population st) = Z.to_nat population_size /\
  best_defined_inv st.

(** Either nothing is bred, or parents can be sampled and crossed: more
    elites than chromosomes, or at least three chromosomes over at least
    two tiles. *)
Definition breedable (n : nat) (population_size elite_count : Z) : Prop :=
  (population_size <= elite_count)%Z \/ ((3 <= population_size)%Z /\ 2 <= n).

(** ** Edges, resampling filters and mosaics *)

(** The edge [compare_edges] reads in a direction: a column for 'right',
    a row otherwise; the last one of the first tile, the first one of the
    second. *)
Definition edge (d : direction) (last : bool) (piece : Image)
  : result (list pixel) :=
  match d with
  | Right => column last piece
  | Bottom => row last piece
  end.

(** A resampling filter that makes well-formed images of well-formed
    images (band values stay bytes). *)
Definition byte_filter (resample : Image -> nat -> nat -> Image) : Prop :=
  forall im w h, wf_image im -> wf_image (resample im w h).

(** The pixel the tile arrangement [c] shows at [(x, y)] over tiles of
    size [(pw, ph)] in a grid of [n] columns. *)
Definition mosaic_pixel (c : chromosome) (pieces : list Image) (n pw ph : nat)
    (x y : nat) : pixel :=
  match piece_at pieces c (y / ph * n + x / pw) with
  | Ok p => convert_pixel (im_mode p) RGB (getpixel p (x mod pw) (y mod ph))
  | Raise _ => black RGB
  end.

(** The canvas of [assemble_image] once the cells of [done] are pasted. *)
Definition mosaic_upto (c : chromosome) (pieces : list Image) (n pw ph : nat)
    (done : list (nat * nat)) : Image :=
  raster RGB (pw * n) (ph * n)
    (fun x y =>
       if bool_decide ((y / ph, x / pw) ∈ done)
       then mosaic_pixel c pieces n pw ph x y
       else black RGB).

(** The image of the arrangement [c]. *)
Definition mosaic (c : chromosome) (pieces : list Image) (n pw ph : nat)
  : Image :=
  raster RGB (pw * n) (ph * n) (mosaic_pixel c pieces n pw ph).

(** The number of edge comparisons of one fitness evaluation on an
    [n]x[n] grid. *)
Definition edge_count (n : nat) : nat := 2 * n * (n - 1).

(** A 4x4 single-band image. *)
Definition demo_grey : Image :=
  raster L 4 4 (fun x y => [Z.of_nat (x * 60 + y * 10)]).

(** The number of edge comparisons [calculate_fitness] makes at the cell
    [(i, j)]: one to the right unless the cell is in the last column, one
    below unless it is in the last row. *)
Definition cell_edges (n : nat) (ij : nat * nat) : nat :=
  (if decide (ij.2 + 1 < n) then 1 else 0) +
  (if decide (ij.1 + 1 < n) then 1 else 0).

(** The two upper tiles of the gradient and the score of their common
    edge. *)
Definition demo_tile (k : nat) : Image :=
  default (raster RGB 0 0 (fun _ _ => [])) (demo_pieces !! k).


(** Pairs in an order in which no fitness is below a later one. *)
Definition descending (pairs : list (fl * chromosome)) : Prop :=
  forall i j a b, i < j -> pairs !! i = Some a -> pairs !! j = Some b ->
                  flt a.1 b.1 = false.

(** A fitness that is a number. *)
Definition finite (f : fl) : Prop := exists q, f = Fin q.

(** Four arrangements of the four tiles. *)
Definition demo_population : list chromosome :=
  [[0; 1; 2; 3]; [1; 0; 2; 3]; [3; 2; 1; 0]; [2; 3; 0; 1]].

Definition demo_fitnesses : list fl :=
  Eval vm_compute in
    match evaluate demo_pieces demo_sequence 2 demo_population with
    | Ok (fitnesses, _) => fitnesses
    | Raise _ => []
    end.

Definition demo_counts : list nat := [4; 2; 0; 0].

(** The response to a request for the gradient in four tiles, with six
    chromosomes and two generations, and its first entry. *)
Definition demo_response : list rendered :=
  Eval vm_compute in
    match outcome (solve_puzzle nearest demo_image 2 6 2 (1 # 5)) (demo_rng 6) with
    | Ok response => response
    | Raise _ => []
    end.

Definition demo_entry : rendered :=
  default (0, NaN, 0, demo_image) (demo_response !! 0).

(** ** Runs in which nothing is bred *)

(** No chromosome of the population is fitter than the global best. *)
Definition dominated (pieces : list Image) (original_sequence : list nat)
    (grid_size : Z) (st : ga_state) : Prop :=
  forall c, c ∈ population st ->
    exists f cp,
      calculate_fitness c pieces original_sequence grid_size = Ok (f, cp) /\
      fle f (global_best_fitness st).

(** Every snapshot so far is [s], the snapshot of the global best, and the
    population holds nothing fitter. *)
Definition settled (pieces : list Image) (original_sequence : list nat)
    (grid_size : Z) (s : snapshot) (st : ga_state) : Prop :=
  global_best_chromo st = Some (snap_chromosome s) /\
  global_best_fitness st = snap_fitness s /\
  Forall (eq s) (best_solutions st) /\
  consistent pieces original_sequence grid_size s /\
  dominated pieces original_sequence grid_size st.

(** The small run with as many elites as chromosomes: its state after two
    generations, its three snapshots and the last of them. *)
Definition demo_idle_state : ga_state :=
  Eval vm_compute in
    match outcome (state_after demo_pieces demo_sequence 5 (1 # 5) 2 5 20 2)
                  (demo_rng 6) with
    | Ok st => st
    | Raise _ => initial_state []
    end.

Definition demo_idle_snaps : list snapshot :=
  Eval vm_compute in
    match outcome (genetic_algorithm demo_pieces demo_sequence 5 3 (1 # 5)
                                     2 5 20) (demo_rng 6) with
    | Ok snaps => snaps
    | Raise _ => []
    end.

Definition demo_idle_last : snapshot :=
  default ([], NaN, 0) (demo_idle_snaps !! 2).

(** The response to a request with five chromosomes and three
    generations, and its last entry. *)
Definition demo_small_response : list rendered :=
  Eval vm_compute in
    match outcome (solve_puzzle nearest demo_image 2 5 3 (1 # 5)) (demo_rng 1) with
    | Ok response => response
    | Raise _ => []
    end.

Definition demo_small_entry : rendered :=
  default (0, NaN, 0, demo_image) (demo_small_response !! 2).


(* ===================================================================== *)
(** * Verification *)
(* ===================================================================== *)

(** ** Reasoning about results and about the monad *)

Lemma rspec_mono {A} (x : result A) (Q Q' : A -> Prop) (E E' : exn -> Prop) :
  rspec x Q E -> (forall a, Q a -> Q' a) -> (forall e, E e -> E' e) ->
  rspec x Q' E'.
Proof. destruct x; simpl; auto. Qed.

Lemma rspec_bind {A B} (x : result A) (f : A -> result B) Q Q' E :
  rspec x Q E -> (forall a, Q a -> rspec (f a) Q' E) -> rspec (rbind x f) Q' E.
Proof. destruct x; simpl; auto. Qed.

Lemma rspec_ok {A} (x : result A) (Q : A -> Prop) E a :
  rspec x Q E -> x = Ok a -> Q a.
Proof. intros H ->. exact H. Qed.

Lemma rspec_total {A} (x : result A) (Q : A -> Prop) :
  rspec x Q nothing -> exists a, x = Ok a /\ Q a.
Proof. destruct x; simpl; [eauto | intros []]. Qed.

Lemma mspec_mono {A} (m : M A) (Q Q' : A -> Prop) (E E' : exn -> Prop) :
  mspec m Q E -> (forall a, Q a -> Q' a) -> (forall e, E e -> E' e) ->
  mspec m Q' E'.
Proof. intros H HQ HE r. eapply rspec_mono; [apply H | simpl; auto | auto]. Qed.

Lemma mspec_ret {A} (a : A) (Q : A -> Prop) E : Q a -> mspec (ret a) Q E.
Proof. intros H r. exact H. Qed.

Lemma mspec_raise {A} e (Q : A -> Prop) (E : exn -> Prop) :
  E e -> mspec (raise e) Q E.
Proof. intros H r. exact H. Qed.

Lemma mspec_lift {A} (x : result A) Q E : rspec x Q E -> mspec (lift x) Q E.
Proof. intros H r. unfold lift. destruct x; exact H. Qed.

Lemma mspec_bind {A B} (m : M A) (f : A -> M B) Q Q' E :
  mspec m Q E -> (forall a, Q a -> mspec (f a) Q' E) -> mspec (bind m f) Q' E.
Proof.
  intros Hm Hf r. unfold bind. specialize (Hm r).
  destruct (m r) as [[a r1]|e]; simpl in *; [apply Hf, Hm | exact Hm].
Qed.

Lemma mspec_ok {A} (m : M A) (Q : A -> Prop) E r a r' :
  mspec m Q E -> m r = Ok (a, r') -> Q a.
Proof. intros H Hr. specialize (H r). rewrite Hr in H. exact H. Qed.

Lemma mspec_raises {A} (m : M A) (Q : A -> Prop) E r e :
  mspec m Q E -> m r = Raise e -> E e.
Proof. intros H Hr. specialize (H r). rewrite Hr in H. exact H. Qed.

Lemma mspec_total {A} (m : M A) (Q : A -> Prop) r :
  mspec m Q nothing -> exists a r', m r = Ok (a, r') /\ Q a.
Proof.
  intros H. specialize (H r). destruct (m r) as [[a r']|e]; simpl in H;
    [eauto | destruct H].
Qed.

(** Inversion of a successful [bind], [lift] and [rbind]. *)
Lemma bind_ok {A B} (m : M A) (f : A -> M B) r b r' :
  bind m f r = Ok (b, r') ->
  exists a r1, m r = Ok (a, r1) /\ f a r1 = Ok (b, r').
Proof. unfold bind. destruct (m r) as [[a r1]|e]; [eauto | discriminate]. Qed.

Lemma lift_ok {A} (x : result A) r a r' :
  lift x r = Ok (a, r') -> x = Ok a /\ r' = r.
Proof. unfold lift. destruct x; [|discriminate]. intros [= -> ->]. auto. Qed.

Lemma rbind_ok {A B} (x : result A) (f : A -> result B) b :
  rbind x f = Ok b -> exists a, x = Ok a /\ f a = Ok b.
Proof. destruct x; simpl; [eauto | discriminate]. Qed.

Lemma ret_ok {A} (a b : A) r r' : ret a r = Ok (b, r') -> b = a /\ r' = r.
Proof. intros [= -> ->]. auto. Qed.

(** Loops. *)
Lemma foldR_spec {A S} (f : S -> A -> result S) (I : S -> Prop) E l s :
  (forall s a, I s -> a ∈ l -> rspec (f s a) I E) ->
  I s -> rspec (foldR f s l) I E.
Proof.
  revert s. induction l as [|a l IH]; intros s Hf Hs; simpl; [exact Hs|].
  eapply rspec_bind; [apply Hf; [exact Hs | left]|].
  intros s' Hs'. apply IH; [|exact Hs'].
  intros s0 a0 H0 Hin. apply Hf; [exact H0 | by right].
Qed.

Lemma mfold_spec {A S} (f : S -> A -> M S) (I : S -> Prop) E l s :
  (forall s a, I s -> a ∈ l -> mspec (f s a) I E) ->
  I s -> mspec (mfold f s l) I E.
Proof.
  revert s. induction l as [|a l IH]; intros s Hf Hs; simpl;
    [by apply mspec_ret|].
  eapply mspec_bind; [apply Hf; [exact Hs | left]|].
  intros s' Hs'. apply IH; [|exact Hs'].
  intros s0 a0 H0 Hin. apply Hf; [exact H0 | by right].
Qed.

Lemma mapR_spec {A B} (f : A -> result B) (Q : A -> B -> Prop) E l :
  (forall a, a ∈ l -> rspec (f a) (Q a) E) ->
  rspec (mapR f l) (Forall2 Q l) E.
Proof.
  induction l as [|a l IH]; intros Hf; simpl; [constructor|].
  eapply rspec_bind; [apply Hf; left|]. intros b Hb.
  eapply rspec_bind; [apply IH; intros; apply Hf; by right|].
  intros bs Hbs. simpl. by constructor.
Qed.

Lemma mmap_spec {A B} (f : A -> M B) (Q : A -> B -> Prop) E l :
  (forall a, a ∈ l -> mspec (f a) (Q a) E) ->
  mspec (mmap f l) (Forall2 Q l) E.
Proof.
  induction l as [|a l IH]; intros Hf; simpl; [apply mspec_ret; constructor|].
  eapply mspec_bind; [apply Hf; left|]. intros b Hb.
  eapply mspec_bind; [apply IH; intros; apply Hf; by right|].
  intros bs Hbs. apply mspec_ret. by constructor.
Qed.

Lemma mapR_ok {A B} (f : A -> result B) l bs :
  mapR f l = Ok bs -> Forall2 (fun a b => f a = Ok b) l bs.
Proof.
  intros H.
  pose proof (mapR_spec f (fun a b => f a = Ok b) anything l) as HS.
  eapply rspec_ok; [apply HS | exact H].
  intros a _. destruct (f a); simpl; [reflexivity | exact I].
Qed.


(** ** The shape of one generation *)

Ltac invert_ok :=
repeat match goal with
| H : bind _ _ _ = Ok _ |- _ =>
    let a := fresh "a" in let r := fresh "r" in
    let H1 := fresh "H" in let H2 := fresh "H" in
    apply bind_ok in H as (a & r & H1 & H2)
| H : lift _ _ = Ok _ |- _ =>
    let H1 := fresh "H" in let H2 := fresh "H" in
    apply lift_ok in H as [H1 H2]; subst
| H : ret _ _ = Ok _ |- _ =>
    let H1 := fresh "H" in let H2 := fresh "H" in
    apply ret_ok in H as [H1 H2]; subst
| H : rbind _ _ = Ok _ |- _ =>
    let a := fresh "a" in
    let H1 := fresh "H" in let H2 := fresh "H" in
    apply rbind_ok in H as (a & H1 & H2)
| H : Ok _ = Ok _ |- _ => injection H as H; subst
| H : (match ?x with (_, _) => _ end) _ = Ok _ |- _ => destruct x
end.

Section Generation.

Variable pieces : list Image.
Variable original_sequence : list nat.
Variable population_size : Z.
Variable mutation_rate : Q.
Variable grid_size : Z.
Variable elite_count : Z.
Variable stagnation_threshold : Z.

Local Abbreviation fitness_of c := (calculate_fitness c pieces original_sequence grid_size).
Local Abbreviation step :=
  (generation_step pieces original_sequence population_size mutation_rate
                   grid_size elite_count stagnation_threshold).
Local Abbreviation run :=
  (run_generations pieces original_sequence population_size mutation_rate
                   grid_size elite_count stagnation_threshold).

Lemma generation_step_ok st r st' r' :
  step st r = Ok (st', r') -> generation_trace pieces original_sequence population_size mutation_rate
                 grid_size elite_count stagnation_threshold st r st' r'.
Proof.
  unfold generation_step. intros H. invert_ok.
  econstructor; eauto.
Qed.

Lemma run_generations_ind (I : ga_state -> Prop) :
  (forall st r st' r', I st -> step st r = Ok (st', r') -> I st') ->
  forall n st r st' r', I st -> run n st r = Ok (st', r') -> I st'.
Proof.
  intros Hstep. induction n as [|n IH]; intros st r st' r' Hst Hrun; simpl in Hrun.
  - apply ret_ok in Hrun as [-> _]. exact Hst.
  - apply bind_ok in Hrun as (st1 & r1 & H1 & H2).
    eapply IH; [|exact H2]. eapply Hstep; eauto.
Qed.

(** *** What [track_best] returns *)

Lemma track_best_cases st fitnesses best_index best f n :
  track_best st fitnesses best_index = Ok (best, f, n) ->
  exists fb, fitnesses !! best_index = Some fb /\
    ((fgt fb (global_best_fitness st) = true /\
      best = population st !! best_index /\ is_Some best /\ f = fb /\ n = 0)
     \/
     (fgt fb (global_best_fitness st) = false /\
      best = global_best_chromo st /\ f = global_best_fitness st /\
      n = stagnation_counter st + 1)).
Proof.
  unfold track_best, getitem. intros H.
  destruct (fitnesses !! best_index) as [fb|] eqn:Hfb; simpl in H; [|discriminate].
  exists fb. split; [reflexivity|].
  destruct (fgt fb (global_best_fitness st)) eqn:Hgt.
  - left. destruct (population st !! best_index) as [c|] eqn:Hc; simpl in H;
      [|discriminate].
    injection H as <- <- <-. eauto 10.
  - right. injection H as <- <- <-. auto.
Qed.

End Generation.


(** ** The order on fitness values *)

Lemma Qltb_lt a b : Qltb a b = true <-> (a < b)%Q.
Proof. unfold Qltb, Qlt. apply Z.ltb_lt. Qed.

Lemma Qltb_ge a b : Qltb a b = false <-> (b <= a)%Q.
Proof. unfold Qltb, Qle. apply Z.ltb_ge. Qed.

Lemma flt_fle a b : flt a b = true -> fle a b.
Proof.
  destruct a, b; simpl; try discriminate; auto.
  intros H%Qltb_lt. by apply Qlt_le_weak.
Qed.

Lemma flt_not_nan a b : flt a b = true -> b <> NaN.
Proof. destruct a, b; simpl; congruence. Qed.

Lemma fle_refl a : a <> NaN -> fle a a.
Proof. destruct a; simpl; [auto | intros; apply Qle_refl | congruence]. Qed.

Lemma fle_trans a b c : fle a b -> fle b c -> fle a c.
Proof.
  destruct a, b, c; simpl; try tauto. apply Qle_trans.
Qed.

Lemma flt_irrefl_eq q q' : (q == q')%Q -> flt (Fin q') (Fin q) = false.
Proof. intros H. simpl. apply Qltb_ge. rewrite H. apply Qle_refl. Qed.

Lemma nondecreasing_snoc l y :
  nondecreasing l -> Forall (fun x => fle x y) l -> fle y y ->
  nondecreasing (l ++ [y]).
Proof.
  intros Hl Hall Hy i j a b Hij Hi Hj.
  destruct (decide (j < length l)) as [Hjl|Hjl].
  - rewrite lookup_app_l in Hj by exact Hjl.
    rewrite lookup_app_l in Hi by lia. eauto.
  - assert (b = y) as ->.
    { rewrite lookup_app_r in Hj by lia.
      destruct (j - length l) as [|k]; simpl in Hj; [congruence|].
      by rewrite lookup_nil in Hj. }
    destruct (decide (i < length l)) as [Hil|Hil].
    + rewrite lookup_app_l in Hi by exact Hil.
      rewrite Forall_forall in Hall. apply Hall.
      by eapply list_elem_of_lookup_2.
    + rewrite lookup_app_r in Hi by lia.
      destruct (i - length l) as [|k]; simpl in Hi;
        [injection Hi as ->; exact Hy | by rewrite lookup_nil in Hi].
Qed.

(** ** Monotonic global best *)

Section Monotone.

Variable pieces : list Image.
Variable original_sequence : list nat.
Variable population_size : Z.
Variable mutation_rate : Q.
Variable grid_size : Z.
Variable elite_count : Z.
Variable stagnation_threshold : Z.

Local Abbreviation step :=
  (generation_step pieces original_sequence population_size mutation_rate
                   grid_size elite_count stagnation_threshold).
Local Abbreviation run :=
  (run_generations pieces original_sequence population_size mutation_rate
                   grid_size elite_count stagnation_threshold).

Lemma take_snapshot_ok best f counts i snap :
  take_snapshot best f counts i = Ok snap ->
  exists c n, best = Some c /\ counts !! i = Some n /\ snap = (c, f, n).
Proof.
  unfold take_snapshot, copy_of, getitem. intros H.
  destruct best as [c|]; simpl in H; [|discriminate].
  destruct (counts !! i) as [n|]; simpl in H; [|discriminate].
  injection H as <-. eauto.
Qed.

Lemma track_best_grows st fitnesses i best f n :
  global_best_fitness st <> NaN ->
  track_best st fitnesses i = Ok (best, f, n) ->
  f <> NaN /\ fle (global_best_fitness st) f.
Proof.
  intros Hnan H. apply track_best_cases in H as (fb & _ & [H|H]).
  - destruct H as (Hgt & _ & _ & -> & _). unfold fgt in Hgt.
    split; [by eapply flt_not_nan | by apply flt_fle].
  - destruct H as (_ & _ & -> & _). split; [exact Hnan | by apply fle_refl].
Qed.

Lemma monotone_step st r st' r' :
  monotone_inv st -> step st r = Ok (st', r') -> monotone_inv st'.
Proof.
  intros (Hnan & Hmono & Hall) Hstep.
  apply generation_step_ok in Hstep as [].
  destruct (track_best_grows _ _ _ _ _ _ Hnan tr_track) as [Hf Hle].
  apply take_snapshot_ok in tr_snapshot as (c & n & _ & _ & ->).
  subst st'. unfold monotone_inv; simpl. split; [exact Hf|].
  rewrite fmap_app. simpl. split.
  - apply nondecreasing_snoc; [exact Hmono | | by apply fle_refl].
    rewrite Forall_fmap. eapply Forall_impl; [exact Hall|].
    intros s Hs. simpl. eapply fle_trans; [exact Hs | exact Hle].
  - apply Forall_app. split.
    + eapply Forall_impl; [exact Hall|]. intros s Hs.
      eapply fle_trans; [exact Hs | exact Hle].
    + constructor; [|constructor]. by apply fle_refl.
Qed.

Lemma monotone_run n st r st' r' :
  monotone_inv st -> run n st r = Ok (st', r') -> monotone_inv st'.
Proof.
  apply (run_generations_ind pieces original_sequence population_size
           mutation_rate grid_size elite_count stagnation_threshold monotone_inv).
  intros. eapply monotone_step; eauto.
Qed.

Lemma monotone_initial population : monotone_inv (initial_state population).
Proof.
  unfold monotone_inv; simpl. split; [discriminate|]. split; [|constructor].
  intros i j x y _ Hi. by rewrite lookup_nil in Hi.
Qed.

End Monotone.

Lemma outcome_ok {A} (m : M A) r a :
  outcome m r = Ok a -> exists r', m r = Ok (a, r').
Proof.
  unfold outcome. destruct (m r) as [[a' r']|]; [|discriminate].
  intros [= ->]. eauto.
Qed.

Lemma diversify_counter pieces population_size stagnation_threshold
    population stagnation r population' stagnation' r' :
  diversify pieces population_size stagnation_threshold population stagnation r
  = Ok ((population', stagnation'), r') ->
  stagnation' =
    if decide (stagnation_threshold <= Z.of_nat stagnation)%Z then 0 else stagnation.
Proof.
  unfold diversify. destruct (decide _); intros H; invert_ok; congruence.
Qed.

(** C3.  In every run the global-best fitness values recorded in the
    snapshots, in generation order, never decrease.  In every generation,
    with [fb] the fitness at [best_index]: when [fb] strictly exceeds the
    running global best, the global best becomes the chromosome at
    [best_index] with fitness [fb]; otherwise (a tie included) chromosome
    and fitness stay as they were and the stagnation counter is
    incremented (and then tested against the threshold). *)
Theorem global_best_monotone :
  (forall pieces original_sequence population_size generations mutation_rate
          grid_size elite_count stagnation_threshold r snaps,
      outcome (genetic_algorithm pieces original_sequence population_size
                 generations mutation_rate grid_size elite_count
                 stagnation_threshold) r = Ok snaps ->
      nondecreasing (snap_fitness <$> snaps)) /\
  (forall pieces original_sequence population_size mutation_rate grid_size
          elite_count stagnation_threshold st r st' r',
      generation_step pieces original_sequence population_size mutation_rate
        grid_size elite_count stagnation_threshold st r = Ok (st', r') ->
      exists fitnesses counts best_index fb,
        evaluate pieces original_sequence grid_size (population st)
        = Ok (fitnesses, counts) /\
        argmax fitnesses = Ok best_index /\
        fitnesses !! best_index = Some fb /\
        if fgt fb (global_best_fitness st)
        then global_best_chromo st' = population st !! best_index /\
             global_best_fitness st' = fb
        else global_best_chromo st' = global_best_chromo st /\
             global_best_fitness st' = global_best_fitness st /\
             stagnation_counter st' =
               if decide (stagnation_threshold
                          <= Z.of_nat (stagnation_counter st + 1))%Z
               then 0 else stagnation_counter st + 1) /\
  (forall q q', (q == q')%Q -> fgt (Fin q') (Fin q) = false).
Proof.
  split; [|split].
  - intros pieces original_sequence population_size generations mutation_rate
           grid_size elite_count stagnation_threshold r snaps H.
    apply outcome_ok in H as [r' H]. unfold genetic_algorithm in H.
    apply bind_ok in H as (population & r1 & _ & H).
    apply bind_ok in H as (st & r2 & Hrun & H).
    apply ret_ok in H as [-> _].
    eapply monotone_run in Hrun; [|apply monotone_initial].
    apply Hrun.
  - intros pieces original_sequence population_size mutation_rate grid_size
           elite_count stagnation_threshold st r st' r' H.
    apply generation_step_ok in H as [].
    exists fitnesses, counts, best_index.
    apply track_best_cases in tr_track as (fb & Hfb & Hcases).
    exists fb. do 3 (split; [assumption|]). subst st'; simpl.
    destruct Hcases as [(-> & -> & _ & -> & _)|(-> & -> & -> & ->)].
    + auto.
    + apply diversify_counter in tr_diversify. auto.
  - intros q q' H. unfold fgt. apply flt_irrefl_eq. by symmetry.
Qed.

(** The monotonicity theorem at work on a run that improves twice and
    stagnates. *)
Lemma global_best_monotone_witness :
  demo_run 6 = Ok demo_snaps /\ length demo_snaps = 5 /\
  nondecreasing (snap_fitness <$> demo_snaps).
Proof.
  assert (demo_run 6 = Ok demo_snaps) as Hrun by (vm_compute; reflexivity).
  split; [exact Hrun|]. split; [reflexivity|].
  exact (proj1 global_best_monotone demo_pieces demo_sequence 5%Z 5%Z (1 # 5)%Q
           2%Z 2%Z 2%Z (demo_rng 6) demo_snaps Hrun).
Defined.


(** ** Edge scores and fitness values *)

Lemma getpixel_wf im x y :
  wf_image im -> x < im_width im -> y < im_height im ->
  wf_pixel (im_mode im) (getpixel im x y).
Proof.
  intros [Hh Hrows] Hx Hy. unfold getpixel.
  destruct (im_rows im !! y) as [row|] eqn:Hrow.
  - rewrite Forall_forall in Hrows.
    destruct (Hrows row) as [Hlen Hpx]; [by eapply list_elem_of_lookup_2|].
    simpl. destruct (row !! x) as [p|] eqn:Hp.
    + simpl. rewrite Forall_forall in Hpx. apply Hpx.
      by eapply list_elem_of_lookup_2.
    + apply lookup_ge_None in Hp. lia.
  - apply lookup_ge_None in Hrow. lia.
Qed.

Lemma pixel_diff_bytes m p1 p2 :
  wf_pixel m p1 -> wf_pixel m p2 ->
  byte_diffs (zip_with (fun a b => Z.abs (a - b)) p1 p2) /\
  length (zip_with (fun a b => Z.abs (a - b)) p1 p2) = bands m.
Proof.
  intros [Hl1 Hv1] [Hl2 Hv2]. split.
  - clear Hl1 Hl2. revert p2 Hv2.
    induction Hv1 as [|a p1 Ha Hv1 IH]; intros [|b p2] Hv2; simpl;
      try constructor.
    + inversion Hv2; subst. lia.
    + inversion Hv2; subst. by apply IH.
  - rewrite length_zip_with. lia.
Qed.

Lemma edge_diff_bytes m e1 e2 :
  Forall (wf_pixel m) e1 -> Forall (wf_pixel m) e2 ->
  length e1 = length e2 -> 0 < length e1 ->
  let d := concat (zip_with (zip_with (fun a b => Z.abs (a - b))) e1 e2) in
  byte_diffs d /\ d <> [].
Proof.
  intros H1 H2 Hlen Hpos. simpl. split.
  - clear Hlen Hpos. revert e2 H2.
    induction H1 as [|p1 e1 Hp1 H1 IH]; intros [|p2 e2] H2; simpl;
      try constructor.
    inversion H2; subst. apply Forall_app. split.
    + by eapply pixel_diff_bytes.
    + by apply IH.
  - destruct e1 as [|p1 e1]; [simpl in Hpos; lia|].
    destruct e2 as [|p2 e2]; [discriminate|]. simpl.
    inversion H1; subst. inversion H2; subst.
    pose proof (pixel_diff_bytes m p1 p2 ltac:(assumption) ltac:(assumption))
      as [_ Hb].
    destruct (zip_with _ p1 p2); simpl in *; [destruct m; discriminate | discriminate].
Qed.

Lemma sum_bytes d :
  byte_diffs d -> (0 <= foldr Z.add 0 d <= 255 * Z.of_nat (length d))%Z.
Proof. induction 1; simpl; lia. Qed.

Lemma np_mean_bytes d :
  byte_diffs d -> d <> [] ->
  exists m, np_mean d = Some m /\ (0 <= m <= 255)%Q.
Proof.
  intros Hd Hne. pose proof (sum_bytes d Hd) as Hs.
  assert (0 < Z.of_nat (length d))%Z as Hlen by (destruct d; simpl in *; [done | lia]).
  destruct d as [|z d]; [done|]. eexists. split; [reflexivity|].
  set (s := foldr Z.add 0%Z (z :: d)) in *.
  set (n := Z.of_nat (length (z :: d))) in *.
  assert (0 < inject_Z n)%Q as Hn by (rewrite <- (Zlt_Qlt 0); exact Hlen).
  split.
  - apply Qle_shift_div_l; [exact Hn|]. rewrite Qmult_0_l.
    rewrite <- (Zle_Qle 0). lia.
  - apply Qle_shift_div_r; [exact Hn|].
    change 255%Q with (inject_Z 255). rewrite <- inject_Z_mult.
    rewrite <- Zle_Qle. lia.
Qed.

Lemma score_unit m :
  (0 <= m <= 255)%Q -> (0 <= 1 - m / 255 <= 1)%Q.
Proof.
  intros [H0 H1].
  assert (0 <= m / 255)%Q as Ha.
  { apply Qle_shift_div_l; [reflexivity|]. lra. }
  assert (m / 255 <= 1)%Q as Hb.
  { apply Qle_shift_div_r; [reflexivity|]. lra. }
  generalize dependent (m / 255)%Q. intros x Ha Hb. split; lra.
Qed.

Lemma column_ok last piece edge :
  wf_tile piece -> column last piece = Ok edge ->
  Forall (wf_pixel (im_mode piece)) edge /\ length edge = im_height piece.
Proof.
  intros (Hwf & Hw & Hh). unfold column. destruct (decide _); [discriminate|].
  intros [= <-]. split; [|by rewrite length_map, length_seq].
  apply Forall_forall. intros p Hp. apply list_elem_of_fmap in Hp as (y & -> & Hy).
  apply elem_of_seq in Hy. apply getpixel_wf; [exact Hwf | destruct last; lia | lia].
Qed.

Lemma row_ok last piece edge :
  wf_tile piece -> row last piece = Ok edge ->
  Forall (wf_pixel (im_mode piece)) edge /\ length edge = im_width piece.
Proof.
  intros (Hwf & Hw & Hh). unfold row. destruct (decide _); [discriminate|].
  intros [= <-]. split; [|by rewrite length_map, length_seq].
  apply Forall_forall. intros p Hp. apply list_elem_of_fmap in Hp as (x & -> & Hx).
  apply elem_of_seq in Hx. apply getpixel_wf; [exact Hwf | lia | destruct last; lia].
Qed.

Lemma wf_pixel_bands m m' p : bands m = bands m' -> wf_pixel m p -> wf_pixel m' p.
Proof. unfold wf_pixel. intros ->. auto. Qed.

(** Between two tiles of positive size every edge score that is returned
    is a number of [0, 1]. *)
Lemma compare_edges_unit piece1 piece2 d s :
  wf_tile piece1 -> wf_tile piece2 ->
  compare_edges piece1 piece2 d = Ok s ->
  exists q, s = Fin q /\ (0 <= q <= 1)%Q.
Proof.
  intros H1 H2 H. unfold compare_edges in H.
  apply rbind_ok in H as (e1 & He1 & H).
  apply rbind_ok in H as (e2 & He2 & H).
  apply rbind_ok in H as (ds & Hds & H). injection H as <-.
  unfold abs_diff in Hds. destruct (decide _) as [[Hlen Hb]|]; [|discriminate].
  injection Hds as <-.
  assert (Forall (wf_pixel (im_mode piece1)) e1 /\
          Forall (wf_pixel (im_mode piece1)) e2 /\ 0 < length e1) as (F1 & F2 & Hpos).
  { destruct d.
    - apply column_ok in He1 as [F1 L1]; [|exact H1].
      apply column_ok in He2 as [F2 L2]; [|exact H2].
      split; [exact F1|]. split; [|destruct H1 as (_ & _ & ?); lia].
      eapply Forall_impl; [exact F2|]. intros p. by apply wf_pixel_bands.
    - apply row_ok in He1 as [F1 L1]; [|exact H1].
      apply row_ok in He2 as [F2 L2]; [|exact H2].
      split; [exact F1|]. split; [|destruct H1 as (_ & ? & _); lia].
      eapply Forall_impl; [exact F2|]. intros p. by apply wf_pixel_bands. }
  destruct (edge_diff_bytes _ e1 e2 F1 F2 Hlen Hpos) as [Hbytes Hne].
  destruct (np_mean_bytes _ Hbytes Hne) as (m & -> & Hm).
  eexists. split; [reflexivity|]. by apply score_unit.
Qed.


Lemma getitem_ok {A} (l : list A) i x : getitem l i = Ok x <-> l !! i = Some x.
Proof. unfold getitem. destruct (l !! i); split; congruence. Qed.

Lemma piece_at_ok pieces c k p : piece_at pieces c k = Ok p -> p ∈ pieces.
Proof.
  unfold piece_at. intros H. apply rbind_ok in H as (t & _ & H).
  apply getitem_ok in H. by eapply list_elem_of_lookup_2.
Qed.

Lemma fadd_score q s :
  (exists x, s = Fin x /\ (0 <= x <= 1)%Q) -> finite_from q (fadd (Fin q) s).
Proof. intros (x & -> & Hx). eexists. split; [reflexivity|]. simpl. lra. Qed.

Lemma fitness_cell_grows c pieces n q ij f :
  Forall wf_tile pieces ->
  fitness_cell c pieces n (Fin q) ij = Ok f -> finite_from q f.
Proof.
  intros Hwf. rewrite Forall_forall in Hwf.
  destruct ij as [i j]. unfold fitness_cell. intros H.
  apply rbind_ok in H as (f1 & H1 & H2).
  assert (finite_from q f1) as (q1 & -> & Hq1).
  { destruct (decide (j + 1 < n)).
    - apply rbind_ok in H1 as (p1 & Hp1 & H1).
      apply rbind_ok in H1 as (p2 & Hp2 & H1).
      apply rbind_ok in H1 as (s & Hs & H1). injection H1 as <-.
      apply fadd_score. eapply compare_edges_unit; [| |exact Hs];
        apply Hwf; by eapply piece_at_ok.
    - injection H1 as <-. exists q. split; [reflexivity | lra]. }
  destruct (decide (i + 1 < n)).
  - apply rbind_ok in H2 as (p1 & Hp1 & H2).
    apply rbind_ok in H2 as (p2 & Hp2 & H2).
    apply rbind_ok in H2 as (s & Hs & H2). injection H2 as <-.
    assert (finite_from q1 (fadd (Fin q1) s)) as (q2 & Hq2 & Hle).
    { apply fadd_score. eapply compare_edges_unit; [| |exact Hs];
        apply Hwf; by eapply piece_at_ok. }
    exists q2. split; [exact Hq2 | lra].
  - injection H2 as <-. exists q1. auto.
Qed.

Lemma fitness_fold_grows c pieces n cs q f :
  Forall wf_tile pieces ->
  foldR (fitness_cell c pieces n) (Fin q) cs = Ok f -> finite_from q f.
Proof.
  intros Hwf. revert q. induction cs as [|ij cs IH]; intros q H; simpl in H.
  - injection H as <-. exists q. split; [reflexivity | lra].
  - apply rbind_ok in H as (f1 & H1 & H2).
    apply fitness_cell_grows in H1 as (q1 & -> & Hq1); [|exact Hwf].
    apply IH in H2 as (q2 & -> & Hq2). exists q2. split; [reflexivity | lra].
Qed.

(** Over tiles of positive size a returned fitness is a number, and it is
    not negative. *)
Lemma calculate_fitness_nonneg c pieces original_sequence grid_size f cp :
  Forall wf_tile pieces ->
  calculate_fitness c pieces original_sequence grid_size = Ok (f, cp) ->
  exists q, f = Fin q /\ (0 <= q)%Q.
Proof.
  intros Hwf H. unfold calculate_fitness in H.
  apply rbind_ok in H as (cp' & _ & H).
  apply rbind_ok in H as (f1 & H1 & H). injection H as <- <-.
  apply fitness_fold_grows in H1 as (q1 & -> & Hq1); [|exact Hwf].
  eexists. split; [reflexivity|].
  assert (0 <= inject_Z (Z.of_nat (count_true cp' * 5)))%Q
    by (rewrite <- (Zle_Qle 0); lia).
  lra.
Qed.

(** ** The correct-positions list *)

Lemma correct_positions_of_ok c original_sequence cp :
  correct_positions_of c original_sequence = Ok cp ->
  length cp = length c /\
  forall i, i < length c ->
    exists ci oi, c !! i = Some ci /\ original_sequence !! i = Some oi /\
                  cp !! i = Some (bool_decide (ci = oi)).
Proof.
  unfold correct_positions_of. intros H. apply mapR_ok in H.
  split.
  - apply Forall2_length in H. by rewrite length_seq in H.
  - intros i Hi.
    destruct (Forall2_lookup_l _ _ _ i i H) as (b & Hb & Hf).
    { apply lookup_seq. lia. }
    apply rbind_ok in Hf as (ci & Hci & Hf).
    apply rbind_ok in Hf as (oi & Hoi & Hf). injection Hf as <-.
    apply getitem_ok in Hci, Hoi. eauto.
Qed.

(** ** Evaluation of a population *)

Lemma evaluate_ok pieces original_sequence grid_size population fitnesses counts :
  evaluate pieces original_sequence grid_size population = Ok (fitnesses, counts) ->
  length fitnesses = length population /\
  length counts = length population /\
  forall i c, population !! i = Some c ->
    exists f cp,
      calculate_fitness c pieces original_sequence grid_size = Ok (f, cp) /\
      fitnesses !! i = Some f /\ counts !! i = Some (count_true cp).
Proof.
  unfold evaluate. intros H. apply rbind_ok in H as (results & Hres & H).
  injection H as <- <-. apply mapR_ok in Hres.
  pose proof (Forall2_length _ _ _ Hres) as Hlen.
  rewrite !length_fmap. repeat split; try congruence.
  intros i c Hc.
  destruct (Forall2_lookup_l _ _ _ i c Hres Hc) as ([f cp] & Hr & Hf).
  exists f, cp. rewrite !list_lookup_fmap, Hr. auto.
Qed.

(** ** argmax *)

Lemma exceeds_trans a b c :
  exceeds a b = true -> exceeds b c = true -> exceeds a c = true.
Proof.
  destruct a as [|x|], b as [|y|], c as [|z|]; simpl; try congruence.
  unfold fgt; simpl. rewrite !Qltb_lt. intros. by eapply Qlt_trans.
Qed.

Lemma exceeds_later x y b :
  exceeds x b = true -> exceeds y b = false -> exceeds x y = true.
Proof.
  destruct x as [|x|], y as [|y|], b as [|b|]; simpl; try congruence.
  unfold fgt; simpl. rewrite !Qltb_lt, Qltb_ge. intros. by eapply Qle_lt_trans.
Qed.

(** The scan keeps the first maximum: the value at the running best index
    exceeds every earlier value, and no later value seen so far exceeds
    it. *)
Lemma argmax_from_spec xs : forall pre best_index best i,
  i = length pre -> pre !! best_index = Some best ->
  (forall k x, k < best_index -> pre !! k = Some x -> exceeds best x = true) ->
  (forall k x, best_index < k -> pre !! k = Some x -> exceeds x best = false) ->
  exists fb, (pre ++ xs) !! argmax_from best_index best i xs = Some fb /\
    forall k x, k < argmax_from best_index best i xs ->
                (pre ++ xs) !! k = Some x -> exceeds fb x = true.
Proof.
  induction xs as [|x xs IH];
    intros pre best_index best i Hi Hbest Hprev Hnext; simpl.
  - rewrite app_nil_r. eauto.
  - replace (pre ++ x :: xs) with ((pre ++ [x]) ++ xs) by by rewrite <- app_assoc.
    pose proof (lookup_lt_Some _ _ _ Hbest) as Hlt.
    destruct (exceeds x best) eqn:Hex.
    + apply IH.
      * rewrite length_app. simpl. lia.
      * subst i. rewrite lookup_app_r by lia. by rewrite Nat.sub_diag.
      * intros k y Hk Hy. subst i. rewrite lookup_app_l in Hy by lia.
        destruct (decide (k < best_index)) as [Hkb|Hkb].
        -- eapply exceeds_trans; [exact Hex | eauto].
        -- destruct (decide (k = best_index)) as [->|Hne]; [congruence|].
           eapply exceeds_later; [exact Hex|]. eapply Hnext; [|exact Hy]. lia.
      * intros k y Hk Hy. apply lookup_lt_Some in Hy.
        rewrite length_app in Hy. simpl in Hy. lia.
    + apply IH.
      * rewrite length_app. simpl. lia.
      * by rewrite lookup_app_l.
      * intros k y Hk Hy. rewrite lookup_app_l in Hy by lia. eauto.
      * intros k y Hk Hy.
        destruct (decide (k < length pre)) as [Hkl|Hkl].
        -- rewrite lookup_app_l in Hy by lia. eauto.
        -- rewrite lookup_app_r in Hy by lia.
           destruct (k - length pre) as [|k'] eqn:Hd; simpl in Hy;
             [congruence | by destruct k'].
Qed.

Lemma argmax_ok xs best_index :
  argmax xs = Ok best_index ->
  exists fb, xs !! best_index = Some fb /\
    forall k x, k < best_index -> xs !! k = Some x -> exceeds fb x = true.
Proof.
  destruct xs as [|x xs]; simpl; [discriminate|]. intros [= <-].
  apply (argmax_from_spec xs [x] 0 x 1); try done.
  - intros k y Hk. lia.
  - intros k y Hk Hy. destruct k as [|[|k]]; [lia | done | done].
Qed.


(** ** The recorded count is the count of the recorded chromosome *)

Lemma setitem_ok {A} (l : list A) i x l' :
  setitem l i x = Ok l' <-> i < length l /\ l' = <[i:=x]> l.
Proof.
  unfold setitem. destruct (decide (i < length l)); split; intros H.
  - injection H as <-. auto.
  - destruct H as [_ ->]. reflexivity.
  - discriminate.
  - destruct H as [? _]. lia.
Qed.

Lemma inject_best_ok best bred final :
  inject_best best bred = Ok final ->
  exists c, best = Some c /\ final = <[0:=c]> bred /\ final !! 0 = Some c.
Proof.
  unfold inject_best, copy_of. destruct best as [c|]; simpl; [|discriminate].
  intros H. apply setitem_ok in H as [Hlen ->].
  exists c. repeat split. by apply list_lookup_insert_eq.
Qed.

Section BestInvariant.

Variable pieces : list Image.
Variable original_sequence : list nat.
Variable population_size : Z.
Variable mutation_rate : Q.
Variable grid_size : Z.
Variable elite_count : Z.
Variable stagnation_threshold : Z.
Hypothesis tiles_wf : Forall wf_tile pieces.

Local Abbreviation step :=
  (generation_step pieces original_sequence population_size mutation_rate
                   grid_size elite_count stagnation_threshold).
Local Abbreviation run :=
  (run_generations pieces original_sequence population_size mutation_rate
                   grid_size elite_count stagnation_threshold).
Local Abbreviation inv := (best_inv pieces original_sequence grid_size).

Lemma fitness_finite c f cp :
  calculate_fitness c pieces original_sequence grid_size = Ok (f, cp) ->
  exists q, f = Fin q.
Proof.
  intros H. apply calculate_fitness_nonneg in H as (q & -> & _); eauto.
Qed.

(** One generation: the chromosome at [best_index] is the one recorded. *)
Lemma best_inv_step st r st' r' :
  inv st -> step st r = Ok (st', r') ->
  inv st' /\
  exists fitnesses counts best_index c n,
    evaluate pieces original_sequence grid_size (population st)
    = Ok (fitnesses, counts) /\
    argmax fitnesses = Ok best_index /\
    population st !! best_index = Some c /\
    counts !! best_index = Some n /\
    global_best_chromo st' = Some c /\
    best_solutions st' = best_solutions st ++ [(c, global_best_fitness st', n)].
Proof.
  intros [Hsnaps Hbest] Hstep.
  apply generation_step_ok in Hstep as [].
  pose proof (evaluate_ok _ _ _ _ _ _ tr_evaluate) as (Hlf & Hlc & Heval).
  pose proof (argmax_ok _ _ tr_argmax) as (fb & Hfb & Hfirst).
  apply take_snapshot_ok in tr_snapshot as (c & n & -> & Hn & ->).
  apply inject_best_ok in tr_inject as (c' & [= <-] & -> & Hzero).
  assert (exists cb, population st !! best_index = Some cb) as [cb Hcb].
  { apply lookup_lt_is_Some. rewrite <- Hlf. by eapply lookup_lt_Some. }
  destruct (Heval _ _ Hcb) as (f & cp & Hfit & Hf & Hcount).
  assert (f = fb) as -> by congruence.
  assert (n = count_true cp) as -> by congruence.
  destruct (fitness_finite _ _ _ Hfit) as [qb ->].
  apply track_best_cases in tr_track as (fb' & Hfb' & Hcases).
  assert (fb' = Fin qb) as -> by congruence.
  assert (c = cb /\ best_fitness = Fin qb) as [-> ->].
  { destruct Hcases as [(_ & Hc & _ & -> & _)|(Hgt & Hc & -> & _)].
    - split; [congruence | reflexivity].
    - (* no improvement: the best index is 0, where the global best sits *)
      rewrite <- Hc in Hbest. destruct Hbest as [H0 [cp0 Hfit0]].
      destruct (Heval _ _ H0) as (f0 & cp0' & Hfit0' & Hf0 & _).
      assert (f0 = global_best_fitness st) as -> by congruence.
      destruct (fitness_finite _ _ _ Hfit0) as [q0 Hq0].
      destruct (decide (best_index = 0)) as [->|Hne].
      + split; congruence.
      + exfalso. assert (exceeds (Fin qb) (global_best_fitness st) = true) as Hex.
        { eapply Hfirst; [|exact Hf0]. lia. }
        rewrite Hq0 in Hex, Hgt. unfold exceeds, fgt in *. simpl in *. congruence. }
  subst st'. simpl. split.
  - split; simpl.
    + apply Forall_app. split; [exact Hsnaps|]. constructor; [|constructor].
      exists cp. auto.
    + split; [exact Hzero | eauto].
  - exists fitnesses, counts, best_index, cb, (count_true cp). auto 10.
Qed.

Lemma best_inv_run n st r st' r' :
  inv st -> run n st r = Ok (st', r') -> inv st'.
Proof.
  apply (run_generations_ind pieces original_sequence population_size
           mutation_rate grid_size elite_count stagnation_threshold inv).
  intros st0 r0 st1 r1 H0 Hs. by destruct (best_inv_step _ _ _ _ H0 Hs).
Qed.

Lemma best_inv_initial population : inv (initial_state population).
Proof. split; simpl; [constructor | reflexivity]. Qed.

(** Every snapshot a run returns is consistent. *)
Lemma snapshots_consistent generations r snaps :
  outcome (genetic_algorithm pieces original_sequence population_size generations
             mutation_rate grid_size elite_count stagnation_threshold) r
  = Ok snaps ->
  Forall (consistent pieces original_sequence grid_size) snaps.
Proof.
  intros H. apply outcome_ok in H as [r' H]. unfold genetic_algorithm in H.
  apply bind_ok in H as (population & r1 & _ & H).
  apply bind_ok in H as (st & r2 & Hrun & H).
  apply ret_ok in H as [-> _].
  eapply best_inv_run in Hrun; [|apply best_inv_initial]. apply Hrun.
Qed.

End BestInvariant.


(** ** Swaps, shuffles and samples *)

Lemma transpose_inj i j : Inj (=) (=) (transpose i j).
Proof.
  intros a b. unfold transpose. repeat case_decide; congruence.
Qed.

Lemma swap_ok {A} (l : list A) i j l' :
  swap l i j = Ok l' ->
  i < length l /\ j < length l /\ length l' = length l /\
  forall k, l' !! k = l !! transpose i j k.
Proof.
  unfold swap. intros H.
  apply rbind_ok in H as (xj & Hj & H2). apply rbind_ok in H2 as (xi & Hi & H3).
  apply rbind_ok in H3 as (l1 & H1 & H).
  apply getitem_ok in Hi. apply getitem_ok in Hj. apply setitem_ok in H1 as [Hil ->].
  apply setitem_ok in H. destruct H as [Hjl ->]. rewrite length_insert in Hjl.
  split; [exact Hil|]. split; [exact Hjl|]. split; [by rewrite !length_insert|].
  intros k. rewrite !list_lookup_insert, length_insert. unfold transpose.
  repeat destruct (decide _); intuition (try congruence; try lia).
Qed.

Lemma swap_total {A} (l : list A) i j :
  i < length l -> j < length l -> exists l', swap l i j = Ok l'.
Proof.
  intros Hi Hj. unfold swap, getitem, setitem.
  destruct (lookup_lt_is_Some_2 l i Hi) as [xi ->].
  destruct (lookup_lt_is_Some_2 l j Hj) as [xj ->]. simpl.
  rewrite decide_True by exact Hi. simpl.
  rewrite decide_True by (by rewrite length_insert). eauto.
Qed.

Lemma swap_perm {A} (l : list A) i j l' : swap l i j = Ok l' -> l' ≡ₚ l.
Proof.
  intros H. apply swap_ok in H as (_ & _ & Hlen & Hk).
  apply Permutation_inj. split; [exact Hlen|].
  exists (transpose i j). split; [apply transpose_inj | exact Hk].
Qed.

Lemma swap_spec {A} (l : list A) i j :
  i < length l -> j < length l ->
  rspec (swap l i j) (fun l' => l' ≡ₚ l) nothing.
Proof.
  intros Hi Hj. destruct (swap_total l i j Hi Hj) as [l' H].
  rewrite H. simpl. by eapply swap_perm.
Qed.

Lemma randbelow_spec n :
  mspec (randbelow n) (fun j => j < n) (fun e => e = ValueError /\ n = 0).
Proof.
  destruct n as [|n]; [by apply mspec_raise|].
  intros r. simpl.
  pose proof (N.mod_upper_bound (tape r (pos r)) (N.of_nat (S n))). lia.
Qed.

Lemma randbelow_pos n :
  0 < n -> mspec (randbelow n) (fun j => j < n) nothing.
Proof.
  intros Hn. eapply mspec_mono; [apply randbelow_spec | auto |].
  intros e [_ ->]. lia.
Qed.

Lemma shuffle_from_spec {A} i : forall x : list A,
  i < length x \/ i = 0 ->
  mspec (shuffle_from i x) (fun y => y ≡ₚ x) nothing.
Proof.
  induction i as [|i IH]; intros x Hi; cbn [shuffle_from]; [by apply mspec_ret|].
  destruct Hi as [Hi|]; [|lia].
  eapply mspec_bind; [apply randbelow_pos; lia|]. intros j Hj. simpl in Hj.
  eapply mspec_bind; [apply mspec_lift, swap_spec; lia|]. intros x' Hx'.
  eapply mspec_mono; [apply IH | | auto].
  - rewrite Hx'. lia.
  - intros y Hy. by rewrite Hy.
Qed.

Lemma shuffle_spec {A} (x : list A) :
  mspec (shuffle x) (fun y => y ≡ₚ x) nothing.
Proof.
  apply shuffle_from_spec. destruct x; simpl; lia.
Qed.

(** A chromosome is created as a permutation of the tile ids, whatever the
    generator draws. *)
Lemma create_chromosome_spec pieces :
  mspec (create_chromosome pieces) (is_permutation (length pieces)) nothing.
Proof. apply shuffle_spec. Qed.

Lemma sample_pool_spec {A} k : forall pool : list A,
  k <= length pool ->
  mspec (sample_pool k pool)
        (fun s => length s = k /\ exists rest, pool ≡ₚ s ++ rest) nothing.
Proof.
  induction k as [|k IH]; intros pool Hk; cbn [sample_pool].
  - apply mspec_ret. split; [reflexivity|]. by exists pool.
  - eapply mspec_bind; [apply randbelow_pos; lia|]. intros j Hj. simpl in Hj.
    destruct (lookup_lt_is_Some_2 pool j Hj) as [x Hx].
    unfold getitem. rewrite Hx.
    eapply mspec_bind with (Q := fun y => y = x); [by apply mspec_lift|].
    intros ? ->. rewrite <- delete_take_drop.
    eapply mspec_bind.
    { apply IH. rewrite length_delete by eauto. lia. }
    intros s [Hlen [rest Hrest]]. apply mspec_ret. simpl.
    split; [by rewrite Hlen|]. exists rest.
    rewrite (delete_Permutation pool j x Hx). by rewrite Hrest.
Qed.

Lemma sample_spec {A} (population : list A) k :
  mspec (sample population k)
        (fun s => length s = k /\ exists rest, population ≡ₚ s ++ rest)
        (fun e => e = ValueError /\ length population < k).
Proof.
  unfold sample. destruct (decide (k <= length population)).
  - eapply mspec_mono; [by apply sample_pool_spec | auto | intros _ []].
  - apply mspec_raise. split; [reflexivity | lia].
Qed.

(** ** mutate *)

Lemma mutate_spec c mutation_rate :
  mspec (mutate c mutation_rate) (fun c' => c' ≡ₚ c) nothing.
Proof.
  unfold mutate.
  apply (mfold_spec (mutate_step mutation_rate) (fun c' => c' ≡ₚ c)
                    nothing (seq 0 (length c)) c); [|reflexivity].
  intros c' i Hc' Hi. apply elem_of_seq in Hi. unfold mutate_step.
  eapply mspec_bind with (Q := anything); [by intros r|]. intros u _.
  destruct (Qltb u mutation_rate); [|by apply mspec_ret].
  assert (length c' = length c) as Hlen by by rewrite Hc'.
  eapply mspec_bind; [apply randbelow_pos; lia|]. intros j Hj. simpl in Hj.
  apply mspec_lift. eapply rspec_mono; [apply swap_spec; lia | | auto].
  intros c'' Hc''. simpl in Hc''. by rewrite Hc''.
Qed.

(** ** tournament_selection *)

Lemma max_from_elem best items :
  max_from best items = best \/ max_from best items ∈ items.
Proof.
  revert best. induction items as [|x items IH]; intros best; simpl; [auto|].
  destruct (IH (if fgt x.2 best.2 then x else best)) as [->|H].
  - destruct (fgt x.2 best.2); [right; left | auto].
  - right. by right.
Qed.

Lemma py_max_elem items x : py_max items = Ok x -> x ∈ items.
Proof.
  destruct items as [|y items]; simpl; [discriminate|]. intros [= <-].
  destruct (max_from_elem y items) as [->|H]; [left | by right].
Qed.

Lemma tournament_selection_spec population fitnesses k :
  mspec (tournament_selection population fitnesses k)
        (fun c => c ∈ population)
        (fun e => e = ValueError /\
                  (k = 0 \/ length population < k \/ length fitnesses < k)).
Proof.
  unfold tournament_selection.
  eapply mspec_bind.
  { eapply mspec_mono; [apply sample_spec | intros s Hs; exact Hs |].
    intros e [-> He]. split; [reflexivity|]. right.
    rewrite length_zip in He. lia. }
  intros s [Hlen [rest Hrest]].
  destruct (py_max s) as [w|e] eqn:Hw.
  - apply py_max_elem in Hw.
    eapply mspec_bind with (Q := fun y => y = w); [by apply mspec_lift|].
    intros ? ->. apply mspec_ret.
    assert (w ∈ zip population fitnesses) as Hin.
    { rewrite Hrest. apply elem_of_app. by left. }
    destruct w as [c f]. by eapply elem_of_zip_l.
  - intros r. simpl. destruct s; simpl in Hw; [|discriminate].
    injection Hw as <-. simpl in Hlen. auto.
Qed.


(** ** Ordered crossover *)

Lemma foldR_app {A S} (f : S -> A -> result S) s l1 l2 :
  foldR f s (l1 ++ l2) = rbind (foldR f s l1) (fun s' => foldR f s' l2).
Proof.
  revert s. induction l1 as [|a l1 IH]; intros s; simpl; [reflexivity|].
  destruct (f s a); simpl; [apply IH | reflexivity].
Qed.

Lemma genes_fmap l : genes (Some <$> l) = Ok l.
Proof.
  unfold genes. induction l as [|g l IH]; [reflexivity|].
  rewrite fmap_cons. cbn [mapR rbind]. by rewrite IH.
Qed.

Lemma filter_ext_elem {A} (P Q : A -> Prop)
    `{forall x, Decision (P x)} `{forall x, Decision (Q x)} (l : list A) :
  (forall x, x ∈ l -> P x <-> Q x) -> filter P l = filter Q l.
Proof.
  induction l as [|a l IH]; intros Hext; [reflexivity|].
  rewrite !filter_cons.
  rewrite IH by (intros x Hx; apply Hext; by right).
  destruct (decide (P a)) as [HP|HP], (decide (Q a)) as [HQ|HQ];
    try reflexivity; exfalso; apply (Hext a (list_elem_of_here _ _)) in HP
    || (apply HP, (Hext a (list_elem_of_here _ _))); tauto.
Qed.

(** The [while] loop stops at the first gene of [rest] that is not in the
    child. *)
Lemma skip_present_ok child : forall rest p2_index g rem,
  filter (fun x => Some x ∉ child) rest = g :: rem ->
  exists k,
    skip_present rest child p2_index = Ok (p2_index + k) /\
    rest !! k = Some g /\
    filter (fun x => Some x ∉ child) (drop (S k) rest) = rem.
Proof.
  induction rest as [|x rest IH]; intros p2_index g rem Hf; [discriminate|].
  rewrite filter_cons in Hf. simpl.
  destruct (decide (Some x ∉ child)) as [Hx|Hx].
  - injection Hf as -> <-. exists 0.
    rewrite bool_decide_eq_false_2 by exact Hx.
    rewrite Nat.add_0_r. auto.
  - rewrite bool_decide_eq_true_2 by (by apply dec_stable).
    destruct (IH (S p2_index) g rem Hf) as (k & Hk & Hg & Hrem).
    exists (S k). rewrite Hk. split; [f_equal; lia | auto].
Qed.

Section Fill.

Variable parent2 : chromosome.
Variable post : list (option nat).

(** Filling a gap of [z] empty slots between [pre] and [post] with the
    next [z] genes of [parent2] that the child does not hold yet. *)
Lemma fill_gap z : forall pre p2_index rem,
  filter (fun g => Some g ∉ pre ++ post) (drop p2_index parent2) = rem ->
  z <= length rem ->
  NoDup (drop p2_index parent2) ->
  exists p2_index',
    foldR (fill_step parent2) (pre ++ replicate z None ++ post, p2_index)
          (seq (length pre) z)
    = Ok ((pre ++ (Some <$> take z rem)) ++ post, p2_index') /\
    filter (fun g => Some g ∉ (pre ++ (Some <$> take z rem)) ++ post)
           (drop p2_index' parent2) = drop z rem /\
    NoDup (drop p2_index' parent2).
Proof.
  induction z as [|z IH]; intros pre p2_index rem Hrem Hz Hnd.
  - exists p2_index. simpl. rewrite !app_nil_r. auto.
  - destruct rem as [|g rem]; [simpl in Hz; lia|].
    set (child := pre ++ replicate (S z) None ++ post).
    assert (forall x, Some x ∉ child <-> Some x ∉ pre ++ post) as Hmem.
    { intros x. unfold child. rewrite !elem_of_app, elem_of_replicate.
      intuition congruence. }
    assert (filter (fun x => Some x ∉ child) (drop p2_index parent2) = g :: rem)
      as Hf.
    { rewrite <- Hrem. apply filter_ext_elem. intros x _. apply Hmem. }
    destruct (skip_present_ok child _ p2_index g rem Hf) as (k & Hk & Hg & Hrest).
    rewrite lookup_drop in Hg. rewrite drop_drop in Hrest.
    assert (g ∉ drop (S (p2_index + k)) parent2) as Hfresh.
    { intros Hin. apply list_elem_of_lookup in Hin as [j Hj].
      rewrite lookup_drop in Hj.
      assert (k = S k + j) as Heq; [|lia].
      eapply (NoDup_lookup _ _ _ g Hnd); rewrite lookup_drop.
      - exact Hg.
      - rewrite <- Hj. f_equal. lia. }
    destruct (IH (pre ++ [Some g]) (S (p2_index + k)) rem) as (p' & Hfold & Hfil & Hnd').
    { replace (p2_index + S k) with (S (p2_index + k)) in Hrest by lia.
      rewrite <- Hrest. apply filter_ext_elem. intros x Hx.
      rewrite Hmem, !not_elem_of_app, list_elem_of_singleton.
      split; [tauto|]. intros [H1 H2]. repeat split; try tauto.
      intros [= ->]. contradiction. }
    { simpl in Hz. lia. }
    { replace (S (p2_index + k)) with (p2_index + S k) by lia.
      rewrite <- drop_drop. eapply sublist_NoDup; [exact Hnd | apply sublist_drop]. }
    exists p'. rewrite length_app in Hfold. simpl in Hfold.
    rewrite Nat.add_1_r in Hfold.
    replace ((pre ++ [Some g]) ++ (Some <$> take z rem))
      with (pre ++ (Some <$> take (S z) (g :: rem))) in Hfold, Hfil
      by (by rewrite <- app_assoc).
    split; [|split; [exact Hfil | exact Hnd']].
    cbn [seq foldR]. unfold fill_step at 1. fold child.
    assert (getitem child (length pre) = Ok None) as ->.
    { apply getitem_ok. unfold child.
      rewrite lookup_app_r by lia. by rewrite Nat.sub_diag. }
    cbn [rbind]. rewrite Hk. cbn [rbind].
    assert (getitem parent2 (p2_index + k) = Ok g) as -> by by apply getitem_ok.
    cbn [rbind].
    assert (setitem child (length pre) (Some g)
            = Ok ((pre ++ [Some g]) ++ replicate z None ++ post)) as ->.
    { apply setitem_ok. unfold child. split.
      - rewrite !length_app. simpl. lia.
      - rewrite <- (Nat.add_0_r (length pre)) at 1.
        rewrite insert_app_r. simpl. by rewrite <- app_assoc. }
    cbn [rbind]. exact Hfold.
Qed.

End Fill.

(** Slots that are already taken are left alone. *)
Lemma fill_taken parent2 mid : forall pre post p2_index,
  foldR (fill_step parent2) (pre ++ (Some <$> mid) ++ post, p2_index)
        (seq (length pre) (length mid))
  = Ok (pre ++ (Some <$> mid) ++ post, p2_index).
Proof.
  induction mid as [|g mid IH]; intros pre post p2_index; [reflexivity|].
  cbn [length seq foldR]. unfold fill_step at 1.
  assert (getitem (pre ++ (Some <$> g :: mid) ++ post) (length pre) = Ok (Some g))
    as ->.
  { apply getitem_ok. rewrite lookup_app_r by lia. by rewrite Nat.sub_diag. }
  cbn [rbind].
  specialize (IH (pre ++ [Some g]) post p2_index).
  rewrite length_app, Nat.add_1_r in IH. simpl in IH.
  rewrite <- !app_assoc in IH. exact IH.
Qed.

Section CrossoverAt.

Variable parent1 parent2 : chromosome.
Variable start end_ : nat.
Hypothesis parent1_nodup : NoDup parent1.
Hypothesis same_genes : parent1 ≡ₚ parent2.
Hypothesis cuts : start <= end_ < length parent1.

Local Abbreviation size := (length parent1).
Local Abbreviation kept := (slice parent1 start (end_ + 1)).
Local Abbreviation others := (filter (fun g => g ∉ kept) parent2).

Lemma kept_length : length kept = end_ + 1 - start.
Proof. unfold slice. rewrite length_take, length_drop. lia. Qed.

Lemma kept_nodup : NoDup kept.
Proof.
  unfold slice. eapply sublist_NoDup; [exact parent1_nodup|].
  etrans; [apply sublist_take | apply sublist_drop].
Qed.

Lemma kept_in_parent2 g : g ∈ kept -> g ∈ parent2.
Proof.
  intros Hg. rewrite <- same_genes. unfold slice in Hg.
  eapply elem_of_sublist; [exact Hg|].
  etrans; [apply sublist_take | apply sublist_drop].
Qed.

Lemma parent2_nodup : NoDup parent2.
Proof. by rewrite <- same_genes. Qed.

Lemma kept_others_perm : kept ++ others ≡ₚ parent2.
Proof.
  etrans; [|apply (filter_app_complement (fun g => g ∈ kept) parent2)].
  apply Permutation_app; [|reflexivity].
  apply NoDup_Permutation.
  - apply kept_nodup.
  - apply NoDup_filter, parent2_nodup.
  - intros g. rewrite list_elem_of_filter. split; [|tauto].
    intros Hg. split; [exact Hg | by apply kept_in_parent2].
Qed.

Lemma others_length : length others = size - (end_ + 1 - start).
Proof.
  pose proof (Permutation_length kept_others_perm) as H.
  rewrite length_app, kept_length in H.
  rewrite (Permutation_length same_genes). lia.
Qed.

(** The child of the specification is a permutation of the parents'
    genes. *)
Lemma ox_child_perm : ox_child start end_ parent1 parent2 ≡ₚ parent2.
Proof.
  unfold ox_child. rewrite <- kept_others_perm at 3.
  rewrite (Permutation_app_comm (take start others)), <- app_assoc.
  apply Permutation_app; [reflexivity|].
  rewrite Permutation_app_comm. by rewrite take_drop.
Qed.

(** The loop of [crossover] computes the child of the specification. *)
Lemma crossover_at_ok :
  crossover_at start end_ parent1 parent2
  = Ok (ox_child start end_ parent1 parent2).
Proof.
  pose proof kept_length as Hkept. pose proof others_length as Hothers.
  set (z2 := size - (end_ + 1)).
  unfold crossover_at.
  assert (set_slice (replicate size None) start (end_ + 1) (Some <$> kept)
          = [] ++ replicate start None ++ ((Some <$> kept) ++ replicate z2 None))
    as ->.
  { unfold set_slice. rewrite take_replicate, drop_replicate. simpl.
    f_equal; [f_equal; lia|]. f_equal. f_equal. unfold z2. lia. }
  assert (seq 0 size
          = seq 0 start ++ seq start (end_ + 1 - start) ++ seq (end_ + 1) z2)
    as ->.
  { replace size with (start + ((end_ + 1 - start) + z2)) by (unfold z2; lia).
    rewrite seq_app, Nat.add_0_l, seq_app. do 3 f_equal. lia. }
  (* before the slice *)
  destruct (fill_gap parent2 ((Some <$> kept) ++ replicate z2 None) start [] 0
              others) as (pA & HA & HfA & HndA).
  { rewrite drop_0. apply filter_ext_elem. intros g _.
    rewrite app_nil_l, not_elem_of_app, elem_of_replicate, list_elem_of_fmap.
    split.
    - intros [H _] Hg. apply H. eauto.
    - intros H. split; [|intros [[=] _]]. intros (g' & [= <-] & Hg'). auto. }
  { lia. }
  { rewrite drop_0. apply parent2_nodup. }
  rewrite foldR_app. simpl length in HA. rewrite HA. cbn [rbind].
  (* the slice *)
  rewrite app_nil_l in HfA |- *.
  rewrite foldR_app.
  assert (length (Some <$> take start others) = start) as HlenA
    by (rewrite length_fmap, length_take; lia).
  pose proof (fill_taken parent2 kept (Some <$> take start others)
                (replicate z2 None) pA) as HB.
  rewrite HlenA, Hkept in HB. rewrite HB. cbn [rbind].
  (* after the slice *)
  destruct (fill_gap parent2 [] z2 ((Some <$> take start others) ++ (Some <$> kept))
              pA (drop start others)) as (pC & HC & _ & _).
  { rewrite <- HfA. apply filter_ext_elem. intros g _.
    rewrite app_nil_r, !not_elem_of_app, elem_of_replicate.
    split; [|tauto]. intros [H1 H2]. repeat split; try tauto. intros [[=] _]. }
  { rewrite length_drop. unfold z2. lia. }
  { exact HndA. }
  rewrite length_app, HlenA, length_fmap, Hkept in HC.
  replace (start + (end_ + 1 - start)) with (end_ + 1) in HC by lia.
  rewrite !app_nil_r, <- !app_assoc in HC.
  rewrite HC. cbn [rbind fst].
  rewrite <- !fmap_app, genes_fmap. f_equal.
  unfold ox_child. do 2 f_equal.
  apply take_ge. rewrite length_drop. unfold z2. lia.
Qed.

End CrossoverAt.

Lemma is_permutation_nodup n c : is_permutation n c -> NoDup c.
Proof. intros H. rewrite H. apply NoDup_seq. Qed.

Lemma is_permutation_length n c : is_permutation n c -> length c = n.
Proof. intros H. rewrite H. apply length_seq. Qed.

Lemma crossover_at_ordered n parent1 parent2 start end_ :
  is_permutation n parent1 -> is_permutation n parent2 ->
  start <= end_ < n ->
  exists child,
    crossover_at start end_ parent1 parent2 = Ok child /\
    ordered_child n start end_ parent1 parent2 child.
Proof.
  intros H1 H2 Hcuts.
  pose proof (is_permutation_nodup _ _ H1) as Hnd.
  pose proof (is_permutation_length _ _ H1) as Hlen.
  assert (parent1 ≡ₚ parent2) as Hsame by (by rewrite H1, H2).
  rewrite <- Hlen in Hcuts.
  exists (ox_child start end_ parent1 parent2).
  split; [by apply crossover_at_ok|].
  pose proof (kept_length parent1 start end_ Hcuts) as Hk.
  pose proof (others_length parent1 parent2 start end_ Hnd Hsame Hcuts) as Ho.
  pose proof (ox_child_perm parent1 parent2 start end_ Hnd Hsame Hcuts) as Hp.
  assert (is_permutation n (ox_child start end_ parent1 parent2)) as Hperm
    by (unfold is_permutation; by rewrite Hp).
  pose proof (is_permutation_length _ _ Hperm) as Hlen'.
  set (kept := slice parent1 start (end_ + 1)) in *.
  set (others := filter (fun g => g ∉ kept) parent2) in *.
  assert (length (take start others) = start) as Ht
    by (rewrite length_take; lia).
  unfold ordered_child, ox_child. cbv zeta. fold kept others. repeat split.
  - intros i Hi. rewrite lookup_app_r by lia. rewrite Ht.
    rewrite lookup_app_l by lia. unfold kept, slice.
    rewrite lookup_take_lt by lia. rewrite lookup_drop. f_equal. lia.
  - rewrite take_app_length' by done.
    rewrite (app_assoc (take start others)).
    rewrite drop_app_length' by (rewrite length_app; lia).
    apply take_drop.
  - exact Hperm.
  - exact Hlen'.
Qed.

Lemma sample_two_distinct n :
  mspec (sample (seq 0 n) 2)
        (fun s => exists a b, s = [a; b] /\ a < n /\ b < n /\ a <> b)
        (fun e => e = ValueError /\ n < 2).
Proof.
  eapply mspec_mono; [apply sample_spec | | intros e He; by rewrite length_seq in He].
  intros s [Hlen [rest Hrest]].
  destruct s as [|a [|b [|]]]; try discriminate. exists a, b.
  assert (NoDup ([a; b] ++ rest)) as Hnd by (rewrite <- Hrest; apply NoDup_seq).
  assert (forall x, x ∈ [a; b] -> x < n) as Hin.
  { intros x Hx. assert (x ∈ seq 0 n) as Hs.
    { rewrite Hrest. apply elem_of_app. by left. }
    apply elem_of_seq in Hs. lia. }
  split; [reflexivity|]. split; [apply Hin; left|].
  split; [apply Hin; right; left|].
  apply NoDup_app in Hnd as [Hnd _]. apply NoDup_cons in Hnd as [Hnd _].
  intros ->. apply Hnd. left.
Qed.

Lemma crossover_spec n parent1 parent2 :
  is_permutation n parent1 -> is_permutation n parent2 ->
  mspec (crossover parent1 parent2)
        (fun child => exists a b,
             a < n /\ b < n /\ a <> b /\
             crossover_at (a `min` b) (a `max` b) parent1 parent2 = Ok child /\
             is_permutation n child)
        (fun e => e = ValueError /\ n < 2).
Proof.
  intros H1 H2. unfold crossover.
  rewrite (is_permutation_length _ _ H1).
  eapply mspec_bind; [apply sample_two_distinct|].
  intros s (a & b & -> & Ha & Hb & Hab).
  destruct (crossover_at_ordered n parent1 parent2 (a `min` b) (a `max` b) H1 H2)
    as (child & Hchild & _ & _ & Hperm & _); [lia|].
  rewrite Hchild. apply mspec_lift. simpl. exists a, b. auto 10.
Qed.

(** C5.  For permutations [parent1] and [parent2] of [0..n-1]: with any two
    distinct cut points, sorted into [start < end_], the loop of
    [crossover] returns a child that agrees with [parent1] on
    [start..end_], whose other positions hold, in order, the genes of
    [parent2] that are not in that slice, and that is a permutation of
    [0..n-1] of length [n]; and when [n >= 2], [crossover] itself returns,
    for every state of the generator, the child of two such cut points. *)
Theorem crossover_closure n parent1 parent2 :
  is_permutation n parent1 -> is_permutation n parent2 ->
  (forall a b, a < n -> b < n -> a <> b ->
     exists child,
       crossover_at (a `min` b) (a `max` b) parent1 parent2 = Ok child /\
       ordered_child n (a `min` b) (a `max` b) parent1 parent2 child) /\
  (2 <= n -> forall r,
     exists a b child,
       a < n /\ b < n /\ a <> b /\
       outcome (crossover parent1 parent2) r = Ok child /\
       crossover_at (a `min` b) (a `max` b) parent1 parent2 = Ok child).
Proof.
  intros H1 H2. split.
  - intros a b Ha Hb Hab. apply crossover_at_ordered; [done | done | lia].
  - intros Hn r. pose proof (crossover_spec n parent1 parent2 H1 H2 r) as H.
    unfold outcome. destruct (crossover parent1 parent2 r) as [[child r']|e];
      simpl in H.
    + destruct H as (a & b & Ha & Hb & Hab & Hat & _). exists a, b, child. auto 10.
    + destruct H as [_ H]. lia.
Qed.

(** Two permutations of [0..3] crossed at cut points 3 and 1, and by the
    generator. *)
Lemma crossover_closure_witness :
  (exists child,
     crossover_at 1 3 demo_parent1 demo_parent2 = Ok child /\
     ordered_child 4 1 3 demo_parent1 demo_parent2 child) /\
  (exists a b child,
     a < 4 /\ b < 4 /\ a <> b /\
     outcome (crossover demo_parent1 demo_parent2) (demo_rng 1) = Ok child /\
     crossover_at (a `min` b) (a `max` b) demo_parent1 demo_parent2 = Ok child).
Proof.
  assert (is_permutation 4 demo_parent1) as H1.
  { apply (bool_decide_unpack _). vm_compute. exact I. }
  assert (is_permutation 4 demo_parent2) as H2.
  { apply (bool_decide_unpack _). vm_compute. exact I. }
  pose proof (crossover_closure 4 demo_parent1 demo_parent2 H1 H2) as [Hat Hr].
  split.
  - apply (Hat 3 1); lia.
  - apply Hr. lia.
Defined.


(** ** The permutation invariant *)

Lemma sorted_desc_perm pairs : sorted_desc pairs ≡ₚ pairs.
Proof.
  assert (forall x l, insert_desc x l ≡ₚ x :: l) as Hins.
  { intros x l. induction l as [|y l IH]; simpl; [reflexivity|].
    destruct (flt x.1 y.1); [|reflexivity].
    rewrite IH. apply Permutation_swap. }
  unfold sorted_desc. induction pairs as [|x pairs IH]; simpl; [reflexivity|].
  by rewrite Hins, IH.
Qed.

Lemma slice_to_sublist {A} (l : list A) e : slice_to l e `sublist_of` l.
Proof. unfold slice_to. destruct (decide _); apply sublist_take. Qed.

Lemma elites_elem elite_count fitnesses population c :
  c ∈ elites elite_count fitnesses population -> c ∈ population.
Proof.
  unfold elites. intros H.
  eapply elem_of_sublist in H; [|apply slice_to_sublist].
  apply list_elem_of_fmap in H as ([f c'] & -> & H).
  rewrite sorted_desc_perm in H. by eapply elem_of_zip_r.
Qed.

Lemma elites_length elite_count fitnesses population :
  length (elites elite_count fitnesses population) <= length population.
Proof.
  unfold elites. etrans; [apply sublist_length, slice_to_sublist|].
  rewrite length_fmap, sorted_desc_perm, length_zip. lia.
Qed.

Section Permutations.

Variable pieces : list Image.
Variable original_sequence : list nat.
Variable population_size : Z.
Variable mutation_rate : Q.
Variable grid_size : Z.
Variable elite_count : Z.
Variable stagnation_threshold : Z.

Local Abbreviation N := (length pieces).
Local Abbreviation perm := (is_permutation (length pieces)).
Local Abbreviation step :=
  (generation_step pieces original_sequence population_size mutation_rate
                   grid_size elite_count stagnation_threshold).
Local Abbreviation run :=
  (run_generations pieces original_sequence population_size mutation_rate
                   grid_size elite_count stagnation_threshold).

Lemma initial_population_spec :
  mspec (initial_population pieces population_size)
        (fun population => Forall perm population /\
                           length population = Z.to_nat population_size)
        nothing.
Proof.
  unfold initial_population.
  eapply mspec_mono
    with (Q := Forall2 (fun _ c => perm c) (range population_size))
         (E := nothing).
  - apply mmap_spec. intros _ _. apply create_chromosome_spec.
  - intros population H. split.
    + by eapply Forall2_Forall_r; [exact H | apply Forall_true].
    + apply Forall2_length in H. unfold range in H. by rewrite length_seq in H.
  - auto.
Qed.

Lemma setitem_back_ok {A} (l : list A) k x l' :
  setitem_back l k x = Ok l' -> l' = <[length l - k:=x]> l.
Proof.
  unfold setitem_back. destruct (decide _); [|discriminate].
  intros H. by apply setitem_ok in H as [_ ->].
Qed.

Lemma diversify_spec population stagnation :
  Forall perm population ->
  mspec (diversify pieces population_size stagnation_threshold population stagnation)
        (fun ps => Forall perm ps.1 /\ length ps.1 = length population)
        anything.
Proof.
  intros Hpop. unfold diversify. destruct (decide _); [|by apply mspec_ret].
  eapply mspec_bind; [|intros p Hp; apply mspec_ret; exact Hp].
  apply (mfold_spec _ (fun p => Forall perm p /\ length p = length population));
    [|auto].
  intros p i [Hp Hlen] _.
  eapply mspec_bind with (Q := perm).
  { eapply mspec_mono; [apply create_chromosome_spec | auto | intros _ []]. }
  intros c Hc. apply mspec_lift.
  destruct (setitem_back p (i + 1) c) as [p'|] eqn:Hset; simpl; [|done].
  apply setitem_back_ok in Hset as ->.
  split; [by apply Forall_insert | by rewrite length_insert].
Qed.

Lemma breed_spec fitnesses population :
  Forall perm population ->
  mspec (breed mutation_rate fitnesses population) perm anything.
Proof.
  intros Hpop. rewrite Forall_forall in Hpop. unfold breed.
  eapply mspec_bind with (Q := perm).
  { eapply mspec_mono; [apply tournament_selection_spec | | done].
    intros c Hc. exact (Hpop c Hc). }
  intros parent1 H1. eapply mspec_bind with (Q := perm).
  { eapply mspec_mono; [apply tournament_selection_spec | | done].
    intros c Hc. exact (Hpop c Hc). }
  intros parent2 H2. eapply mspec_bind with (Q := perm).
  { eapply mspec_mono; [by apply (crossover_spec N) | | done].
    intros c (_ & _ & _ & _ & _ & _ & Hc). exact Hc. }
  intros child Hchild.
  eapply mspec_mono; [apply mutate_spec | | done].
  intros c Hc. unfold is_permutation in *. by rewrite Hc.
Qed.

Lemma reproduce_spec fitnesses population new_population :
  Forall perm population -> Forall perm new_population ->
  mspec (reproduce population_size mutation_rate fitnesses population
                   new_population)
        (Forall perm) anything.
Proof.
  intros Hpop Hnew. unfold reproduce.
  apply (mfold_spec _ (Forall perm)); [|exact Hnew].
  intros p _ Hp _. eapply mspec_bind with (Q := perm); [by apply breed_spec|].
  intros child Hchild. apply mspec_ret. apply Forall_app. split; [exact Hp|].
  by constructor.
Qed.

Lemma perm_inv_step st r st' r' :
  perm_inv N st -> step st r = Ok (st', r') -> perm_inv N st'.
Proof.
  intros (Hpop & Hbest & Hsnaps) Hstep.
  apply generation_step_ok in Hstep as [].
  assert (forall c, best = Some c -> perm c) as Hbest'.
  { apply track_best_cases in tr_track as (fb & _ & Hcases).
    destruct Hcases as [(_ & -> & _)|(_ & -> & _)]; [|exact Hbest].
    intros c Hc. rewrite Forall_forall in Hpop. apply Hpop.
    by eapply list_elem_of_lookup_2. }
  apply take_snapshot_ok in tr_snapshot as (c & n & -> & _ & ->).
  apply inject_best_ok in tr_inject as (c' & [= <-] & -> & _).
  pose proof (mspec_ok _ _ _ _ _ _ (diversify_spec _ stagnation Hpop) tr_diversify)
    as [Hdiv _]. simpl in Hdiv.
  assert (Forall perm (elites elite_count fitnesses diversified)) as Helite.
  { apply Forall_forall. intros e He. apply elites_elem in He.
    rewrite Forall_forall in Hdiv. by apply Hdiv. }
  pose proof (mspec_ok _ _ _ _ _ _
                (reproduce_spec fitnesses _ _ Hdiv Helite) tr_reproduce) as Hbred.
  subst st'. split; [|split]; simpl.
  - apply Forall_insert; [exact Hbred | by apply Hbest'].
  - exact Hbest'.
  - apply Forall_app. split; [exact Hsnaps|]. constructor; [|constructor].
    by apply Hbest'.
Qed.

Lemma perm_inv_run n st r st' r' :
  perm_inv N st -> run n st r = Ok (st', r') -> perm_inv N st'.
Proof.
  apply (run_generations_ind pieces original_sequence population_size
           mutation_rate grid_size elite_count stagnation_threshold (perm_inv N)).
  intros. eapply perm_inv_step; eauto.
Qed.

Lemma perm_inv_after n r st :
  outcome (state_after pieces original_sequence population_size mutation_rate
             grid_size elite_count stagnation_threshold n) r = Ok st ->
  perm_inv N st.
Proof.
  intros H. apply outcome_ok in H as [r' H]. unfold state_after in H.
  apply bind_ok in H as (population & r1 & Hinit & Hrun).
  eapply perm_inv_run; [|exact Hrun].
  pose proof (mspec_ok _ _ _ _ _ _ initial_population_spec Hinit) as [Hpop _].
  split; [exact Hpop|]. split; [discriminate | constructor].
Qed.

End Permutations.


(** ** The grid and the tiles of split_image *)

Lemma row_cells (i n a : nat) :
  (seq a n ≫= fun j => [(i, j)]) = (fun j => (i, j)) <$> seq a n.
Proof.
  revert a. induction n as [|n IH]; intros a; [reflexivity|].
  simpl. by rewrite IH.
Qed.

Lemma cells_rows (n : nat) :
  cells n = seq 0 n ≫= fun i => (fun j => (i, j)) <$> seq 0 n.
Proof.
  unfold cells.
  assert (forall m a,
            (seq a m ≫= fun i => seq 0 n ≫= fun j => [(i, j)])
            = seq a m ≫= fun i => (fun j => (i, j)) <$> seq 0 n) as H.
  { induction m as [|m IH]; intros a; [reflexivity|].
    simpl. by rewrite row_cells, IH. }
  apply H.
Qed.

Lemma rows_lookup n m : forall a k j,
  k < m -> j < n ->
  (seq a m ≫= fun i => (fun j => (i, j)) <$> seq 0 n) !! (k * n + j) = Some (a + k, j).
Proof.
  induction m as [|m IH]; intros a k j Hk Hj; [lia|].
  simpl. destruct k as [|k].
  - rewrite lookup_app_l by (by rewrite length_fmap, length_seq).
    rewrite list_lookup_fmap, lookup_seq_lt by done. simpl.
    by rewrite Nat.add_0_r.
  - rewrite lookup_app_r by (rewrite length_fmap, length_seq; lia).
    rewrite length_fmap, length_seq.
    replace (S k * n + j - n) with (k * n + j) by lia.
    rewrite IH by lia. f_equal. f_equal. lia.
Qed.

Lemma rows_length n m a :
  length (seq a m ≫= fun i => (fun j => (i, j)) <$> seq 0 n) = m * n.
Proof.
  revert a. induction m as [|m IH]; intros a; [reflexivity|].
  simpl. rewrite length_app, length_fmap, length_seq, IH. lia.
Qed.

Lemma rows_index n m a :
  (fun '(i, j) => i * n + j) <$> (seq a m ≫= fun i => (fun j => (i, j)) <$> seq 0 n)
  = seq (a * n) (m * n).
Proof.
  revert a. induction m as [|m IH]; intros a; [reflexivity|].
  simpl. rewrite fmap_app, IH, seq_app. f_equal.
  - rewrite <- list_fmap_compose.
    transitivity (Nat.add (a * n) <$> seq 0 n); [reflexivity|].
    rewrite fmap_add_seq. f_equal. lia.
  - f_equal. lia.
Qed.

Lemma cells_lookup n i j :
  i < n -> j < n -> cells n !! (i * n + j) = Some (i, j).
Proof. intros Hi Hj. rewrite cells_rows. by rewrite rows_lookup. Qed.

Lemma cells_length n : length (cells n) = n * n.
Proof. rewrite cells_rows. apply rows_length. Qed.

Lemma cells_index n :
  (fun '(i, j) => i * n + j) <$> cells n = seq 0 (n * n).
Proof. rewrite cells_rows. apply rows_index. Qed.

Lemma cells_elem n i j : (i, j) ∈ cells n -> i < n /\ j < n.
Proof.
  rewrite cells_rows. intros H. apply list_elem_of_bind in H as (i' & H & Hi).
  apply list_elem_of_fmap in H as (j' & [= -> ->] & Hj).
  apply elem_of_seq in Hi, Hj. lia.
Qed.

(** [split_image] returns [grid_size]² tiles and the identity as the
    reference arrangement. *)
Lemma split_image_ok resample image grid_size pieces original_sequence :
  split_image resample image grid_size = Ok (pieces, original_sequence) ->
  length pieces = Z.to_nat grid_size * Z.to_nat grid_size /\
  original_sequence = seq 0 (length pieces).
Proof.
  unfold split_image. destruct (decide _); [discriminate|]. intros H.
  apply rbind_ok in H as (resized & _ & H). injection H as <- <-.
  rewrite length_fmap, cells_length. split; [reflexivity|].
  apply cells_index.
Qed.


(** ** Runs *)

Lemma genetic_algorithm_ok pieces original_sequence population_size generations
    mutation_rate grid_size elite_count stagnation_threshold r snaps :
  outcome (genetic_algorithm pieces original_sequence population_size generations
             mutation_rate grid_size elite_count stagnation_threshold) r
  = Ok snaps ->
  exists st,
    outcome (state_after pieces original_sequence population_size mutation_rate
               grid_size elite_count stagnation_threshold
               (Z.to_nat generations)) r = Ok st /\
    snaps = best_solutions st.
Proof.
  intros H. apply outcome_ok in H as [r' H]. unfold genetic_algorithm in H.
  apply bind_ok in H as (population & r1 & Hinit & H).
  apply bind_ok in H as (st & r2 & Hrun & H). apply ret_ok in H as [-> _].
  exists st. split; [|reflexivity].
  unfold outcome, state_after, bind. by rewrite Hinit, Hrun.
Qed.

Lemma best_inv_after pieces original_sequence population_size mutation_rate
    grid_size elite_count stagnation_threshold n r st r' :
  Forall wf_tile pieces ->
  state_after pieces original_sequence population_size mutation_rate grid_size
              elite_count stagnation_threshold n r = Ok (st, r') ->
  best_inv pieces original_sequence grid_size st.
Proof.
  intros Hwf H. unfold state_after in H.
  apply bind_ok in H as (population & r1 & _ & Hrun).
  eapply best_inv_run; [exact Hwf | apply best_inv_initial | exact Hrun].
Qed.

(** C4.  With [n] tiles: [create_chromosome] (the initial chromosomes and
    the diversification replacements) always returns a permutation of
    [0..n-1]; a crossover child of two permutations is a permutation;
    [mutate] always returns a permutation of its argument; the elites of a
    population of permutations and a diversified population of
    permutations are permutations; and after any number of generations
    every chromosome of the population, the global best and every recorded
    chromosome is a permutation of [0..n-1].  The tiles [split_image]
    returns number [grid_size]². *)
Theorem permutation_invariant pieces original_sequence population_size
    mutation_rate grid_size elite_count stagnation_threshold :
  let n := length pieces in
  (forall r, exists c,
      outcome (create_chromosome pieces) r = Ok c /\ is_permutation n c) /\
  (forall parent1 parent2 r child,
      is_permutation n parent1 -> is_permutation n parent2 ->
      outcome (crossover parent1 parent2) r = Ok child ->
      is_permutation n child) /\
  (forall c r, is_permutation n c ->
      exists c', outcome (mutate c mutation_rate) r = Ok c' /\
                 is_permutation n c') /\
  (forall fitnesses population,
      Forall (is_permutation n) population ->
      Forall (is_permutation n) (elites elite_count fitnesses population)) /\
  (forall population stagnation r diversified,
      Forall (is_permutation n) population ->
      outcome (diversify pieces population_size stagnation_threshold
                         population stagnation) r = Ok diversified ->
      Forall (is_permutation n) diversified.1) /\
  (forall k r st,
      outcome (state_after pieces original_sequence population_size
                 mutation_rate grid_size elite_count stagnation_threshold k) r
      = Ok st ->
      perm_inv n st) /\
  (forall resample image,
      split_image resample image grid_size = Ok (pieces, original_sequence) ->
      n = Z.to_nat grid_size * Z.to_nat grid_size).
Proof.
  intros n. repeat split.
  - intros r. unfold outcome.
    destruct (mspec_total _ _ r (create_chromosome_spec pieces))
      as (c & r' & -> & Hc). eauto.
  - intros parent1 parent2 r child H1 H2 H.
    apply outcome_ok in H as [r' H].
    pose proof (mspec_ok _ _ _ _ _ _ (crossover_spec n _ _ H1 H2) H)
      as (_ & _ & _ & _ & _ & _ & Hc). exact Hc.
  - intros c r Hc. unfold outcome.
    destruct (mspec_total _ _ r (mutate_spec c mutation_rate))
      as (c' & r' & -> & Hc'). exists c'. split; [reflexivity|].
    unfold is_permutation in *. by rewrite Hc'.
  - intros fitnesses population Hpop. apply Forall_forall. intros c Hc.
    apply elites_elem in Hc. rewrite Forall_forall in Hpop. by apply Hpop.
  - intros population stagnation r diversified Hpop H.
    apply outcome_ok in H as [r' H].
    pose proof (mspec_ok _ _ _ _ _ _
                  (diversify_spec pieces population_size stagnation_threshold
                     population stagnation Hpop) H) as Hd.
    simpl in Hd. apply Hd.
  - eapply perm_inv_after; eauto.
  - eapply perm_inv_after; eauto.
  - eapply perm_inv_after; eauto.
  - intros resample image H. apply split_image_ok in H as [H _]. exact H.
Qed.


Lemma run_generations_snoc pieces original_sequence population_size
    mutation_rate grid_size elite_count stagnation_threshold n st r :
  run_generations pieces original_sequence population_size mutation_rate
                  grid_size elite_count stagnation_threshold (S n) st r
  = bind (run_generations pieces original_sequence population_size
            mutation_rate grid_size elite_count stagnation_threshold n st)
         (generation_step pieces original_sequence population_size
            mutation_rate grid_size elite_count stagnation_threshold) r.
Proof.
  revert st r. induction n as [|n IH]; intros st r.
  - cbn [run_generations]. unfold bind, ret.
    by destruct (generation_step _ _ _ _ _ _ _ st r) as [[]|].
  - change (run_generations pieces original_sequence population_size
              mutation_rate grid_size elite_count stagnation_threshold
              (S (S n)) st r)
      with (bind (generation_step pieces original_sequence population_size
                    mutation_rate grid_size elite_count stagnation_threshold st)
                 (run_generations pieces original_sequence population_size
                    mutation_rate grid_size elite_count stagnation_threshold
                    (S n)) r).
    unfold bind at 1.
    destruct (generation_step _ _ _ _ _ _ _ st r) as [[st1 r1]|e] eqn:Hs.
    + rewrite IH. cbn [run_generations]. unfold bind. by rewrite Hs.
    + cbn [run_generations]. unfold bind. by rewrite Hs.
Qed.

Lemma state_after_last pieces original_sequence population_size mutation_rate
    grid_size elite_count stagnation_threshold k r st' :
  outcome (state_after pieces original_sequence population_size mutation_rate
             grid_size elite_count stagnation_threshold (S k)) r = Ok st' ->
  exists st r1 r',
    state_after pieces original_sequence population_size mutation_rate
                grid_size elite_count stagnation_threshold k r = Ok (st, r1) /\
    generation_step pieces original_sequence population_size mutation_rate
                    grid_size elite_count stagnation_threshold st r1
    = Ok (st', r').
Proof.
  intros H. apply outcome_ok in H as [r' H]. unfold state_after in H.
  apply bind_ok in H as (population & r0 & Hinit & Hrun).
  rewrite run_generations_snoc in Hrun.
  apply bind_ok in Hrun as (st & r1 & Hk & Hstep).
  exists st, r1, r'. split; [|exact Hstep].
  unfold state_after, bind. by rewrite Hinit.
Qed.

(** C1 (as amended).  In every generation of a run over tiles of positive
    size, the snapshot appended records the global best as it stands after
    this generation's update, chromosome and fitness, and its count is the
    entry of [correct_counts] at [best_index], the argmax of this
    generation's fitnesses; the chromosome at [best_index] is the recorded
    chromosome itself. *)
Theorem snapshot_of_generation pieces original_sequence population_size
    mutation_rate grid_size elite_count stagnation_threshold k r st' :
  Forall wf_tile pieces ->
  outcome (state_after pieces original_sequence population_size mutation_rate
             grid_size elite_count stagnation_threshold (S k)) r = Ok st' ->
  exists st fitnesses counts best_index c n,
    (exists r1 r',
        state_after pieces original_sequence population_size mutation_rate
                    grid_size elite_count stagnation_threshold k r
        = Ok (st, r1) /\
        generation_step pieces original_sequence population_size mutation_rate
                        grid_size elite_count stagnation_threshold st r1
        = Ok (st', r')) /\
    evaluate pieces original_sequence grid_size (population st)
    = Ok (fitnesses, counts) /\
    argmax fitnesses = Ok best_index /\
    best_solutions st'
    = best_solutions st ++ [(c, global_best_fitness st', n)] /\
    global_best_chromo st' = Some c /\
    counts !! best_index = Some n /\
    population st !! best_index = Some c.
Proof.
  intros Hwf H. apply state_after_last in H as (st & r1 & r' & Hk & Hstep).
  pose proof (best_inv_after _ _ _ _ _ _ _ _ _ _ _ Hwf Hk) as Hinv.
  destruct (best_inv_step _ _ population_size mutation_rate _ elite_count
              stagnation_threshold Hwf _ _ _ _ Hinv Hstep)
    as (_ & fitnesses & counts & best_index & c & n & He & Ha & Hp & Hc & Hb & Hs).
  exists st, fitnesses, counts, best_index, c, n. eauto 10.
Qed.

Lemma demo_pieces_wf : Forall wf_tile demo_pieces.
Proof. apply (bool_decide_unpack _). vm_compute. exact I. Qed.

(** The fourth generation of the small run. *)
Lemma snapshot_of_generation_witness :
  exists st fitnesses counts best_index c n,
    (exists r1 r',
        state_after demo_pieces demo_sequence 5 (1 # 5) 2 2 2 3 (demo_rng 6)
        = Ok (st, r1) /\
        generation_step demo_pieces demo_sequence 5 (1 # 5) 2 2 2 st r1
        = Ok (demo_state, r')) /\
    evaluate demo_pieces demo_sequence 2 (population st)
    = Ok (fitnesses, counts) /\
    argmax fitnesses = Ok best_index /\
    best_solutions demo_state
    = best_solutions st ++ [(c, global_best_fitness demo_state, n)] /\
    global_best_chromo demo_state = Some c /\
    counts !! best_index = Some n /\
    population st !! best_index = Some c.
Proof.
  apply (snapshot_of_generation demo_pieces demo_sequence 5%Z (1 # 5)%Q 2%Z 2%Z
           2%Z 3 (demo_rng 6) demo_state).
  - exact demo_pieces_wf.
  - vm_compute. reflexivity.
Defined.

(** The recorded count never differs from the count of the recorded
    chromosome: no run over tiles of positive size has a snapshot whose
    count is not the number of correct positions of its chromosome. *)
Lemma snapshot_mismatch_never_occurs :
  ~ exists pieces original_sequence population_size generations mutation_rate
           grid_size elite_count stagnation_threshold r snaps s cp,
      Forall wf_tile pieces /\
      outcome (genetic_algorithm pieces original_sequence population_size
                 generations mutation_rate grid_size elite_count
                 stagnation_threshold) r = Ok snaps /\
      s ∈ snaps /\
      correct_positions_of (snap_chromosome s) original_sequence = Ok cp /\
      snap_count s <> count_true cp.
Proof.
  intros (pieces & original_sequence & population_size & generations &
          mutation_rate & grid_size & elite_count & stagnation_threshold &
          r & snaps & s & cp & Hwf & Hrun & Hs & Hcp & Hne).
  apply snapshots_consistent in Hrun; [|exact Hwf].
  rewrite Forall_forall in Hrun. destruct (Hrun s Hs) as (cp' & Hfit & Hcount).
  unfold calculate_fitness in Hfit. apply rbind_ok in Hfit as (cp0 & Hcp0 & Hfit).
  apply rbind_ok in Hfit as (f & _ & Hfit). injection Hfit as _ <-.
  congruence.
Qed.

(** C2.  For every snapshot of a run over tiles of positive size, with the
    reference arrangement of [split_image] (the identity on the [n] tile
    ids): the recorded chromosome has length [n], its correct-positions
    list has an entry for every position [i < n], true exactly when the
    chromosome places tile [i] at position [i], and the recorded count is
    the number of true entries. *)
Theorem correct_positions_consistent pieces original_sequence population_size
    generations mutation_rate grid_size elite_count stagnation_threshold
    r snaps s :
  Forall wf_tile pieces ->
  original_sequence = seq 0 (length pieces) ->
  outcome (genetic_algorithm pieces original_sequence population_size
             generations mutation_rate grid_size elite_count
             stagnation_threshold) r = Ok snaps ->
  s ∈ snaps ->
  exists cp,
    correct_positions_of (snap_chromosome s) original_sequence = Ok cp /\
    length (snap_chromosome s) = length pieces /\
    length cp = length pieces /\
    (forall i, i < length pieces ->
       cp !! i = Some (bool_decide (snap_chromosome s !! i = Some i))) /\
    snap_count s = count_true cp.
Proof.
  intros Hwf Horig Hrun Hs.
  pose proof (snapshots_consistent _ _ _ _ _ _ _ Hwf _ _ _ Hrun) as Hcons.
  rewrite Forall_forall in Hcons. destruct (Hcons s Hs) as (cp & Hfit & Hcount).
  apply genetic_algorithm_ok in Hrun as (st & Hst & ->).
  apply perm_inv_after in Hst as (_ & _ & Hperm).
  rewrite Forall_forall in Hperm. specialize (Hperm s Hs).
  apply is_permutation_length in Hperm.
  unfold calculate_fitness in Hfit. apply rbind_ok in Hfit as (cp0 & Hcp0 & Hfit).
  apply rbind_ok in Hfit as (f & _ & Hfit). injection Hfit as _ <-.
  exists cp0. split; [exact Hcp0|].
  apply correct_positions_of_ok in Hcp0 as [Hlen Hcp].
  split; [exact Hperm|]. split; [congruence|]. split; [|exact Hcount].
  intros i Hi. destruct (Hcp i) as (ci & oi & Hci & Hoi & ->); [lia|].
  rewrite Horig in Hoi. apply lookup_seq in Hoi as [-> _]. simpl.
  f_equal. apply bool_decide_ext. rewrite Hci. split; congruence.
Qed.

(** The snapshot of the fourth generation of the small run. *)
Lemma correct_positions_consistent_witness :
  exists cp,
    correct_positions_of (snap_chromosome demo_snapshot) demo_sequence = Ok cp /\
    length (snap_chromosome demo_snapshot) = 4 /\
    length cp = 4 /\
    (forall i, i < 4 ->
       cp !! i = Some (bool_decide (snap_chromosome demo_snapshot !! i = Some i))) /\
    snap_count demo_snapshot = count_true cp.
Proof.
  apply (correct_positions_consistent demo_pieces demo_sequence 5%Z 5%Z
           (1 # 5)%Q 2%Z 2%Z 2%Z (demo_rng 6) demo_snaps demo_snapshot).
  - exact demo_pieces_wf.
  - reflexivity.
  - vm_compute. reflexivity.
  - apply (list_elem_of_lookup_2 _ 3). reflexivity.
Defined.

(** Permutations on the small instance: a crossover child, a mutation and
    the state after four generations. *)
Lemma permutation_invariant_witness :
  is_permutation 4 demo_child /\
  (exists c', outcome (mutate demo_parent1 (1 # 5)) (demo_rng 2) = Ok c' /\
              is_permutation 4 c') /\
  perm_inv 4 demo_state.
Proof.
  pose proof (permutation_invariant demo_pieces demo_sequence 5%Z (1 # 5)%Q
                2%Z 2%Z 2%Z) as (_ & Hcross & Hmut & _ & _ & Hrun & _).
  assert (is_permutation 4 demo_parent1) as H1
    by (apply (bool_decide_unpack _); vm_compute; exact I).
  assert (is_permutation 4 demo_parent2) as H2
    by (apply (bool_decide_unpack _); vm_compute; exact I).
  split; [|split].
  - apply (Hcross demo_parent1 demo_parent2 (demo_rng 1) demo_child H1 H2).
    vm_compute. reflexivity.
  - apply (Hmut demo_parent1 (demo_rng 2) H1).
  - apply (Hrun 4 (demo_rng 6) demo_state). vm_compute. reflexivity.
Defined.


(** ** Which exceptions the operations raise *)

Lemma rspec_anything {A} (x : result A) E :
  (forall e, x = Raise e -> E e) -> rspec x anything E.
Proof. destruct x; simpl; [intros; exact I | auto]. Qed.

Lemma rspec_both {A} (x : result A) (Q : A -> Prop) E :
  rspec x anything E -> (forall a, x = Ok a -> Q a) -> rspec x Q E.
Proof. destruct x; simpl; auto. Qed.

Lemma mspec_both {A} (m : M A) (Q : A -> Prop) E :
  mspec m anything E -> mspec m Q anything -> mspec m Q E.
Proof.
  intros H1 H2 r. specialize (H1 r). specialize (H2 r).
  destruct (m r); simpl in *; auto.
Qed.

Lemma benign_index : benign IndexError.
Proof. split; discriminate. Qed.

Lemma benign_value : benign ValueError.
Proof. split; discriminate. Qed.

Lemma benign_type : benign TypeError.
Proof. split; discriminate. Qed.

#[global] Hint Resolve benign_index benign_value benign_type : core.

(** Steps through a computation in [result], keeping only which
    exceptions it may raise. *)
Ltac benign_step :=
  match goal with
  | |- rspec (Ok _) anything _ => exact I
  | |- rspec (Raise _) _ benign => simpl; auto
  | |- rspec (rbind _ _) anything _ =>
      eapply rspec_bind with (Q := anything); [|intros ? _]
  | |- rspec (if ?b then _ else _) _ _ => destruct b
  | |- rspec (match ?x with _ => _ end) _ _ => destruct x
  | |- rspec (let '(_, _) := ?x in _) _ _ => destruct x
  end.

Lemma getitem_benign {A} (l : list A) i : rspec (getitem l i) anything benign.
Proof. unfold getitem. repeat benign_step. Qed.

Lemma setitem_benign {A} (l : list A) i x :
  rspec (setitem l i x) anything benign.
Proof. unfold setitem. repeat benign_step. Qed.

#[global] Hint Resolve getitem_benign setitem_benign : core.

Lemma swap_benign {A} (l : list A) i j : rspec (swap l i j) anything benign.
Proof. unfold swap. repeat (benign_step; auto). Qed.

Lemma setitem_back_benign {A} (l : list A) k x :
  rspec (setitem_back l k x) anything benign.
Proof. unfold setitem_back. repeat (benign_step; auto). Qed.

Lemma foldR_benign {A S} (f : S -> A -> result S) s l :
  (forall s a, rspec (f s a) anything benign) ->
  rspec (foldR f s l) anything benign.
Proof. intros H. apply foldR_spec; [intros; apply H | exact I]. Qed.

Lemma mapR_benign {A B} (f : A -> result B) l :
  (forall a, rspec (f a) anything benign) ->
  rspec (mapR f l) anything benign.
Proof.
  intros H. eapply rspec_mono;
    [apply (mapR_spec f (fun _ _ => True)); intros; apply H | done | done].
Qed.

Lemma skip_present_benign rest child p :
  rspec (skip_present rest child p) anything benign.
Proof.
  revert p. induction rest as [|g rest IH]; intros p; simpl; [auto|].
  destruct (bool_decide _); [apply IH | exact I].
Qed.

Lemma fill_step_benign parent2 st i :
  rspec (fill_step parent2 st i) anything benign.
Proof.
  unfold fill_step. destruct st as [child p].
  repeat (benign_step; auto using skip_present_benign).
Qed.

Lemma crossover_at_benign start end_ parent1 parent2 :
  rspec (crossover_at start end_ parent1 parent2) anything benign.
Proof.
  unfold crossover_at. benign_step.
  - apply foldR_benign. apply fill_step_benign.
  - unfold genes. apply mapR_benign. intros [g|]; simpl; auto. exact I.
Qed.

Lemma compare_edges_benign piece1 piece2 d :
  rspec (compare_edges piece1 piece2 d) anything benign.
Proof.
  unfold compare_edges, column, row, abs_diff.
  repeat (benign_step; auto).
Qed.

Lemma piece_at_benign pieces c k : rspec (piece_at pieces c k) anything benign.
Proof. unfold piece_at. repeat (benign_step; auto). Qed.

Lemma fitness_cell_benign c pieces n f ij :
  rspec (fitness_cell c pieces n f ij) anything benign.
Proof.
  unfold fitness_cell. destruct ij as [i j].
  repeat (benign_step; auto using piece_at_benign, compare_edges_benign).
Qed.

Lemma calculate_fitness_benign c pieces original_sequence grid_size :
  rspec (calculate_fitness c pieces original_sequence grid_size) anything benign.
Proof.
  unfold calculate_fitness, correct_positions_of. benign_step.
  - apply mapR_benign. intros i. repeat (benign_step; auto).
  - benign_step; [apply foldR_benign, fitness_cell_benign | exact I].
Qed.

Lemma evaluate_benign pieces original_sequence grid_size population :
  rspec (evaluate pieces original_sequence grid_size population) anything benign.
Proof.
  unfold evaluate. benign_step; [|exact I].
  apply mapR_benign. intros c. apply calculate_fitness_benign.
Qed.

Lemma argmax_benign xs : rspec (argmax xs) anything benign.
Proof. unfold argmax. repeat benign_step. Qed.

Lemma track_best_benign st fitnesses best_index :
  rspec (track_best st fitnesses best_index) anything benign.
Proof. unfold track_best. repeat (benign_step; auto). Qed.

Lemma py_max_benign items : rspec (py_max items) anything benign.
Proof. unfold py_max. repeat benign_step. Qed.

(** In the monad. *)
Lemma mspec_weaken {A} (m : M A) (Q : A -> Prop) :
  mspec m Q nothing -> mspec m anything benign.
Proof. intros H. eapply mspec_mono; [exact H | done | intros _ []]. Qed.

Lemma randbelow_benign n : mspec (randbelow n) anything benign.
Proof.
  eapply mspec_mono; [apply randbelow_spec | done |]. intros e [-> _]. auto.
Qed.

Lemma sample_benign {A} (population : list A) k :
  mspec (sample population k) anything benign.
Proof.
  eapply mspec_mono; [apply sample_spec | done |]. intros e [-> _]. auto.
Qed.

Lemma tournament_selection_benign population fitnesses k :
  mspec (tournament_selection population fitnesses k) anything benign.
Proof.
  eapply mspec_mono; [apply tournament_selection_spec | done |].
  intros e [-> _]. auto.
Qed.

Lemma crossover_benign parent1 parent2 :
  mspec (crossover parent1 parent2) anything benign.
Proof.
  unfold crossover. eapply mspec_bind; [apply sample_benign|].
  intros [|a [|b [|]]] _; try (apply mspec_raise; auto).
  apply mspec_lift, crossover_at_benign.
Qed.

Lemma breed_benign mutation_rate fitnesses population :
  mspec (breed mutation_rate fitnesses population) anything benign.
Proof.
  unfold breed.
  eapply mspec_bind; [apply tournament_selection_benign|]. intros parent1 _.
  eapply mspec_bind; [apply tournament_selection_benign|]. intros parent2 _.
  eapply mspec_bind; [apply crossover_benign|]. intros child _.
  eapply mspec_weaken, mutate_spec.
Qed.

Lemma reproduce_benign population_size mutation_rate fitnesses population
    new_population :
  mspec (reproduce population_size mutation_rate fitnesses population
                   new_population) anything benign.
Proof.
  unfold reproduce. apply mfold_spec; [|exact I]. intros p _ _ _.
  eapply mspec_bind; [apply breed_benign|]. intros child _. by apply mspec_ret.
Qed.

Lemma diversify_benign pieces population_size stagnation_threshold population
    stagnation :
  mspec (diversify pieces population_size stagnation_threshold population
                   stagnation) anything benign.
Proof.
  unfold diversify. destruct (decide _); [|by apply mspec_ret].
  eapply mspec_bind with (Q := anything); [|intros; by apply mspec_ret].
  apply mfold_spec; [|exact I]. intros p i _ _.
  eapply mspec_bind; [eapply mspec_weaken, create_chromosome_spec|].
  intros c _. apply mspec_lift, setitem_back_benign.
Qed.

Lemma initial_population_benign pieces population_size :
  mspec (initial_population pieces population_size) anything benign.
Proof. eapply mspec_weaken, initial_population_spec. Qed.


(** ** The global best is defined at every snapshot *)

Section BestDefined.

Variable pieces : list Image.
Variable original_sequence : list nat.
Variable population_size : Z.
Variable mutation_rate : Q.
Variable grid_size : Z.
Variable elite_count : Z.
Variable stagnation_threshold : Z.
Hypothesis tiles_wf : Forall wf_tile pieces.

Local Abbreviation step :=
  (generation_step pieces original_sequence population_size mutation_rate
                   grid_size elite_count stagnation_threshold).
Local Abbreviation run :=
  (run_generations pieces original_sequence population_size mutation_rate
                   grid_size elite_count stagnation_threshold).

Lemma evaluate_finite population fitnesses counts i f :
  evaluate pieces original_sequence grid_size population = Ok (fitnesses, counts) ->
  fitnesses !! i = Some f -> exists q, f = Fin q.
Proof.
  intros He Hf. apply evaluate_ok in He as (Hlf & _ & Heval).
  assert (is_Some (population !! i)) as [c Hc].
  { apply lookup_lt_is_Some. rewrite <- Hlf. by eapply lookup_lt_Some. }
  destruct (Heval _ _ Hc) as (f' & cp & Hfit & Hf' & _).
  assert (f' = f) as -> by congruence.
  by eapply fitness_finite.
Qed.

(** Over finite fitness values the first generation improves on [-inf],
    and later ones keep a best that exists. *)
Lemma track_best_defined st fitnesses counts best_index best f n :
  best_defined_inv st ->
  evaluate pieces original_sequence grid_size (population st)
  = Ok (fitnesses, counts) ->
  track_best st fitnesses best_index = Ok (best, f, n) ->
  is_Some best.
Proof.
  intros Hinv He Ht. apply track_best_cases in Ht as (fb & Hfb & Hcases).
  destruct Hcases as [(_ & _ & Hs & _)|(Hgt & -> & _)]; [exact Hs|].
  destruct (global_best_chromo st) as [c|] eqn:Hc; [by eexists|].
  rewrite (Hinv Hc) in Hgt.
  destruct (evaluate_finite _ _ _ _ _ He Hfb) as [q ->]. discriminate.
Qed.

Lemma generation_step_defined st :
  best_defined_inv st ->
  mspec (step st) (fun st' => is_Some (global_best_chromo st')) benign.
Proof.
  intros Hinv. unfold generation_step.
  destruct (evaluate pieces original_sequence grid_size (population st))
    as [[fitnesses counts]|e] eqn:He.
  2:{ intros r. simpl.
      pose proof (evaluate_benign pieces original_sequence grid_size
                    (population st)) as H. by rewrite He in H. }
  eapply mspec_bind with (Q := fun fc => fc = (fitnesses, counts));
    [by apply mspec_lift|]. intros ? ->.
  eapply mspec_bind with (Q := anything);
    [apply mspec_lift, argmax_benign|]. intros best_index _.
  destruct (track_best st fitnesses best_index) as [[[best f] n]|e] eqn:Ht.
  2:{ intros r. simpl.
      pose proof (track_best_benign st fitnesses best_index) as H.
      by rewrite Ht in H. }
  destruct (track_best_defined _ _ _ _ _ _ _ Hinv He Ht) as [c ->].
  eapply mspec_bind with (Q := fun x => x = (Some c, f, n));
    [by apply mspec_lift|]. intros ? ->.
  eapply mspec_bind with (Q := anything).
  { apply mspec_lift. unfold take_snapshot. simpl.
    repeat (benign_step; auto using getitem_benign). }
  intros snap _.
  eapply mspec_bind with (Q := anything); [apply diversify_benign|].
  intros [diversified stagnation] _.
  eapply mspec_bind with (Q := anything); [apply reproduce_benign|].
  intros bred _.
  eapply mspec_bind with (Q := anything).
  { apply mspec_lift. unfold inject_best. simpl. apply setitem_benign. }
  intros final _. apply mspec_ret. simpl. by eexists.
Qed.

Lemma run_generations_defined n : forall st,
  best_defined_inv st -> mspec (run n st) anything benign.
Proof.
  induction n as [|n IH]; intros st Hinv; cbn [run_generations];
    [by apply mspec_ret|].
  eapply mspec_bind; [by apply generation_step_defined|].
  intros st' [c Hc]. apply IH. intros Hnone. congruence.
Qed.

Lemma genetic_algorithm_defined generations :
  mspec (genetic_algorithm pieces original_sequence population_size generations
           mutation_rate grid_size elite_count stagnation_threshold)
        anything benign.
Proof.
  unfold genetic_algorithm.
  eapply mspec_bind with (Q := anything); [apply initial_population_benign|].
  intros population _.
  eapply mspec_bind with (Q := anything);
    [by apply run_generations_defined | intros; by apply mspec_ret].
Qed.

End BestDefined.

Lemma outcome_raises {A} (m : M A) r e : outcome m r = Raise e -> m r = Raise e.
Proof. unfold outcome. destruct (m r) as [[]|]; congruence. Qed.

(** C10.  Over tiles of positive width and height: every edge score that
    is returned is a number of [0, 1], and the fitness returned for any
    chromosome is a number >= 0; generation 0, starting from the global
    best [-inf], strictly improves on it and defines the global-best
    chromosome; after any generation the global best is defined; and no
    run fails on the copy of a missing global best (AttributeError). *)
Theorem fitness_nonneg_best_defined pieces :
  Forall wf_tile pieces ->
  (forall piece1 piece2 d s,
      piece1 ∈ pieces -> piece2 ∈ pieces ->
      compare_edges piece1 piece2 d = Ok s ->
      exists q, s = Fin q /\ (0 <= q <= 1)%Q) /\
  (forall c original_sequence grid_size f cp,
      calculate_fitness c pieces original_sequence grid_size = Ok (f, cp) ->
      exists q, f = Fin q /\ (0 <= q)%Q) /\
  (forall original_sequence population_size mutation_rate grid_size elite_count
          stagnation_threshold population r st' r',
      generation_step pieces original_sequence population_size mutation_rate
        grid_size elite_count stagnation_threshold (initial_state population) r
      = Ok (st', r') ->
      exists fitnesses counts best_index fb,
        evaluate pieces original_sequence grid_size population
        = Ok (fitnesses, counts) /\
        argmax fitnesses = Ok best_index /\
        fitnesses !! best_index = Some fb /\
        fgt fb NegInf = true /\
        global_best_fitness st' = fb /\
        is_Some (global_best_chromo st') /\
        global_best_chromo st' = population !! best_index) /\
  (forall original_sequence population_size mutation_rate grid_size elite_count
          stagnation_threshold k r st,
      outcome (state_after pieces original_sequence population_size
                 mutation_rate grid_size elite_count stagnation_threshold
                 (S k)) r = Ok st ->
      is_Some (global_best_chromo st)) /\
  (forall original_sequence population_size generations mutation_rate grid_size
          elite_count stagnation_threshold r,
      outcome (genetic_algorithm pieces original_sequence population_size
                 generations mutation_rate grid_size elite_count
                 stagnation_threshold) r <> Raise AttributeError).
Proof.
  intros Hwf. rewrite Forall_forall in Hwf. repeat split.
  - intros piece1 piece2 d s H1 H2. apply compare_edges_unit; auto.
  - intros c original_sequence grid_size f cp.
    apply calculate_fitness_nonneg. by apply Forall_forall.
  - intros original_sequence population_size mutation_rate grid_size elite_count
           stagnation_threshold population r st' r' Hstep.
    apply generation_step_ok in Hstep as []. simpl in *.
    apply track_best_cases in tr_track as (fb & Hfb & Hcases).
    exists fitnesses, counts, best_index, fb. do 3 (split; [done|]).
    destruct (evaluate_finite pieces original_sequence grid_size
                ltac:(by apply Forall_forall) _ _ _ _ _ tr_evaluate Hfb)
      as [q ->].
    subst st'. simpl.
    destruct Hcases as [(_ & -> & Hs & -> & _)|(Hgt & _)]; [auto|discriminate].
  - intros original_sequence population_size mutation_rate grid_size elite_count
           stagnation_threshold k r st H.
    apply state_after_last in H as (st0 & r1 & r' & _ & Hstep).
    apply generation_step_ok in Hstep as [].
    apply inject_best_ok in tr_inject as (c & -> & _). subst st. by eexists.
  - intros original_sequence population_size generations mutation_rate grid_size
           elite_count stagnation_threshold r H.
    apply outcome_raises in H.
    pose proof (genetic_algorithm_defined pieces original_sequence
                  population_size mutation_rate grid_size elite_count
                  stagnation_threshold ltac:(by apply Forall_forall)
                  generations r) as Hs.
    rewrite H in Hs. destruct Hs as [Hs _]. by apply Hs.
Qed.

(** The small instance: the fitness of the recorded chromosome and the
    global best after four generations. *)
Lemma fitness_nonneg_best_defined_witness :
  (exists q, snap_fitness demo_snapshot = Fin q /\ (0 <= q)%Q) /\
  is_Some (global_best_chromo demo_state) /\
  demo_run 6 <> Raise AttributeError.
Proof.
  pose proof (fitness_nonneg_best_defined demo_pieces demo_pieces_wf)
    as (_ & Hfit & _ & Hbest & Hrun).
  split; [|split].
  - apply (Hfit (snap_chromosome demo_snapshot) demo_sequence 2%Z
             (snap_fitness demo_snapshot) demo_correct).
    vm_compute. reflexivity.
  - apply (Hbest demo_sequence 5%Z (1 # 5)%Q 2%Z 2%Z 2%Z 3 (demo_rng 6)).
    vm_compute. reflexivity.
  - apply Hrun.
Defined.


(** ** Rasters *)

Lemma raster_getpixel m w h f x y :
  x < w -> y < h -> getpixel (raster m w h f) x y = f x y.
Proof.
  intros Hx Hy. unfold getpixel, raster. simpl.
  rewrite list_lookup_fmap, lookup_seq_lt by done. simpl.
  rewrite list_lookup_fmap, lookup_seq_lt by done. reflexivity.
Qed.

Lemma raster_ext m w h f g :
  (forall x y, x < w -> y < h -> f x y = g x y) ->
  raster m w h f = raster m w h g.
Proof.
  intros H. unfold raster. f_equal.
  apply list_fmap_ext. intros iy y [-> Hy]%lookup_seq.
  apply list_fmap_ext. intros ix x [-> Hx]%lookup_seq.
  apply H; lia.
Qed.

Lemma raster_rectangular m w h f : rectangular (raster m w h f).
Proof.
  split; simpl; [by rewrite length_fmap, length_seq|].
  apply Forall_fmap, Forall_forall. intros y _. simpl.
  by rewrite length_fmap, length_seq.
Qed.

Lemma raster_id im :
  rectangular im ->
  raster (im_mode im) (im_width im) (im_height im) (getpixel im) = im.
Proof.
  intros [Hh Hw]. destruct im as [m w h rows]. simpl in *. unfold raster.
  f_equal. apply list_eq. intros y.
  rewrite list_lookup_fmap. destruct (decide (y < h)) as [Hy|Hy].
  - rewrite lookup_seq_lt by done. simpl.
    destruct (lookup_lt_is_Some_2 rows y ltac:(lia)) as [row Hrow].
    rewrite Hrow. f_equal. rewrite Forall_forall in Hw.
    assert (length row = w) as Hlen by (apply Hw; by eapply list_elem_of_lookup_2).
    apply list_eq. intros x. rewrite list_lookup_fmap.
    destruct (decide (x < w)) as [Hx|Hx].
    + rewrite lookup_seq_lt by done. simpl. unfold getpixel. simpl.
      rewrite Hrow. simpl.
      destruct (lookup_lt_is_Some_2 row x ltac:(lia)) as [p Hp].
      by rewrite Hp.
    + rewrite lookup_ge_None_2 by (rewrite length_seq; lia).
      rewrite lookup_ge_None_2 by lia. reflexivity.
  - rewrite lookup_ge_None_2 by (rewrite length_seq; lia).
    rewrite lookup_ge_None_2 by lia. reflexivity.
Qed.

Lemma cells_elem_of n i j : i < n -> j < n -> (i, j) ∈ cells n.
Proof. intros Hi Hj. eapply list_elem_of_lookup_2. by apply cells_lookup. Qed.

Lemma in_cell pw ph i j x y :
  0 < pw -> 0 < ph ->
  (j * pw <= x < j * pw + pw /\ i * ph <= y < i * ph + ph)
  <-> (y / ph, x / pw) = (i, j).
Proof.
  intros Hpw Hph. split.
  - intros [Hx Hy]. f_equal; symmetry.
    + apply (Nat.div_unique y ph i (y - i * ph)); lia.
    + apply (Nat.div_unique x pw j (x - j * pw)); lia.
  - intros [= <- <-].
    pose proof (Nat.div_mod_eq x pw). pose proof (Nat.div_mod_eq y ph).
    pose proof (Nat.mod_upper_bound x pw). pose proof (Nat.mod_upper_bound y ph).
    lia.
Qed.

(** A loop that succeeds at every step, with an invariant on the part of
    the list already visited. *)
Lemma foldR_prefix {A S} (f : S -> A -> result S) (I : list A -> S -> Prop) l :
  forall done s,
    I done s ->
    (forall done' a s, a ∈ l -> I done' s ->
       exists s', f s a = Ok s' /\ I (done' ++ [a]) s') ->
    exists s', foldR f s l = Ok s' /\ I (done ++ l) s'.
Proof.
  induction l as [|a l IH]; intros done s Hs Hstep; simpl.
  - exists s. by rewrite app_nil_r.
  - destruct (Hstep done a s ltac:(left) Hs) as (s1 & -> & Hs1). simpl.
    destruct (IH (done ++ [a]) s1 Hs1) as (s' & Hfold & Hs').
    { intros done' a' s0 Ha'. apply Hstep. by right. }
    exists s'. split; [exact Hfold|]. by rewrite <- app_assoc in Hs'.
Qed.

(** ** Assembling the tiles of an image *)

Section RoundTrip.

Variable source : Image.
Variable n pw ph : nat.
Hypothesis source_rect : rectangular source.
Hypothesis source_rgb : im_mode source = RGB.
Hypothesis source_width : im_width source = n * pw.
Hypothesis source_height : im_height source = n * ph.
Hypothesis grid_pos : 0 < n.
Hypothesis pw_pos : 0 < pw.
Hypothesis ph_pos : 0 < ph.

Local Abbreviation tile :=
  (fun '(i, j) => crop source (j * pw) (i * ph) ((j + 1) * pw) ((i + 1) * ph)).
Local Abbreviation tiles := (tile <$> cells n).

Lemma tile_lookup i j :
  i < n -> j < n -> tiles !! (i * n + j) = Some (tile (i, j)).
Proof. intros Hi Hj. by rewrite list_lookup_fmap, cells_lookup. Qed.

Lemma piece_at_identity i j :
  i < n -> j < n ->
  piece_at tiles (seq 0 (n * n)) (i * n + j) = Ok (tile (i, j)).
Proof.
  intros Hi Hj. unfold piece_at, getitem.
  rewrite lookup_seq_lt by nia. simpl. by rewrite tile_lookup.
Qed.

Lemma paste_tile done i j :
  i < n -> j < n ->
  paste (pasted source pw ph done) (tile (i, j)) (j * pw) (i * ph)
  = pasted source pw ph (done ++ [(i, j)]).
Proof.
  intros Hi Hj. unfold paste, pasted. simpl.
  apply raster_ext. intros x y Hx Hy.
  replace ((j + 1) * pw - j * pw) with pw by lia.
  replace ((i + 1) * ph - i * ph) with ph by lia.
  rewrite source_rgb. simpl.
  destruct (decide (j * pw <= x < j * pw + pw /\ i * ph <= y < i * ph + ph))
    as [Hin|Hout].
  - rewrite bool_decide_eq_true_2 by exact Hin.
    pose proof (proj1 (in_cell pw ph i j x y pw_pos ph_pos) Hin) as Hcell.
    rewrite bool_decide_eq_true_2
      by (rewrite Hcell; apply elem_of_app; right; left).
    unfold crop. rewrite raster_getpixel by lia. f_equal; lia.
  - rewrite bool_decide_eq_false_2 by exact Hout.
    rewrite raster_getpixel by done.
    assert ((y / ph, x / pw) <> (i, j)) as Hne
      by (intros Heq; apply Hout; by apply in_cell).
    rewrite (bool_decide_ext ((y / ph, x / pw) ∈ done ++ [(i, j)])
                             ((y / ph, x / pw) ∈ done)); [reflexivity|].
    rewrite elem_of_app, list_elem_of_singleton. tauto.
Qed.

Lemma pasted_all : pasted source pw ph (cells n) = source.
Proof.
  rewrite <- (raster_id source source_rect) at 2. rewrite source_rgb.
  unfold pasted. apply raster_ext. intros x y Hx Hy.
  rewrite bool_decide_eq_true_2; [reflexivity|].
  apply cells_elem_of.
  - apply Nat.Div0.div_lt_upper_bound. lia.
  - apply Nat.Div0.div_lt_upper_bound. lia.
Qed.

(** Pasting every tile at its own cell rebuilds the source. *)
Lemma assemble_tiles :
  assemble_image (seq 0 (n * n)) tiles (Z.of_nat n) = Ok source.
Proof.
  unfold assemble_image.
  assert (getitem tiles 0 = Ok (tile (0, 0))) as ->.
  { apply getitem_ok. apply (tile_lookup 0 0); lia. }
  cbn [rbind]. simpl im_width. simpl im_height.
  replace (pw + 0 - 0) with pw by lia.
  replace (ph + 0 - 0) with ph by lia.
  unfold Image_new. rewrite decide_False by lia. cbn [rbind].
  rewrite Nat2Z.id.
  assert (raster RGB (Z.to_nat (Z.of_nat pw * Z.of_nat n))
                 (Z.to_nat (Z.of_nat ph * Z.of_nat n)) (fun _ _ => black RGB)
          = pasted source pw ph []) as ->.
  { unfold pasted. rewrite source_width, source_height.
    replace (Z.to_nat (Z.of_nat pw * Z.of_nat n)) with (n * pw) by lia.
    replace (Z.to_nat (Z.of_nat ph * Z.of_nat n)) with (n * ph) by lia.
    apply raster_ext. intros x y _ _.
    rewrite bool_decide_eq_false_2; [reflexivity | apply not_elem_of_nil]. }
  destruct (foldR_prefix
              (fun assembled_image '(i, j) =>
                 rbind (piece_at tiles (seq 0 (n * n)) (i * n + j)) (fun piece =>
                 Ok (paste assembled_image piece (j * pw) (i * ph))))
              (fun done img => img = pasted source pw ph done)
              (cells n) [] (pasted source pw ph []) eq_refl)
    as (img & -> & ->).
  - intros done [i j] s Hij ->. apply cells_elem in Hij as [Hi Hj].
    rewrite piece_at_identity by done. simpl.
    eexists. split; [reflexivity|]. by apply paste_tile.
  - rewrite app_nil_l. f_equal. apply pasted_all.
Qed.

End RoundTrip.

Lemma nearest_contract : resample_contract nearest.
Proof.
  intros im w h. unfold nearest. repeat split; try reflexivity.
  - simpl. by rewrite length_fmap, length_seq.
  - apply raster_rectangular.
Qed.

Lemma Image_resize_ok resample im w h resized :
  resample_contract resample -> rectangular im ->
  Image_resize resample im w h = Ok resized ->
  im_mode resized = im_mode im /\
  Z.of_nat (im_width resized) = w /\ Z.of_nat (im_height resized) = h /\
  rectangular resized.
Proof.
  intros Hres Hrect. unfold Image_resize.
  destruct (decide _) as [[Hw Hh]|_]; [intros [= <-]; auto|].
  destruct (decide _) as [|Hpos]; [discriminate|]. intros [= <-].
  destruct (Hres im (Z.to_nat w) (Z.to_nat h)) as (Hm & Hw & Hh & Hr).
  rewrite Hw, Hh. split; [exact Hm|]. split; [lia|]. split; [lia | exact Hr].
Qed.

Lemma Image_resize_total resample im w h :
  (1 <= w)%Z -> (1 <= h)%Z -> exists resized, Image_resize resample im w h = Ok resized.
Proof.
  intros Hw Hh. unfold Image_resize. destruct (decide _); [eauto|].
  rewrite decide_False by lia. eauto.
Qed.

(** C9 (as amended).  For every RGB image and every [grid_size] between 1
    and the smaller side of the image, [split_image] resizes the image and
    returns tiles whose assembly under the reference arrangement is that
    resized image: same mode, same size, same pixels. *)
Theorem assemble_split_roundtrip resample image grid_size :
  resample_contract resample ->
  rectangular image ->
  im_mode image = RGB ->
  (1 <= grid_size <= Z.of_nat (im_width image `min` im_height image))%Z ->
  exists resized pieces original_sequence,
    Image_resize resample image
      (Z.of_nat (im_width image) / grid_size * grid_size)
      (Z.of_nat (im_height image) / grid_size * grid_size) = Ok resized /\
    split_image resample image grid_size = Ok (pieces, original_sequence) /\
    assemble_image original_sequence pieces grid_size = Ok resized.
Proof.
  intros Hres Hrect Hrgb Hgrid.
  set (w := Z.of_nat (im_width image)). set (h := Z.of_nat (im_height image)).
  assert (1 <= w / grid_size)%Z as Hpw.
  { apply Z.div_le_lower_bound; unfold w; lia. }
  assert (1 <= h / grid_size)%Z as Hph.
  { apply Z.div_le_lower_bound; unfold h; lia. }
  destruct (Image_resize_total resample image (w / grid_size * grid_size)
              (h / grid_size * grid_size)) as [resized Hresized]; [nia | nia |].
  destruct (Image_resize_ok _ _ _ _ _ Hres Hrect Hresized)
    as (Hmode & Hw & Hh & Hrr).
  exists resized. eexists. eexists. split; [exact Hresized|].
  unfold split_image. rewrite decide_False by lia. fold w h.
  rewrite Hresized. cbn [rbind]. split; [reflexivity|].
  rewrite cells_index.
  pose proof (assemble_tiles resized (Z.to_nat grid_size)
                (Z.to_nat (w / grid_size)) (Z.to_nat (h / grid_size)) Hrr
                ltac:(congruence) ltac:(lia) ltac:(lia) ltac:(lia) ltac:(lia)
                ltac:(lia)) as Hasm.
  rewrite Z2Nat.id in Hasm by lia. exact Hasm.
Qed.

(** The round trip of the 4x4 gradient cut into 2x2 tiles. *)
Lemma assemble_split_roundtrip_witness :
  exists resized pieces original_sequence,
    Image_resize nearest demo_image 4 4 = Ok resized /\
    split_image nearest demo_image 2 = Ok (pieces, original_sequence) /\
    assemble_image original_sequence pieces 2 = Ok resized.
Proof.
  apply (assemble_split_roundtrip nearest demo_image 2%Z).
  - exact nearest_contract.
  - apply (bool_decide_unpack _). vm_compute. exact I.
  - reflexivity.
  - simpl. lia.
Defined.

(** An image with an alpha band does not survive the round trip: the
    assembled image is an RGB image. *)
Lemma roundtrip_loses_alpha :
  exists resized pieces original_sequence assembled,
    Image_resize nearest demo_rgba 2 2 = Ok resized /\
    split_image nearest demo_rgba 2 = Ok (pieces, original_sequence) /\
    assemble_image original_sequence pieces 2 = Ok assembled /\
    assembled <> resized.
Proof.
  do 4 eexists. split; [reflexivity|]. split; [reflexivity|].
  split; [reflexivity|]. discriminate.
Qed.


(** ** Configurations that are not checked *)

Lemma benign_unchecked e : benign e -> unchecked e.
Proof. intros [_ H]. exact H. Qed.

Lemma rspec_unchecked {A} (x : result A) :
  rspec x anything benign -> rspec x anything unchecked.
Proof. intros H. eapply rspec_mono; [exact H | done | apply benign_unchecked]. Qed.

Lemma mspec_unchecked {A} (m : M A) :
  mspec m anything benign -> mspec m anything unchecked.
Proof. intros H. eapply mspec_mono; [exact H | done | apply benign_unchecked]. Qed.

Lemma copy_of_unchecked best : rspec (copy_of best) anything unchecked.
Proof. destruct best; simpl; [exact I | discriminate]. Qed.

Lemma generation_step_unchecked pieces original_sequence population_size
    mutation_rate grid_size elite_count stagnation_threshold st :
  mspec (generation_step pieces original_sequence population_size mutation_rate
           grid_size elite_count stagnation_threshold st)
        anything unchecked.
Proof.
  unfold generation_step.
  eapply mspec_bind with (Q := anything);
    [apply mspec_lift, rspec_unchecked, evaluate_benign|].
  intros [fitnesses counts] _.
  eapply mspec_bind with (Q := anything);
    [apply mspec_lift, rspec_unchecked, argmax_benign|]. intros best_index _.
  eapply mspec_bind with (Q := anything);
    [apply mspec_lift, rspec_unchecked, track_best_benign|].
  intros [[best f] n] _.
  eapply mspec_bind with (Q := anything).
  { apply mspec_lift. unfold take_snapshot.
    eapply rspec_bind with (Q := anything); [apply copy_of_unchecked|].
    intros c _.
    eapply rspec_bind with (Q := anything);
      [apply rspec_unchecked, getitem_benign | intros; exact I]. }
  intros snap _.
  eapply mspec_bind with (Q := anything);
    [apply mspec_unchecked, diversify_benign|].
  intros [diversified stagnation] _.
  eapply mspec_bind with (Q := anything);
    [apply mspec_unchecked, reproduce_benign|]. intros bred _.
  eapply mspec_bind with (Q := anything).
  { apply mspec_lift. unfold inject_best.
    eapply rspec_bind with (Q := anything); [apply copy_of_unchecked|].
    intros c _. apply rspec_unchecked, setitem_benign. }
  intros final _. by apply mspec_ret.
Qed.

Lemma genetic_algorithm_unchecked pieces original_sequence population_size
    generations mutation_rate grid_size elite_count stagnation_threshold :
  mspec (genetic_algorithm pieces original_sequence population_size generations
           mutation_rate grid_size elite_count stagnation_threshold)
        anything unchecked.
Proof.
  unfold genetic_algorithm.
  eapply mspec_bind with (Q := anything);
    [apply mspec_unchecked, initial_population_benign|]. intros population _.
  eapply mspec_bind with (Q := anything); [|intros; by apply mspec_ret].
  generalize (initial_state population).
  induction (Z.to_nat generations) as [|n IH]; intros st; cbn [run_generations];
    [by apply mspec_ret|].
  eapply mspec_bind with (Q := anything);
    [apply generation_step_unchecked | intros; apply IH].
Qed.

Lemma split_image_unchecked resample image grid_size :
  rspec (split_image resample image grid_size) anything unchecked.
Proof.
  unfold split_image, Image_resize.
  repeat first [ exact I | discriminate
               | match goal with
                 | |- rspec (if ?b then _ else _) _ _ => destruct b
                 | |- rspec (rbind (if ?b then _ else _) _) _ _ => destruct b
                 end
               | progress simpl ].
Qed.

Lemma assemble_image_benign c pieces grid_size :
  rspec (assemble_image c pieces grid_size) anything benign.
Proof.
  unfold assemble_image, Image_new.
  benign_step; [apply getitem_benign|].
  benign_step; [repeat benign_step|].
  apply foldR_benign. intros img [i j].
  benign_step; [apply piece_at_benign | exact I].
Qed.

Lemma solve_puzzle_unchecked resample img grid_size population_size generations
    mutation_rate :
  mspec (solve_puzzle resample img grid_size population_size generations
                      mutation_rate) anything unchecked.
Proof.
  unfold solve_puzzle.
  eapply mspec_bind with (Q := anything);
    [apply mspec_lift, split_image_unchecked|].
  intros [pieces original_sequence] _.
  eapply mspec_bind with (Q := anything); [apply genetic_algorithm_unchecked|].
  intros best_solutions _. apply mspec_lift, rspec_unchecked, mapR_benign.
  intros [index [[c fitness] correct_positions]].
  benign_step; [apply assemble_image_benign | exact I].
Qed.


(** ** Elitism after a diversification *)

(** C6 (the code fails the claim).  In the second generation of this run
    the stagnation counter reaches the threshold and the last three
    chromosomes are replaced; the elites are then chosen by the fitnesses
    evaluated before the replacement, and one of them is a fresh
    chromosome that is less fit than a member of the diversified
    population that is not carried over. *)
Theorem elitism_uses_stale_fitness :
  exists st r1 fitnesses counts best_index best best_fitness stagnation
         diversified stagnation' r2 e m fe fm cpe cpm,
    state_after demo_pieces demo_sequence 6 (1 # 5) 2 3 1 1 (demo_rng 1)
    = Ok (st, r1) /\
    evaluate demo_pieces demo_sequence 2 (population st)
    = Ok (fitnesses, counts) /\
    argmax fitnesses = Ok best_index /\
    track_best st fitnesses best_index = Ok (best, best_fitness, stagnation) /\
    diversify demo_pieces 6 1 (population st) stagnation r1
    = Ok ((diversified, stagnation'), r2) /\
    (diversified <> population st) /\
    (e ∈ elites 3 fitnesses diversified) /\
    (m ∈ diversified) /\
    (m ∉ elites 3 fitnesses diversified) /\
    calculate_fitness e demo_pieces demo_sequence 2 = Ok (fe, cpe) /\
    calculate_fitness m demo_pieces demo_sequence 2 = Ok (fm, cpm) /\
    flt fe fm = true.
Proof.
  do 17 eexists.
  split; [vm_compute; reflexivity|].
  split; [vm_compute; reflexivity|].
  split; [vm_compute; reflexivity|].
  split; [vm_compute; reflexivity|].
  split; [vm_compute; reflexivity|].
  split; [by vm_compute|].
  split; [apply (list_elem_of_lookup_2 _ 1); vm_compute; reflexivity|].
  split; [apply (list_elem_of_lookup_2 _ 2); vm_compute; reflexivity|].
  split; [apply (bool_decide_unpack _); vm_compute; exact I|].
  split; [vm_compute; reflexivity|].
  split; [vm_compute; reflexivity|].
  vm_compute. reflexivity.
Qed.


(** ** Runs that complete, and runs that cannot breed *)

Lemma crossover_small parent1 parent2 r :
  length parent1 < 2 -> crossover parent1 parent2 r = Raise ValueError.
Proof.
  intros Hlen. unfold crossover, bind, sample.
  rewrite decide_False by (rewrite length_seq; lia). reflexivity.
Qed.

Lemma tournament_selection_small population fitnesses r :
  length population < 3 ->
  tournament_selection population fitnesses 3 r = Raise ValueError.
Proof.
  intros Hlen. unfold tournament_selection, bind, sample.
  rewrite decide_False by (rewrite length_zip; lia). reflexivity.
Qed.

Lemma argmax_total xs :
  0 < length xs ->
  exists best_index, argmax xs = Ok best_index /\ best_index < length xs.
Proof.
  intros Hlen. destruct xs as [|x xs]; [simpl in Hlen; lia|].
  eexists. split; [reflexivity|].
  destruct (argmax_ok (x :: xs) _ eq_refl) as (fb & Hfb & _).
  by eapply lookup_lt_Some.
Qed.

Section Totality.

Variable pieces : list Image.
Variable original_sequence : list nat.
Variable population_size : Z.
Variable mutation_rate : Q.
Variable grid_size : Z.
Variable elite_count : Z.
Variable stagnation_threshold : Z.

Local Abbreviation n := (Z.to_nat grid_size).
Local Abbreviation perm := (is_permutation (length pieces)).
Local Abbreviation step :=
  (generation_step pieces original_sequence population_size mutation_rate
                   grid_size elite_count stagnation_threshold).
Local Abbreviation run :=
  (run_generations pieces original_sequence population_size mutation_rate
                   grid_size elite_count stagnation_threshold).

Hypothesis tiles : tile_set n pieces.
Hypothesis reference : original_sequence = seq 0 (length pieces).
Hypothesis population_pos : (1 <= population_size)%Z.

Lemma tiles_wf_all : Forall wf_tile pieces.
Proof. apply tiles. Qed.

Lemma compare_edges_total piece1 piece2 d :
  piece1 ∈ pieces -> piece2 ∈ pieces ->
  exists s, compare_edges piece1 piece2 d = Ok s.
Proof.
  intros H1 H2. destruct tiles as (Hwf & Hshape & _).
  rewrite Forall_forall in Hwf, Hshape.
  destruct (Hwf _ H1) as (_ & Hw1 & Hh1). destruct (Hwf _ H2) as (_ & Hw2 & Hh2).
  destruct (Hshape _ H1) as [HL1 Hsame]. destruct (Hshape _ H2) as [HL2 _].
  rewrite Forall_forall in Hsame. destruct (Hsame _ H2) as (Hm & Hw & Hh).
  unfold compare_edges, column, row, abs_diff.
  destruct d.
  - rewrite !decide_False by (intros [?|?]; [done | lia]). cbn [rbind].
    rewrite decide_True; [cbn [rbind]; eauto|].
    rewrite !length_fmap, !length_seq. split; [exact Hh | by rewrite Hm].
  - rewrite !decide_False by (intros [?|?]; [done | lia]). cbn [rbind].
    rewrite decide_True; [cbn [rbind]; eauto|].
    rewrite !length_fmap, !length_seq. split; [exact Hw | by rewrite Hm].
Qed.

Lemma piece_at_total c k :
  perm c -> k < length pieces -> exists p, piece_at pieces c k = Ok p /\ p ∈ pieces.
Proof.
  intros Hc Hk. unfold piece_at, getitem.
  destruct (lookup_lt_is_Some_2 c k) as [t Ht];
    [by rewrite (is_permutation_length _ _ Hc)|].
  rewrite Ht. cbn [rbind].
  assert (t < length pieces) as Hlt.
  { assert (t ∈ seq 0 (length pieces)) as Hin.
    { rewrite <- Hc. by eapply list_elem_of_lookup_2. }
    apply elem_of_seq in Hin. lia. }
  destruct (lookup_lt_is_Some_2 pieces t Hlt) as [p Hp]. rewrite Hp.
  exists p. split; [reflexivity | by eapply list_elem_of_lookup_2].
Qed.

Lemma fitness_cell_total c f i j :
  perm c -> i < n -> j < n ->
  exists f', fitness_cell c pieces n f (i, j) = Ok f'.
Proof.
  intros Hc Hi Hj. destruct tiles as (_ & _ & Hlen).
  unfold fitness_cell.
  assert (exists f1,
            (if decide (j + 1 < n)
             then rbind (piece_at pieces c (i * n + j)) (fun p1 =>
                  rbind (piece_at pieces c (i * n + (j + 1))) (fun p2 =>
                  rbind (compare_edges p1 p2 Right) (fun s => Ok (fadd f s))))
             else Ok f) = Ok f1) as [f1 ->].
  { destruct (decide (j + 1 < n)); [|eauto].
    destruct (piece_at_total c (i * n + j) Hc) as (p1 & -> & Hp1); [nia|].
    destruct (piece_at_total c (i * n + (j + 1)) Hc) as (p2 & -> & Hp2); [nia|].
    cbn [rbind].
    destruct (compare_edges_total p1 p2 Right Hp1 Hp2) as [s ->]. eauto. }
  cbn [rbind]. destruct (decide (i + 1 < n)); [|eauto].
  destruct (piece_at_total c (i * n + j) Hc) as (p1 & -> & Hp1); [nia|].
  destruct (piece_at_total c ((i + 1) * n + j) Hc) as (p2 & -> & Hp2); [nia|].
  cbn [rbind].
  destruct (compare_edges_total p1 p2 Bottom Hp1 Hp2) as [s ->]. eauto.
Qed.

Lemma calculate_fitness_total c :
  perm c ->
  exists f cp, calculate_fitness c pieces original_sequence grid_size = Ok (f, cp).
Proof.
  intros Hc. unfold calculate_fitness.
  assert (rspec (correct_positions_of c original_sequence) anything nothing)
    as Hcp.
  { unfold correct_positions_of.
    eapply rspec_mono; [apply (mapR_spec _ (fun _ _ => True)) | done | done].
    intros i Hi%elem_of_seq. unfold getitem.
    destruct (lookup_lt_is_Some_2 c i) as [ci ->]; [lia|]. simpl.
    rewrite reference, lookup_seq_lt;
      [exact I | rewrite <- (is_permutation_length _ _ Hc); lia]. }
  apply rspec_total in Hcp as (cp & -> & _). cbn [rbind].
  assert (rspec (foldR (fitness_cell c pieces n) (Fin 0) (cells n))
                anything nothing) as Hf.
  { apply (foldR_spec _ anything); [|exact I].
    intros f [i j] _ Hij. apply cells_elem in Hij as [Hi Hj].
    by destruct (fitness_cell_total c f i j Hc Hi Hj) as [f' ->]. }
  apply rspec_total in Hf as (f & -> & _). cbn [rbind]. eauto.
Qed.

Lemma evaluate_total population :
  Forall perm population ->
  exists fitnesses counts,
    evaluate pieces original_sequence grid_size population
    = Ok (fitnesses, counts).
Proof.
  intros Hpop. unfold evaluate.
  assert (rspec (mapR (fun chromo => calculate_fitness chromo pieces
                                       original_sequence grid_size) population)
                anything nothing) as Hres.
  { eapply rspec_mono; [apply (mapR_spec _ (fun _ _ => True)) | done | done].
    intros c Hc. rewrite Forall_forall in Hpop.
    by destruct (calculate_fitness_total c (Hpop c Hc)) as (f & cp & ->). }
  apply rspec_total in Hres as (results & -> & _). cbn [rbind]. eauto.
Qed.

Lemma diversify_total population stagnation :
  Forall perm population -> length population = Z.to_nat population_size ->
  mspec (diversify pieces population_size stagnation_threshold population
                   stagnation)
        (fun ps => Forall perm ps.1 /\ length ps.1 = length population)
        nothing.
Proof.
  intros Hpop Hlen. unfold diversify. destruct (decide _); [|by apply mspec_ret].
  eapply mspec_bind; [|intros p Hp; apply mspec_ret; exact Hp].
  apply (mfold_spec _ (fun p => Forall perm p /\ length p = length population));
    [|auto].
  intros p i [Hp Hl] Hi. apply elem_of_seq in Hi.
  eapply mspec_bind with (Q := perm); [apply create_chromosome_spec|].
  intros c Hc. apply mspec_lift.
  assert (i + 1 <= length p) as Hle.
  { rewrite Hl, Hlen.
    assert (Z.to_nat (population_size ÷ 2) <= Z.to_nat population_size);
      [|lia].
    apply Z2Nat.inj_le; [apply Z.quot_pos; lia | lia |].
    apply Z.quot_le_upper_bound; lia. }
  unfold setitem_back, setitem. rewrite decide_True by exact Hle.
  rewrite decide_True by lia. simpl.
  split; [by apply Forall_insert | by rewrite length_insert].
Qed.

Lemma tournament_selection_total population fitnesses :
  3 <= length population -> length fitnesses = length population ->
  mspec (tournament_selection population fitnesses 3) (fun c => c ∈ population)
        nothing.
Proof.
  intros Hlen Hfit.
  eapply mspec_mono; [apply tournament_selection_spec | done |].
  intros e [_ [H|[H|H]]]; lia.
Qed.

Lemma breed_total fitnesses population :
  Forall perm population -> 3 <= length population ->
  length fitnesses = length population -> 2 <= length pieces ->
  mspec (breed mutation_rate fitnesses population) perm nothing.
Proof.
  intros Hpop Hlen Hfit Hn. rewrite Forall_forall in Hpop. unfold breed.
  eapply mspec_bind with (Q := perm).
  { eapply mspec_mono; [by apply tournament_selection_total | | done].
    intros c Hc. exact (Hpop c Hc). }
  intros parent1 H1. eapply mspec_bind with (Q := perm).
  { eapply mspec_mono; [by apply tournament_selection_total | | done].
    intros c Hc. exact (Hpop c Hc). }
  intros parent2 H2. eapply mspec_bind with (Q := perm).
  { eapply mspec_mono; [by apply (crossover_spec (length pieces)) | |].
    - intros c (_ & _ & _ & _ & _ & _ & Hc). exact Hc.
    - intros e [_ He]. lia. }
  intros child Hchild.
  eapply mspec_mono; [apply mutate_spec | | done].
  intros c Hc. unfold is_permutation in *. by rewrite Hc.
Qed.

Lemma mfold_count {A B} (f : list B -> A -> M (list B)) E l :
  (forall s a, a ∈ l -> mspec (f s a) (fun s' => length s' = S (length s)) E) ->
  forall s, mspec (mfold f s l) (fun s' => length s' = length s + length l) E.
Proof.
  induction l as [|a l IH]; intros Hf s; simpl.
  - apply mspec_ret. lia.
  - eapply mspec_bind; [apply Hf; left|]. intros s' Hs'.
    eapply mspec_mono; [apply IH | | done].
    + intros s0 a0 Hin. apply Hf. by right.
    + intros s'' Hs''. cbv beta in *. cbn [length] in *. lia.
Qed.

Lemma reproduce_total fitnesses population new_population :
  breedable (length pieces) population_size elite_count ->
  Forall perm population -> length population = Z.to_nat population_size ->
  length fitnesses = length population ->
  length new_population <= length population ->
  ((population_size <= elite_count)%Z ->
   length new_population = length population) ->
  mspec (reproduce population_size mutation_rate fitnesses population
                   new_population)
        (fun bred => length bred = length population) nothing.
Proof.
  intros Hbreed Hpop Hlen Hfit Hle Hfull. unfold reproduce, range.
  eapply mspec_mono; [apply mfold_count | | done].
  - intros s a Ha. apply elem_of_seq in Ha.
    eapply mspec_bind with (Q := perm).
    + destruct Hbreed as [Hel|[H3 H2]];
        [specialize (Hfull Hel); lia | apply breed_total; try done; lia].
    + intros child _. apply mspec_ret. simpl. rewrite length_app. simpl. lia.
  - intros bred Hbred. simpl in Hbred. rewrite length_seq in Hbred. lia.
Qed.

Lemma elites_full fitnesses population :
  length fitnesses = length population ->
  length population = Z.to_nat population_size ->
  (population_size <= elite_count)%Z ->
  length (elites elite_count fitnesses population) = length population.
Proof.
  intros Hfit Hlen Hel. unfold elites, slice_to.
  rewrite decide_False by lia.
  rewrite length_take, length_fmap, sorted_desc_perm, length_zip. lia.
Qed.

Lemma elites_short fitnesses population :
  length fitnesses = length population ->
  length population = Z.to_nat population_size ->
  (elite_count < population_size)%Z ->
  length (elites elite_count fitnesses population) < length population.
Proof.
  intros Hfit Hlen Hel. unfold elites, slice_to.
  destruct (decide (elite_count < 0)%Z);
    rewrite length_take, length_fmap, sorted_desc_perm, length_zip; lia.
Qed.

(** With fewer than two tiles, or fewer than three chromosomes, the first
    child cannot be bred. *)
Lemma breed_raises fitnesses population :
  Forall perm population ->
  length pieces < 2 \/ length population < 3 ->
  mspec (breed mutation_rate fitnesses population) nothing (eq ValueError).
Proof.
  intros Hpop [Hn|Hp]; unfold breed.
  - rewrite Forall_forall in Hpop.
    assert (mspec (tournament_selection population fitnesses 3) perm
                  (eq ValueError)) as Hsel.
    { eapply mspec_mono; [apply tournament_selection_spec | |].
      - intros c Hc. exact (Hpop c Hc).
      - by intros e [-> _]. }
    eapply mspec_bind; [exact Hsel|]. intros parent1 H1.
    eapply mspec_bind; [exact Hsel|]. intros parent2 H2.
    eapply mspec_bind with (Q := nothing); [|intros ? []].
    intros r. rewrite crossover_small;
      [reflexivity | rewrite (is_permutation_length _ _ H1); exact Hn].
  - eapply mspec_bind with (Q := nothing); [|intros ? []].
    intros r. by rewrite tournament_selection_small.
Qed.

Lemma reproduce_raises fitnesses population new_population :
  Forall perm population ->
  length pieces < 2 \/ length population < 3 ->
  length new_population < Z.to_nat population_size ->
  mspec (reproduce population_size mutation_rate fitnesses population
                   new_population)
        nothing (eq ValueError).
Proof.
  intros Hpop Hsmall Hlt. unfold reproduce, range.
  destruct (Z.to_nat (population_size - Z.of_nat (length new_population)))
    as [|k] eqn:Hk; [lia|].
  cbn [seq mfold].
  eapply mspec_bind with (Q := nothing); [|intros ? []].
  eapply mspec_bind with (Q := nothing); [|intros ? []].
  by apply breed_raises.
Qed.

(** A generation up to its reproduction: with the reproduction meeting
    [R] or raising within [E], so does the generation. *)
Lemma generation_step_with (R : list chromosome -> Prop) (E : exn -> Prop) st :
  run_inv (length pieces) population_size st ->
  (forall bred, R bred -> length bred = Z.to_nat population_size) ->
  (forall fitnesses diversified,
      Forall perm diversified ->
      length diversified = Z.to_nat population_size ->
      length fitnesses = length diversified ->
      mspec (reproduce population_size mutation_rate fitnesses diversified
                       (elites elite_count fitnesses diversified)) R E) ->
  mspec (step st)
        (fun st' => (exists bred, R bred) /\
                    length (population st') = Z.to_nat population_size /\
                    length (best_solutions st')
                    = S (length (best_solutions st)))
        E.
Proof.
  intros (Hperm & Hlen & Hdef) HR Hrep.
  pose proof Hperm as (Hpop & _ & _).
  unfold generation_step.
  destruct (evaluate_total _ Hpop) as (fitnesses & counts & He).
  pose proof (evaluate_ok _ _ _ _ _ _ He) as (Hlf & Hlc & _).
  eapply mspec_bind with (Q := fun fc => fc = (fitnesses, counts));
    [by apply mspec_lift; rewrite He|]. intros ? ->.
  destruct (argmax_total fitnesses) as (best_index & Harg & Hbi); [lia|].
  eapply mspec_bind with (Q := fun i => i = best_index);
    [by apply mspec_lift; rewrite Harg|]. intros ? ->.
  assert (exists best f k,
             track_best st fitnesses best_index = Ok (best, f, k))
    as (best & f & k & Ht).
  { unfold track_best, getitem.
    destruct (lookup_lt_is_Some_2 fitnesses best_index Hbi) as [fb ->].
    cbn [rbind]. destruct (fgt fb (global_best_fitness st)); [|eauto].
    destruct (lookup_lt_is_Some_2 (population st) best_index) as [c ->];
      [lia | cbn [rbind]; eauto]. }
  destruct (track_best_defined pieces original_sequence grid_size
              tiles_wf_all _ _ _ _ _ _ _ Hdef He Ht) as [c ->].
  eapply mspec_bind with (Q := fun x => x = (Some c, f, k));
    [by apply mspec_lift; rewrite Ht|]. intros ? ->.
  destruct (lookup_lt_is_Some_2 counts best_index) as [cnt Hcnt]; [lia|].
  eapply mspec_bind with (Q := fun s => s = (c, f, cnt)).
  { apply mspec_lift. unfold take_snapshot, getitem. by rewrite Hcnt. }
  intros ? ->.
  eapply mspec_bind.
  { eapply mspec_mono; [by apply diversify_total | | intros _ []].
    intros ps Hps. exact Hps. }
  intros [diversified stagnation] [Hdiv Hdl]. simpl in Hdiv, Hdl.
  eapply mspec_bind; [apply Hrep; [exact Hdiv | lia | lia]|].
  intros bred HRbred. pose proof (HR _ HRbred) as Hbred.
  eapply mspec_bind with (Q := fun final => length final = length bred).
  { apply mspec_lift. unfold inject_best, setitem. simpl.
    rewrite decide_True by lia. simpl. by rewrite length_insert. }
  intros final Hfinal. apply mspec_ret. simpl.
  split; [by exists bred|]. split; [lia | rewrite length_app; simpl; lia].
Qed.

(** A generation completes, and leaves a state on which the next one
    completes. *)
Lemma generation_step_total st :
  breedable (length pieces) population_size elite_count ->
  run_inv (length pieces) population_size st ->
  mspec (step st)
        (fun st' => run_inv (length pieces) population_size st' /\
                    length (best_solutions st')
                    = S (length (best_solutions st)))
        nothing.
Proof.
  intros Hbreed Hinv r.
  assert (exists st' r',
             step st r = Ok (st', r') /\
             (exists bred : list chromosome,
                 length bred = Z.to_nat population_size) /\
             length (population st') = Z.to_nat population_size /\
             length (best_solutions st') = S (length (best_solutions st)))
    as (st' & r' & Hstep & _ & Hlen' & Hsnaps).
  { apply mspec_total.
    apply (generation_step_with
             (fun bred => length bred = Z.to_nat population_size));
      [exact Hinv | auto |].
    intros fitnesses diversified Hdiv Hdl Hfit.
    eapply mspec_mono;
      [apply reproduce_total; try done | intros bred Hb; simpl in Hb; lia
       | done].
    - apply elites_length.
    - intros Hel. by apply elites_full. }
  destruct Hinv as (Hperm & Hlen & Hdef).
  rewrite Hstep. simpl. split; [|exact Hsnaps].
  split; [by eapply perm_inv_step|]. split; [exact Hlen'|].
  pose proof (mspec_ok _ _ _ _ _ _
                (generation_step_defined pieces original_sequence
                   population_size mutation_rate grid_size elite_count
                   stagnation_threshold tiles_wf_all st Hdef) Hstep)
    as [c Hc].
  intros Hnone. congruence.
Qed.

Lemma run_generations_total k : forall st,
  breedable (length pieces) population_size elite_count ->
  run_inv (length pieces) population_size st ->
  mspec (run k st)
        (fun st' => run_inv (length pieces) population_size st' /\
                    length (best_solutions st')
                    = length (best_solutions st) + k)
        nothing.
Proof.
  induction k as [|k IH]; intros st Hbreed Hinv; cbn [run_generations].
  - apply mspec_ret. split; [exact Hinv | lia].
  - eapply mspec_bind; [by apply generation_step_total|].
    intros st' [Hinv' Hl]. eapply mspec_mono; [by apply IH | | done].
    intros st'' [Hinv'' Hl'']. split; [exact Hinv'' | lia].
Qed.

Lemma initial_state_inv :
  mspec (initial_population pieces population_size)
        (fun population =>
           run_inv (length pieces) population_size (initial_state population))
        nothing.
Proof.
  eapply mspec_mono; [apply initial_population_spec | | done].
  intros population [Hpop Hlen]. split; [|split].
  - split; [exact Hpop|]. split; [discriminate | constructor].
  - exact Hlen.
  - intros _. reflexivity.
Qed.

(** A run with nothing to breed, or with at least three chromosomes over
    at least two tiles, returns one snapshot per generation. *)
Lemma genetic_algorithm_total generations :
  breedable (length pieces) population_size elite_count ->
  mspec (genetic_algorithm pieces original_sequence population_size generations
           mutation_rate grid_size elite_count stagnation_threshold)
        (fun snaps => length snaps = Z.to_nat generations) nothing.
Proof.
  intros Hbreed. unfold genetic_algorithm.
  eapply mspec_bind; [apply initial_state_inv|].
  intros population Hinv.
  eapply mspec_bind; [by apply run_generations_total|].
  intros st [_ Hl]. apply mspec_ret. exact Hl.
Qed.

(** A run that has to breed a child over fewer than two tiles, or from
    fewer than three chromosomes, raises ValueError in its first
    generation. *)
Lemma genetic_algorithm_raises generations :
  length pieces < 2 \/ (population_size < 3)%Z ->
  (elite_count < population_size)%Z -> (1 <= generations)%Z ->
  mspec (genetic_algorithm pieces original_sequence population_size generations
           mutation_rate grid_size elite_count stagnation_threshold)
        nothing (eq ValueError).
Proof.
  intros Hsmall Hel Hgen. unfold genetic_algorithm.
  eapply mspec_bind.
  { eapply mspec_mono; [apply initial_state_inv | | intros _ []].
    intros population H. exact H. }
  intros population Hinv.
  eapply mspec_bind with (Q := nothing); [|intros ? []].
  destruct (Z.to_nat generations) as [|k] eqn:Hk; [lia|].
  cbn [run_generations].
  eapply mspec_bind with (Q := nothing); [|intros ? []].
  eapply mspec_mono;
    [apply (generation_step_with nothing (eq ValueError)) | | done].
  - exact Hinv.
  - intros ? [].
  - intros fitnesses diversified Hdiv Hdl Hfit.
    apply reproduce_raises; [exact Hdiv | lia |].
    rewrite <- Hdl. by apply elites_short.
  - cbv beta. by intros st' [[bred []] _].
Qed.

End Totality.


(** ** The configuration is not validated *)

(** C7 (as amended).  No request is rejected with a ConfigurationError:
    the configuration is not validated.  With [grid_size = 0] the request
    fails with ZeroDivisionError in [split_image]; with
    [generations <= 0] the algorithm returns an empty list of snapshots;
    with [population_size < 1] and [generations >= 1] it fails with
    ValueError at the argmax of the first generation; and with
    [1 <= population_size <= elite_count], over the tiles of a grid and
    the reference sequence, the run is accepted and returns one snapshot
    per generation, whatever the generator draws. *)
Theorem no_configuration_check :
  (forall resample img grid_size population_size generations mutation_rate r,
      outcome (solve_puzzle resample img grid_size population_size generations
                            mutation_rate) r
      <> Raise ConfigurationError) /\
  (forall resample img population_size generations mutation_rate r,
      outcome (solve_puzzle resample img 0 population_size generations
                            mutation_rate) r
      = Raise ZeroDivisionError) /\
  (forall pieces original_sequence population_size generations mutation_rate
          grid_size elite_count stagnation_threshold r,
      (generations <= 0)%Z ->
      outcome (genetic_algorithm pieces original_sequence population_size
                 generations mutation_rate grid_size elite_count
                 stagnation_threshold) r = Ok []) /\
  (forall pieces original_sequence population_size generations mutation_rate
          grid_size elite_count stagnation_threshold r,
      (population_size < 1)%Z -> (1 <= generations)%Z ->
      outcome (genetic_algorithm pieces original_sequence population_size
                 generations mutation_rate grid_size elite_count
                 stagnation_threshold) r = Raise ValueError) /\
  (forall pieces original_sequence population_size generations mutation_rate
          grid_size elite_count stagnation_threshold r,
      tile_set (Z.to_nat grid_size) pieces ->
      original_sequence = seq 0 (length pieces) ->
      (1 <= population_size <= elite_count)%Z ->
      exists snaps,
        outcome (genetic_algorithm pieces original_sequence population_size
                   generations mutation_rate grid_size elite_count
                   stagnation_threshold) r = Ok snaps /\
        length snaps = Z.to_nat generations).
Proof.
  split; [|split; [|split; [|split]]].
  - intros resample img grid_size population_size generations mutation_rate r H.
    apply outcome_raises in H.
    pose proof (solve_puzzle_unchecked resample img grid_size population_size
                  generations mutation_rate r) as Hs.
    rewrite H in Hs. by apply Hs.
  - reflexivity.
  - intros pieces original_sequence population_size generations mutation_rate
           grid_size elite_count stagnation_threshold r Hgen.
    unfold outcome, genetic_algorithm, bind.
    destruct (mspec_total _ _ r (initial_population_spec pieces population_size))
      as (population & r' & -> & _).
    replace (Z.to_nat generations) with 0 by lia. reflexivity.
  - intros pieces original_sequence population_size generations mutation_rate
           grid_size elite_count stagnation_threshold r Hpop Hgen.
    unfold outcome, genetic_algorithm, initial_population, range.
    replace (Z.to_nat population_size) with 0 by lia.
    destruct (Z.to_nat generations) as [|n] eqn:Hn; [lia|]. reflexivity.
  - intros pieces original_sequence population_size generations mutation_rate
           grid_size elite_count stagnation_threshold r Htiles Href [Hpop Hel].
    unfold outcome.
    destruct (mspec_total _ _ r
                (genetic_algorithm_total pieces original_sequence
                   population_size mutation_rate grid_size elite_count
                   stagnation_threshold Htiles Href Hpop generations
                   (or_introl Hel)))
      as (snaps & r' & -> & Hlen).
    eauto.
Qed.

(** A run without generations, a run without population, and a run of two
    chromosomes with three elites. *)
Lemma no_configuration_check_witness :
  outcome (genetic_algorithm demo_pieces demo_sequence 5 (-1) (1 # 5) 2 2 2)
          (demo_rng 1) = Ok [] /\
  outcome (genetic_algorithm demo_pieces demo_sequence 0 3 (1 # 5) 2 2 2)
          (demo_rng 1) = Raise ValueError /\
  exists snaps,
    outcome (genetic_algorithm demo_pieces demo_sequence 2 4 (1 # 5) 2 3 2)
            (demo_rng 1) = Ok snaps /\
    length snaps = 4.
Proof.
  destruct no_configuration_check as (_ & _ & Hgen & Hpop & Hsmall).
  split; [apply Hgen; lia|]. split; [apply Hpop; lia|].
  apply Hsmall; [| reflexivity | lia].
  apply (bool_decide_unpack _). vm_compute. exact I.
Defined.

(** A population smaller than the number of elites is accepted: the
    request with [population_size = 2] (and the default [elite_count = 10])
    is served, one entry per generation. *)
Lemma small_population_accepted :
  exists response,
    outcome (solve_puzzle nearest demo_image 2 2 3 (1 # 5)) (demo_rng 1)
    = Ok response /\
    length response = 3.
Proof.
  destruct (outcome (solve_puzzle nearest demo_image 2 2 3 (1 # 5)) (demo_rng 1))
    as [response|e] eqn:H; [|by vm_compute in H].
  exists response. split; [reflexivity|].
  vm_compute in H. injection H as <-. reflexivity.
Qed.

(** ** Degenerate configurations *)

(** C8 (the code fails the claim).  [crossover] raises ValueError on
    every parent of fewer than two genes, and [tournament_selection] with
    [k = 3] on every population of fewer than three chromosomes, whatever
    the generator draws.  So every run of at least one generation that has
    a child to breed ([elite_count < population_size]) on a 1x1 grid, or
    from fewer than three chromosomes, ends in ValueError; so does the
    request for a 1x1 grid with eleven chromosomes, and the run of two
    chromosomes with one elite. *)
Theorem degenerate_cases_raise :
  (forall parent1 parent2 r,
      length parent1 < 2 -> crossover parent1 parent2 r = Raise ValueError) /\
  (forall population fitnesses r,
      length population < 3 ->
      tournament_selection population fitnesses 3 r = Raise ValueError) /\
  (forall pieces original_sequence population_size generations mutation_rate
          grid_size elite_count stagnation_threshold r,
      tile_set (Z.to_nat grid_size) pieces ->
      original_sequence = seq 0 (length pieces) ->
      (1 <= population_size)%Z -> (elite_count < population_size)%Z ->
      (1 <= generations)%Z ->
      (grid_size = 1 \/ population_size < 3)%Z ->
      outcome (genetic_algorithm pieces original_sequence population_size
                 generations mutation_rate grid_size elite_count
                 stagnation_threshold) r = Raise ValueError) /\
  outcome (solve_puzzle nearest demo_image 1 11 1 (1 # 5)) (demo_rng 1)
  = Raise ValueError /\
  outcome (genetic_algorithm demo_pieces demo_sequence 2 1 (1 # 5) 2 1 20)
          (demo_rng 1)
  = Raise ValueError.
Proof.
  split; [|split; [|split; [|split]]].
  - intros parent1 parent2 r. apply crossover_small.
  - intros population fitnesses r. apply tournament_selection_small.
  - intros pieces original_sequence population_size generations mutation_rate
           grid_size elite_count stagnation_threshold r Htiles Href Hpop Hel
           Hgen Hsmall.
    assert (length pieces < 2 \/ (population_size < 3)%Z) as Hsmall'.
    { destruct Hsmall as [->|H]; [left | by right].
      destruct Htiles as (_ & _ & ->). simpl. lia. }
    pose proof (genetic_algorithm_raises pieces original_sequence
                  population_size mutation_rate grid_size elite_count
                  stagnation_threshold Htiles Href Hpop generations Hsmall'
                  Hel Hgen r) as H.
    unfold outcome.
    destruct (genetic_algorithm _ _ _ _ _ _ _ _ r) as [[snaps r']|e];
      simpl in H; [destruct H | by rewrite H].
  - vm_compute. reflexivity.
  - vm_compute. reflexivity.
Qed.


(* ===================================================================== *)
(** * Further properties of the program *)
(* ===================================================================== *)

(** ** split_image: the tiles *)

Lemma crop_rectangular im x0 y0 x1 y1 : rectangular (crop im x0 y0 x1 y1).
Proof. apply raster_rectangular. Qed.

(** X1.  The tile of row [i] and column [j] is at index [i * n + j]; it has the
    mode of the image and the size [(width // n, height // n)], and its
    pixels are those of the block of the resized image whose upper left
    corner is [(j * pw, i * ph)]. *)
Theorem split_image_tiles resample image grid_size pieces original_sequence :
  resample_contract resample ->
  rectangular image ->
  split_image resample image grid_size = Ok (pieces, original_sequence) ->
  let n := Z.to_nat grid_size in
  let pw := Z.to_nat (Z.of_nat (im_width image) / grid_size) in
  let ph := Z.to_nat (Z.of_nat (im_height image) / grid_size) in
  exists resized,
    Image_resize resample image
      (Z.of_nat (im_width image) / grid_size * grid_size)
      (Z.of_nat (im_height image) / grid_size * grid_size) = Ok resized /\
    length pieces = n * n /\
    original_sequence = seq 0 (n * n) /\
    forall i j, i < n -> j < n ->
      exists tile,
        pieces !! (i * n + j) = Some tile /\
        im_mode tile = im_mode image /\
        im_width tile = pw /\ im_height tile = ph /\
        rectangular tile /\
        forall x y, x < pw -> y < ph ->
          getpixel tile x y = getpixel resized (j * pw + x) (i * ph + y).
Proof.
  intros Hres Hrect Hsplit n pw ph.
  pose proof (split_image_ok _ _ _ _ _ Hsplit) as [Hlen Hseq].
  unfold split_image in Hsplit.
  destruct (decide (grid_size = 0)%Z) as [|Hg]; [discriminate|].
  apply rbind_ok in Hsplit as (resized & Hresized & Hsplit).
  injection Hsplit as <- _.
  destruct (Image_resize_ok _ _ _ _ _ Hres Hrect Hresized) as (Hmode & _ & _ & _).
  exists resized. split; [exact Hresized|]. split; [exact Hlen|].
  split; [by rewrite Hseq, Hlen|].
  intros i j Hi Hj. fold n pw ph.
  eexists. split; [by rewrite list_lookup_fmap, cells_lookup|].
  split; [exact Hmode|]. split; [simpl; lia|]. split; [simpl; lia|].
  split; [apply crop_rectangular|].
  intros x y Hx Hy. unfold crop. rewrite raster_getpixel by lia. reflexivity.
Qed.

(** The four 2x2 tiles of the 4x4 gradient. *)
Lemma split_image_tiles_witness :
  exists resized,
    Image_resize nearest demo_image 4 4 = Ok resized /\
    length demo_pieces = 4 /\
    demo_sequence = seq 0 4 /\
    forall i j, i < 2 -> j < 2 ->
      exists tile,
        demo_pieces !! (i * 2 + j) = Some tile /\
        im_mode tile = RGB /\
        im_width tile = 2 /\ im_height tile = 2 /\
        rectangular tile /\
        forall x y, x < 2 -> y < 2 ->
          getpixel tile x y = getpixel resized (j * 2 + x) (i * 2 + y).
Proof.
  apply (split_image_tiles nearest demo_image 2%Z demo_pieces demo_sequence).
  - exact nearest_contract.
  - apply (bool_decide_unpack _). vm_compute. exact I.
  - vm_compute. reflexivity.
Defined.

(** ** split_image: grids that do not fit *)

Lemma floor_div_neg w g : (0 < w)%Z -> (g < 0)%Z -> (1 <= w / g * g)%Z.
Proof.
  intros Hw Hg. pose proof (Z.div_mod w g ltac:(lia)) as Hdm.
  pose proof (Z.mod_neg_bound w g Hg). nia.
Qed.

(** X2.  On an image of positive size: a negative [grid_size] gives no tile at
    all, without an error, and a [grid_size] above the smaller side of the
    image fails with ValueError, raised by [resize] for the empty target
    size. *)
Theorem split_image_misfit resample image grid_size :
  0 < im_width image -> 0 < im_height image ->
  ((grid_size < 0)%Z -> split_image resample image grid_size = Ok ([], [])) /\
  ((Z.of_nat (im_width image `min` im_height image) < grid_size)%Z ->
   split_image resample image grid_size = Raise ValueError).
Proof.
  intros Hw Hh. split; intros Hg; unfold split_image.
  - rewrite decide_False by lia.
    destruct (Image_resize_total resample image
                (Z.of_nat (im_width image) / grid_size * grid_size)
                (Z.of_nat (im_height image) / grid_size * grid_size))
      as [resized ->]; [apply floor_div_neg; lia | apply floor_div_neg; lia |].
    cbn [rbind]. replace (Z.to_nat grid_size) with 0 by lia. reflexivity.
  - rewrite decide_False by lia.
    assert (Z.of_nat (im_width image) / grid_size = 0 \/
            Z.of_nat (im_height image) / grid_size = 0)%Z as Hzero.
    { destruct (Nat.min_spec (im_width image) (im_height image)) as [[_ Hm]|[_ Hm]];
        [left | right]; apply Z.div_small; lia. }
    unfold Image_resize.
    rewrite decide_False by (intros [? ?]; destruct Hzero as [Hz|Hz];
                             rewrite Hz in *; lia).
    rewrite decide_True by (destruct Hzero as [Hz|Hz]; rewrite Hz; lia).
    reflexivity.
Qed.

(** The 4x4 gradient with [grid_size = -3] and with [grid_size = 5]. *)
Lemma split_image_misfit_witness :
  split_image nearest demo_image (-3) = Ok ([], []) /\
  split_image nearest demo_image 5 = Raise ValueError.
Proof.
  destruct (split_image_misfit nearest demo_image (-3)) as [Hneg _];
    [simpl; lia | simpl; lia |].
  destruct (split_image_misfit nearest demo_image 5) as [_ Hbig];
    [simpl; lia | simpl; lia |].
  split; [apply Hneg; lia | apply Hbig; simpl; lia].
Defined.


(** ** compare_edges: the perfect match *)











(** ** Loops that stop at an exception *)

Lemma mapR_raise {A B} (f : A -> result B) l1 a l2 e :
  (forall x, x ∈ l1 -> exists y, f x = Ok y) -> f a = Raise e ->
  mapR f (l1 ++ a :: l2) = Raise e.
Proof.
  intros Hok Ha. induction l1 as [|x l1 IH]; simpl; [by rewrite Ha|].
  destruct (Hok x ltac:(left)) as [y ->]. simpl.
  rewrite IH; [reflexivity|]. intros x' Hx'. apply Hok. by right.
Qed.

Lemma correct_positions_total c original_sequence :
  length c <= length original_sequence ->
  exists cp, correct_positions_of c original_sequence = Ok cp.
Proof.
  intros Hlen.
  assert (rspec (correct_positions_of c original_sequence) anything nothing)
    as H.
  { unfold correct_positions_of.
    eapply rspec_mono; [apply (mapR_spec _ (fun _ _ => True)) | done | done].
    intros i Hi%elem_of_seq. unfold getitem.
    destruct (lookup_lt_is_Some_2 c i) as [ci ->]; [lia|]. simpl.
    destruct (lookup_lt_is_Some_2 original_sequence i) as [oi ->]; [lia|].
    exact I. }
  apply rspec_total in H as (cp & -> & _). eauto.
Qed.

(** ** calculate_fitness on single-band tiles *)

Lemma cells_head n : 0 < n -> exists rest, cells n = (0, 0) :: rest.
Proof.
  intros Hn. pose proof (cells_lookup n 0 0 Hn Hn) as H. simpl in H.
  destruct (cells n) as [|ij rest]; [done|]. injection H as ->. eauto.
Qed.

Lemma calculate_fitness_greyscale c pieces original_sequence grid_size :
  Forall (fun p => im_mode p = L) pieces ->
  2 <= Z.to_nat grid_size ->
  length pieces = Z.to_nat grid_size * Z.to_nat grid_size ->
  is_permutation (length pieces) c ->
  length c <= length original_sequence ->
  calculate_fitness c pieces original_sequence grid_size = Raise IndexError.
Proof.
  intros Hgrey Hn Hlen Hc Horig. unfold calculate_fitness.
  destruct (correct_positions_total c original_sequence Horig) as [cp ->].
  cbn [rbind].
  destruct (cells_head (Z.to_nat grid_size)) as [rest ->]; [lia|].
  cbn [foldR]. unfold fitness_cell at 1.
  rewrite decide_True by lia.
  destruct (piece_at_total pieces c (0 * Z.to_nat grid_size + 0) Hc)
    as (p1 & -> & Hp1); [nia|].
  destruct (piece_at_total pieces c (0 * Z.to_nat grid_size + (0 + 1)) Hc)
    as (p2 & -> & Hp2); [nia|].
  cbn [rbind]. rewrite Forall_forall in Hgrey.
  unfold compare_edges, column.
  rewrite decide_True by (left; by apply Hgrey). reflexivity.
Qed.

Lemma evaluate_raises pieces original_sequence grid_size c population e :
  calculate_fitness c pieces original_sequence grid_size = Raise e ->
  evaluate pieces original_sequence grid_size (c :: population) = Raise e.
Proof. intros H. unfold evaluate. simpl. by rewrite H. Qed.

Lemma genetic_algorithm_greyscale pieces original_sequence population_size
    generations mutation_rate grid_size elite_count stagnation_threshold :
  Forall (fun p => im_mode p = L) pieces ->
  2 <= Z.to_nat grid_size ->
  length pieces = Z.to_nat grid_size * Z.to_nat grid_size ->
  original_sequence = seq 0 (length pieces) ->
  (1 <= population_size)%Z -> (1 <= generations)%Z ->
  mspec (genetic_algorithm pieces original_sequence population_size
           generations mutation_rate grid_size elite_count
           stagnation_threshold)
        nothing (eq IndexError).
Proof.
  intros Hgrey Hn Hlen Href Hpop Hgen. unfold genetic_algorithm.
  eapply mspec_bind.
  { eapply mspec_mono; [apply initial_population_spec | | intros _ []].
    intros population H. exact H. }
  intros pop0 [Hperm Hsize].
  eapply mspec_bind with (Q := nothing); [|intros ? []].
  destruct (Z.to_nat generations) as [|k] eqn:Hk; [lia|].
  cbn [run_generations].
  eapply mspec_bind with (Q := nothing); [|intros ? []].
  unfold generation_step. cbn [initial_state population].
  destruct pop0 as [|c pop0]; [simpl in Hsize; lia|].
  apply Forall_cons in Hperm as [Hc _].
  rewrite (evaluate_raises _ _ _ _ _ IndexError).
  - intros r. reflexivity.
  - apply calculate_fitness_greyscale; try done.
    rewrite Href, length_seq. by rewrite (is_permutation_length _ _ Hc).
Qed.

(** X4.  A single-band image cannot be solved: with a grid of at least 2x2
    tiles that fits the image, one chromosome and one generation, the
    request fails with IndexError at the first edge comparison, whatever
    the generator draws. *)
Theorem greyscale_request_fails resample img grid_size population_size
    generations mutation_rate r :
  resample_contract resample ->
  rectangular img ->
  im_mode img = L ->
  (2 <= grid_size <= Z.of_nat (im_width img `min` im_height img))%Z ->
  (1 <= population_size)%Z -> (1 <= generations)%Z ->
  outcome (solve_puzzle resample img grid_size population_size generations
                        mutation_rate) r
  = Raise IndexError.
Proof.
  intros Hres Hrect Hgrey Hgrid Hpop Hgen.
  assert (exists pieces original_sequence,
             split_image resample img grid_size = Ok (pieces, original_sequence))
    as (pieces & original_sequence & Hsplit).
  { unfold split_image. rewrite decide_False by lia.
    destruct (Image_resize_total resample img
                (Z.of_nat (im_width img) / grid_size * grid_size)
                (Z.of_nat (im_height img) / grid_size * grid_size))
      as [resized ->]; [| |cbn [rbind]; eauto].
    - assert (1 <= Z.of_nat (im_width img) / grid_size)%Z
        by (apply Z.div_le_lower_bound; lia). nia.
    - assert (1 <= Z.of_nat (im_height img) / grid_size)%Z
        by (apply Z.div_le_lower_bound; lia). nia. }
  destruct (split_image_ok _ _ _ _ _ Hsplit) as [Hlen Href].
  assert (Forall (fun p => im_mode p = L) pieces) as Hmodes.
  { unfold split_image in Hsplit. rewrite decide_False in Hsplit by lia.
    apply rbind_ok in Hsplit as (resized & Hresized & Hsplit).
    injection Hsplit as <- _.
    destruct (Image_resize_ok _ _ _ _ _ Hres Hrect Hresized) as (Hmode & _).
    apply Forall_fmap, Forall_forall. intros [i j] _. simpl. congruence. }
  pose proof (genetic_algorithm_greyscale pieces original_sequence
                population_size generations mutation_rate grid_size 10 20
                Hmodes ltac:(lia) Hlen Href Hpop Hgen) as Hga.
  unfold outcome, solve_puzzle, bind, lift. rewrite Hsplit.
  specialize (Hga r).
  destruct (genetic_algorithm _ _ _ _ _ _ _ _ r) as [[snaps r']|e];
    simpl in Hga; [destruct Hga | by rewrite <- Hga].
Qed.

(** The 4x4 single-band image, in four tiles. *)
Lemma greyscale_request_fails_witness :
  outcome (solve_puzzle nearest demo_grey 2 3 1 (1 # 5)) (demo_rng 1)
  = Raise IndexError.
Proof.
  apply (greyscale_request_fails nearest demo_grey 2 3 1 (1 # 5) (demo_rng 1)).
  - exact nearest_contract.
  - apply (bool_decide_unpack _). vm_compute. exact I.
  - reflexivity.
  - simpl. lia.
  - lia.
  - lia.
Defined.

(** ** calculate_fitness: bounds *)

Ltac unit_edges :=
  change (inject_Z (Z.of_nat 1)) with 1%Q in *;
  change (inject_Z (Z.of_nat 0)) with 0%Q in *.

Lemma fitness_cell_bounds c pieces n q ij f lo hi :
  Forall wf_tile pieces ->
  (lo <= q <= hi)%Q ->
  fitness_cell c pieces n (Fin q) ij = Ok f ->
  exists q', f = Fin q' /\
    (lo <= q' <= hi + inject_Z (Z.of_nat (cell_edges n ij)))%Q.
Proof.
  intros Hwf Hq H. destruct ij as [i j]. unfold fitness_cell in H.
  unfold cell_edges. simpl fst. simpl snd.
  rewrite Forall_forall in Hwf.
  apply rbind_ok in H as (f1 & H1 & H2).
  assert (exists q1, f1 = Fin q1 /\
            (lo <= q1 <= hi + inject_Z (Z.of_nat
                                 (if decide (j + 1 < n)%nat then 1%nat
                                  else 0%nat)))%Q)
    as (q1 & -> & Hq1).
  { destruct (decide (j + 1 < n)).
    - apply rbind_ok in H1 as (p1 & Hp1 & H1).
      apply rbind_ok in H1 as (p2 & Hp2 & H1).
      apply rbind_ok in H1 as (s & Hs & H1). injection H1 as <-.
      apply piece_at_ok in Hp1, Hp2.
      destruct (compare_edges_unit _ _ _ _ (Hwf _ Hp1) (Hwf _ Hp2) Hs)
        as (x & -> & Hx).
      exists (q + x)%Q. split; [reflexivity|]. unit_edges. lra.
    - injection H1 as <-. exists q. split; [reflexivity|]. unit_edges. lra. }
  rewrite Nat2Z.inj_add, inject_Z_plus.
  destruct (decide (i + 1 < n)).
  - apply rbind_ok in H2 as (p1 & Hp1 & H2).
    apply rbind_ok in H2 as (p2 & Hp2 & H2).
    apply rbind_ok in H2 as (s & Hs & H2). injection H2 as <-.
    apply piece_at_ok in Hp1, Hp2.
    destruct (compare_edges_unit _ _ _ _ (Hwf _ Hp1) (Hwf _ Hp2) Hs)
      as (x & -> & Hx).
    exists (q1 + x)%Q. split; [reflexivity|]. unit_edges. lra.
  - injection H2 as <-. exists q1. split; [reflexivity|]. unit_edges. lra.
Qed.

Lemma fitness_fold_bounds c pieces n cs : forall q f lo hi,
  Forall wf_tile pieces ->
  (lo <= q <= hi)%Q ->
  foldR (fitness_cell c pieces n) (Fin q) cs = Ok f ->
  exists q', f = Fin q' /\
    (lo <= q' <= hi + inject_Z (Z.of_nat (sum_list_with (cell_edges n) cs)))%Q.
Proof.
  induction cs as [|ij cs IH]; intros q f lo hi Hwf Hq H; simpl in H.
  - injection H as <-. exists q. split; [reflexivity|].
    cbn [sum_list_with]. unit_edges. lra.
  - apply rbind_ok in H as (f1 & H1 & H2).
    destruct (fitness_cell_bounds _ _ _ _ _ _ _ _ Hwf Hq H1) as (q1 & -> & Hq1).
    destruct (IH _ _ _ _ Hwf Hq1 H2) as (q' & -> & Hq').
    exists q'. split; [reflexivity|]. cbn [sum_list_with].
    rewrite Nat2Z.inj_add, inject_Z_plus. lra.
Qed.

Lemma row_edges n i : forall a m,
  a + m <= n ->
  sum_list_with (cell_edges n) ((fun j => (i, j)) <$> seq a m)
  = (m - (if decide (a + m = n /\ 0 < m) then 1 else 0))
    + m * (if decide (i + 1 < n) then 1 else 0).
Proof.
  intros a m. revert a. induction m as [|m IH]; intros a Ham.
  - simpl. lia.
  - cbn [seq fmap list_fmap sum_list_with].
    rewrite IH by lia. unfold cell_edges. simpl fst. simpl snd.
    repeat case_decide; lia.
Qed.

Lemma grid_edges n : forall a m,
  a + m <= n ->
  sum_list_with (cell_edges n)
                (seq a m ≫= fun i => (fun j => (i, j)) <$> seq 0 n)
  = m * (n - 1) + n * (m - (if decide (a + m = n /\ 0 < m) then 1 else 0)).
Proof.
  intros a m. revert a. induction m as [|m IH]; intros a Ham.
  - simpl. lia.
  - cbn [seq mbind list_bind].
    rewrite sum_list_with_app, IH, row_edges by lia.
    repeat case_decide; nia.
Qed.

Lemma cells_edges n : sum_list_with (cell_edges n) (cells n) = edge_count n.
Proof.
  rewrite cells_rows, grid_edges by lia. unfold edge_count.
  case_decide; nia.
Qed.

Lemma count_true_le bs : count_true bs <= length bs.
Proof. unfold count_true. apply length_filter. Qed.

(** X5.  The fitness of a chromosome over well-formed tiles lies between five
    times its number of correct positions and that plus the number of
    edge comparisons, [2 n (n - 1)] on an [n]x[n] grid. *)
Theorem fitness_bounds c pieces original_sequence grid_size f cp :
  Forall wf_tile pieces ->
  calculate_fitness c pieces original_sequence grid_size = Ok (f, cp) ->
  let k := count_true cp in
  exists q,
    f = Fin q /\
    length cp = length c /\
    k <= length c /\
    (inject_Z (Z.of_nat (5 * k)) <= q
     <= inject_Z (Z.of_nat (5 * k + edge_count (Z.to_nat grid_size))))%Q.
Proof.
  intros Hwf H k. unfold calculate_fitness in H.
  apply rbind_ok in H as (cp' & Hcp & H).
  apply rbind_ok in H as (f0 & Hfold & H). injection H as <- <-.
  destruct (correct_positions_of_ok _ _ _ Hcp) as [Hlen _].
  destruct (fitness_fold_bounds _ _ _ _ 0 f0 0 0 Hwf ltac:(lra) Hfold)
    as (q0 & -> & Hq0).
  rewrite cells_edges in Hq0.
  eexists. split; [reflexivity|]. split; [exact Hlen|].
  split; [rewrite <- Hlen; apply count_true_le|].
  fold k. rewrite Nat2Z.inj_add, inject_Z_plus.
  replace (k * 5) with (5 * k) by lia. lra.
Qed.

(** The snapshot of the fourth generation of the small run. *)
Lemma fitness_bounds_witness :
  exists q,
    snap_fitness demo_snapshot = Fin q /\
    length demo_correct = length (snap_chromosome demo_snapshot) /\
    count_true demo_correct <= length (snap_chromosome demo_snapshot) /\
    (inject_Z (Z.of_nat (5 * count_true demo_correct)) <= q
     <= inject_Z (Z.of_nat (5 * count_true demo_correct + edge_count 2)))%Q.
Proof.
  apply (fitness_bounds (snap_chromosome demo_snapshot) demo_pieces
           demo_sequence 2 (snap_fitness demo_snapshot) demo_correct).
  - apply (bool_decide_unpack _). vm_compute. exact I.
  - vm_compute. reflexivity.
Defined.

(** ** calculate_fitness: grids without edges, short reference sequences *)

(** X6.  On a grid of at most one tile no tile is read: the fitness of a
    chromosome that the reference sequence covers is five times its number
    of correct positions, whatever [pieces] holds.  On any grid, a
    reference sequence shorter than the chromosome ends in IndexError. *)
Theorem calculate_fitness_edge_cases c pieces original_sequence grid_size :
  ((grid_size <= 1)%Z -> length c <= length original_sequence ->
   exists q cp,
     calculate_fitness c pieces original_sequence grid_size = Ok (Fin q, cp) /\
     correct_positions_of c original_sequence = Ok cp /\
     (q == inject_Z (Z.of_nat (5 * count_true cp)))%Q) /\
  (length original_sequence < length c ->
   calculate_fitness c pieces original_sequence grid_size = Raise IndexError).
Proof.
  split.
  - intros Hg Hlen. unfold calculate_fitness.
    destruct (correct_positions_total c original_sequence Hlen) as [cp Hcp].
    rewrite Hcp. cbn [rbind].
    assert (foldR (fitness_cell c pieces (Z.to_nat grid_size)) (Fin 0)
                  (cells (Z.to_nat grid_size)) = Ok (Fin 0)) as ->.
    { destruct (Z.to_nat grid_size) as [|[|n]] eqn:Hn; [done | | lia].
      reflexivity. }
    cbn [rbind]. do 2 eexists. split; [reflexivity|]. split; [reflexivity|].
    replace (count_true cp * 5) with (5 * count_true cp) by lia. ring.
  - intros Hlen. unfold calculate_fitness, correct_positions_of.
    replace (length c)
      with (length original_sequence
            + S (length c - S (length original_sequence))) by lia.
    rewrite seq_app. cbn [seq].
    rewrite (mapR_raise _ _ _ _ IndexError); [reflexivity | |].
    + intros i Hi%elem_of_seq. unfold getitem.
      destruct (lookup_lt_is_Some_2 c i) as [ci ->]; [lia|].
      destruct (lookup_lt_is_Some_2 original_sequence i) as [oi ->]; [lia|].
      simpl. eauto.
    + unfold getitem.
      destruct (lookup_lt_is_Some_2 c (0 + length original_sequence))
        as [ci ->]; [lia|].
      rewrite lookup_ge_None_2 by lia. reflexivity.
Qed.

(** A chromosome of two genes on a 1x1 grid without tiles, and the same
    chromosome against a reference of one entry. *)
Lemma calculate_fitness_edge_cases_witness :
  (exists q cp,
     calculate_fitness [1; 0] [] [1; 1] 1 = Ok (Fin q, cp) /\
     correct_positions_of [1; 0] [1; 1] = Ok cp /\
     (q == inject_Z (Z.of_nat (5 * count_true cp)))%Q) /\
  calculate_fitness [1; 0] [] [1] 1 = Raise IndexError.
Proof.
  destruct (calculate_fitness_edge_cases [1; 0] [] [1; 1] 1) as [Hsmall _].
  destruct (calculate_fitness_edge_cases [1; 0] [] [1] 1) as [_ Hshort].
  split; [apply Hsmall; simpl; lia | apply Hshort; simpl; lia].
Defined.


(** ** tournament_selection: the winner *)

Lemma fgt_irrefl a : fgt a a = false.
Proof.
  destruct a as [|q|]; try reflexivity. unfold fgt. simpl.
  apply Qltb_ge. apply Qle_refl.
Qed.

(** A value that exceeds [b] is not below anything [b] is not below. *)
Lemma fgt_upper x b y : fgt x b = true -> fgt y b = false -> fgt y x = false.
Proof.
  unfold fgt. destruct x as [|x|], b as [|b|], y as [|y|]; simpl;
    try congruence.
  rewrite Qltb_lt, !Qltb_ge. intros. lra.
Qed.

Lemma max_from_max items : forall best seen,
  (forall y, y ∈ seen -> fgt y.2 best.2 = false) ->
  forall y, y ∈ seen ++ best :: items ->
            fgt y.2 (max_from best items).2 = false.
Proof.
  induction items as [|x items IH]; intros best seen Hseen y Hy; simpl.
  - apply elem_of_app in Hy as [Hy|Hy%list_elem_of_singleton];
      [by apply Hseen | subst; apply fgt_irrefl].
  - apply (IH _ (seen ++ [best; x])).
    + intros z Hz. rewrite elem_of_app, !elem_of_cons, elem_of_nil in Hz.
      destruct (fgt x.2 best.2) eqn:Hx.
      * destruct Hz as [Hz|[->|[->|[]]]].
        -- eapply fgt_upper; [exact Hx | by apply Hseen].
        -- eapply fgt_upper; [exact Hx | apply fgt_irrefl].
        -- apply fgt_irrefl.
      * destruct Hz as [Hz|[->|[->|[]]]];
          [by apply Hseen | apply fgt_irrefl | exact Hx].
    + rewrite !elem_of_app, !elem_of_cons in Hy.
      rewrite !elem_of_app, !elem_of_cons. tauto.
Qed.

Lemma py_max_max items w :
  py_max items = Ok w ->
  w ∈ items /\ forall y, y ∈ items -> fgt y.2 w.2 = false.
Proof.
  intros H. split; [by apply py_max_elem|].
  destruct items as [|x items]; [discriminate|]. injection H as <-.
  intros y Hy. apply (max_from_max items x []); [|exact Hy].
  intros z Hz. by apply elem_of_nil in Hz.
Qed.

(** X7.  The winner of a tournament is the chromosome of one of [k] entries of
    [zip(population, fitnesses)] taken at distinct positions, and no
    fitness among the [k] exceeds its own. *)
Theorem tournament_winner population fitnesses k r c :
  outcome (tournament_selection population fitnesses k) r = Ok c ->
  exists f picked rest,
    zip population fitnesses ≡ₚ picked ++ rest /\
    length picked = k /\
    (c, f) ∈ picked /\
    forall y, y ∈ picked -> fgt y.2 f = false.
Proof.
  intros H. apply outcome_ok in H as [r' H]. unfold tournament_selection in H.
  apply bind_ok in H as (picked & r1 & Hpick & H).
  apply bind_ok in H as ([c' f] & r2 & Hmax & H).
  apply ret_ok in H as [-> _]. apply lift_ok in Hmax as [Hmax _].
  pose proof (mspec_ok _ _ _ _ _ _ (sample_spec _ k) Hpick) as [Hlen [rest Hrest]].
  apply py_max_max in Hmax as [Hin Hmax].
  exists f, picked, rest. auto.
Qed.

(** A tournament of three among three chromosomes. *)
Lemma tournament_winner_witness :
  exists f picked rest,
    zip [demo_parent1; demo_parent2; demo_child] [Fin 1; Fin 3; Fin 2]
    ≡ₚ picked ++ rest /\
    length picked = 3 /\
    (demo_parent2, f) ∈ picked /\
    forall y, y ∈ picked -> fgt y.2 f = false.
Proof.
  apply (tournament_winner [demo_parent1; demo_parent2; demo_child]
           [Fin 1; Fin 3; Fin 2] 3 (demo_rng 1) demo_parent2).
  vm_compute. reflexivity.
Defined.

(** ** crossover of a chromosome with itself *)

Lemma filter_keep {A} (P : A -> Prop) `{forall x, Decision (P x)} (l : list A) :
  (forall x, x ∈ l -> P x) -> filter P l = l.
Proof.
  induction l as [|x l IH]; intros Hall; [reflexivity|].
  rewrite filter_cons_True by (apply Hall; left).
  f_equal. apply IH. intros y Hy. apply Hall. by right.
Qed.

Lemma filter_drop {A} (P : A -> Prop) `{forall x, Decision (P x)} (l : list A) :
  (forall x, x ∈ l -> ~ P x) -> filter P l = [].
Proof.
  induction l as [|x l IH]; intros Hall; [reflexivity|].
  rewrite filter_cons_False by (apply Hall; left).
  apply IH. intros y Hy. apply Hall. by right.
Qed.

Lemma filter_out_middle (a k b : list nat) :
  NoDup (a ++ k ++ b) -> filter (fun g => g ∉ k) (a ++ k ++ b) = a ++ b.
Proof.
  intros Hnd. apply NoDup_app in Hnd as (_ & Hak & Hnd).
  apply NoDup_app in Hnd as (_ & Hkb & _).
  rewrite !filter_app.
  rewrite (filter_keep _ a); [|intros x Hx Hk; apply (Hak x Hx), elem_of_app; by left].
  rewrite (filter_drop _ k); [|intros x Hx Hk; by apply Hk].
  rewrite (filter_keep _ b); [reflexivity|].
  intros x Hx Hk. by apply (Hkb x Hk).
Qed.

Lemma ox_child_same start end_ (p : chromosome) :
  NoDup p -> start <= end_ < length p -> ox_child start end_ p p = p.
Proof.
  intros Hnd Hcut. unfold ox_child, slice. cbv zeta.
  set (kept := take (end_ + 1 - start) (drop start p)).
  assert (p = take start p ++ kept ++ drop (end_ + 1) p) as Hp.
  { rewrite <- (take_drop start p) at 1. f_equal.
    rewrite <- (take_drop (end_ + 1 - start) (drop start p)) at 1.
    unfold kept. f_equal. rewrite drop_drop. f_equal. lia. }
  assert (filter (fun g => g ∉ kept) p = take start p ++ drop (end_ + 1) p)
    as ->.
  { rewrite Hp at 1. apply filter_out_middle. by rewrite <- Hp. }
  rewrite take_app_length' by (rewrite length_take; lia).
  rewrite drop_app_length' by (rewrite length_take; lia).
  by rewrite <- Hp.
Qed.

(** X8.  Crossing a permutation of at least two genes with itself returns it,
    wherever the cut points fall. *)
Theorem crossover_same_parent n p r :
  is_permutation n p -> 2 <= n -> outcome (crossover p p) r = Ok p.
Proof.
  intros Hp Hn. pose proof (crossover_spec n p p Hp Hp r) as H.
  unfold outcome. destruct (crossover p p r) as [[child r']|e]; simpl in H.
  - destruct H as (a & b & Ha & Hb & Hab & Hat & _).
    pose proof (is_permutation_length _ _ Hp) as Hlen.
    rewrite crossover_at_ok in Hat;
      [| by apply is_permutation_nodup in Hp | reflexivity | lia].
    injection Hat as <-. f_equal. apply ox_child_same; [|lia].
    by apply is_permutation_nodup in Hp.
  - destruct H as [_ H]. lia.
Qed.

Lemma crossover_same_parent_witness :
  outcome (crossover demo_parent1 demo_parent1) (demo_rng 1) = Ok demo_parent1.
Proof.
  apply (crossover_same_parent 4 demo_parent1 (demo_rng 1)); [|lia].
  apply (bool_decide_unpack _). vm_compute. exact I.
Defined.

(** ** mutate with a rate that never fires *)

Lemma random_random_nonneg r u r' : random_random r = Ok (u, r') -> (0 <= u)%Q.
Proof.
  unfold random_random, bind, draw, ret. intros [= <- _].
  unfold Qle. cbn [Qnum Qden].
  pose proof (N2Z.is_nonneg (tape r (pos r) mod N.pos two53)). lia.
Qed.

Lemma mutate_step_idle mutation_rate c i r :
  (mutation_rate <= 0)%Q ->
  mutate_step mutation_rate c i r = Ok (c, Rng (tape r) (S (pos r))).
Proof.
  intros Hrate. unfold mutate_step, bind.
  destruct (random_random r) as [[u r1]|e] eqn:Hu; [|discriminate].
  pose proof (random_random_nonneg _ _ _ Hu) as Hpos.
  injection Hu as _ <-.
  assert (Qltb u mutation_rate = false) as -> by (apply Qltb_ge; lra).
  reflexivity.
Qed.

Lemma mutate_fold_idle mutation_rate c l : forall r,
  (mutation_rate <= 0)%Q ->
  mfold (mutate_step mutation_rate) c l r
  = Ok (c, Rng (tape r) (pos r + length l)).
Proof.
  induction l as [|i l IH]; intros r Hrate; simpl.
  - unfold ret. destruct r as [t p]. simpl. by rewrite Nat.add_0_r.
  - unfold bind. rewrite mutate_step_idle by exact Hrate.
    rewrite IH by exact Hrate. simpl. do 3 f_equal. lia.
Qed.

(** X9.  With a mutation rate of zero (or below) [mutate] returns the
    chromosome as it is; it still draws one number per gene. *)
Theorem mutate_idle c mutation_rate r :
  (mutation_rate <= 0)%Q ->
  mutate c mutation_rate r = Ok (c, Rng (tape r) (pos r + length c)).
Proof.
  intros Hrate. unfold mutate. rewrite mutate_fold_idle by exact Hrate.
  by rewrite length_seq.
Qed.

Lemma mutate_idle_witness :
  mutate demo_parent1 0 (demo_rng 1)
  = Ok (demo_parent1,
        Rng (tape (demo_rng 1)) (pos (demo_rng 1) + length demo_parent1)).
Proof. apply (mutate_idle demo_parent1 0 (demo_rng 1)). apply Qle_refl. Defined.


(** ** Diversification *)

(** A loop over consecutive indices, with an invariant that follows the
    index. *)
Lemma mfold_seq_ok {St} (f : St -> nat -> M St) (I : nat -> St -> Prop) :
  forall m a s r s' r',
    I a s ->
    (forall i s r s1 r1,
        a <= i < a + m -> I i s -> f s i r = Ok (s1, r1) -> I (S i) s1) ->
    mfold f s (seq a m) r = Ok (s', r') ->
    I (a + m) s'.
Proof.
  induction m as [|m IH]; intros a s r s' r' Hs Hstep H; simpl in H.
  - apply ret_ok in H as [-> _]. by rewrite Nat.add_0_r.
  - apply bind_ok in H as (s1 & r1 & H1 & H2).
    replace (a + S m) with (S a + m) by lia.
    eapply IH; [|intros i s0 r0 s2 r2 Hi; apply Hstep; lia|exact H2].
    eapply Hstep; [|exact Hs|exact H1]. lia.
Qed.

(** X10.  [diversify] keeps the length of the population.  When the stagnation
    counter has reached the threshold it resets the counter, leaves the
    chromosomes before the last [int(population_size * 0.5)] as they are
    and replaces each of the last ones by a new permutation; otherwise it
    returns the population and the counter unchanged and draws nothing. *)
Theorem diversify_front pieces population_size stagnation_threshold population
    stagnation r population' stagnation' r' :
  diversify pieces population_size stagnation_threshold population stagnation r
  = Ok ((population', stagnation'), r') ->
  let k := Z.to_nat (population_size ÷ 2) in
  length population' = length population /\
  if decide (stagnation_threshold <= Z.of_nat stagnation)%Z
  then stagnation' = 0 /\
       k <= length population /\
       take (length population - k) population'
       = take (length population - k) population /\
       Forall (is_permutation (length pieces))
              (drop (length population - k) population')
  else population' = population /\ stagnation' = stagnation /\ r' = r.
Proof.
  intros H k. unfold diversify in H.
  destruct (decide (stagnation_threshold <= Z.of_nat stagnation)%Z);
    [|by injection H as <- <- <-].
  apply bind_ok in H as (p & r1 & Hfold & H). apply ret_ok in H as [Heq _].
  injection Heq as -> ->.
  set (len := length population).
  unfold range in Hfold. fold k in Hfold.
  assert (length p = len /\ 0 + k <= len /\
          take (len - (0 + k)) p = take (len - (0 + k)) population /\
          Forall (is_permutation (length pieces)) (drop (len - (0 + k)) p))
    as (Hlen & Hk & Htake & Hdrop); [|by auto].
  eapply (mfold_seq_ok _
            (fun j q => length q = len /\ j <= len /\
                        take (len - j) q = take (len - j) population /\
                        Forall (is_permutation (length pieces))
                               (drop (len - j) q)));
    [| |exact Hfold].
  - rewrite Nat.sub_0_r. split; [done|]. split; [lia|]. split; [done|].
    unfold len. rewrite drop_all. constructor.
  - intros i q r0 q1 r2 Hi (Hql & Hil & Hqt & Hqd) Hstep.
    apply bind_ok in Hstep as (c & r3 & Hc & Hset).
    apply lift_ok in Hset as [Hset _].
    pose proof (mspec_ok _ _ _ _ _ _ (create_chromosome_spec pieces) Hc) as Hperm.
    unfold setitem_back in Hset.
    destruct (decide (i + 1 <= length q)) as [Hle|]; [|discriminate].
    apply setitem_ok in Hset as [Hlt ->]. rewrite Hql in *.
    replace (len - (i + 1)) with (len - S i) in * by lia.
    split; [by rewrite length_insert|]. split; [lia|]. split.
    + rewrite take_insert_ge by lia.
      replace (len - S i) with ((len - S i) `min` (len - i)) by lia.
      rewrite <- !take_take. by rewrite Hqt.
    + rewrite insert_take_drop by lia.
      rewrite drop_app_length' by (rewrite length_take; lia).
      constructor; [exact Hperm|].
      replace (S (len - S i)) with (len - i) by lia. exact Hqd.
Qed.

(** The population of the small run after four generations, diversified. *)
Lemma diversify_front_witness :
  exists population' stagnation' r',
    diversify demo_pieces 5 2 (population demo_state) 2 (demo_rng 3)
    = Ok ((population', stagnation'), r') /\
    length population' = 5 /\
    stagnation' = 0 /\
    take 3 population' = take 3 (population demo_state) /\
    Forall (is_permutation 4) (drop 3 population').
Proof.
  destruct (diversify demo_pieces 5 2 (population demo_state) 2 (demo_rng 3))
    as [[[population' stagnation'] r']|e] eqn:H; [|by vm_compute in H].
  exists population', stagnation', r'. split; [reflexivity|].
  destruct (diversify_front _ _ _ _ _ _ _ _ _ H) as (Hlen & Hs & _ & Ht & Hd).
  auto.
Defined.

(** ** The sizes of a run *)

Lemma mspec_trivial {A} (m : M A) : mspec m anything anything.
Proof. intros r. by destruct (m r). Qed.

Lemma diversify_length pieces population_size stagnation_threshold population
    stagnation :
  mspec (diversify pieces population_size stagnation_threshold population
                   stagnation)
        (fun ps => length ps.1 = length population) anything.
Proof.
  unfold diversify. destruct (decide _); [|by apply mspec_ret].
  eapply mspec_bind; [|intros p Hp; apply mspec_ret; exact Hp].
  apply (mfold_spec _ (fun p => length p = length population)); [|done].
  intros p i Hp _. eapply mspec_bind; [apply mspec_trivial|].
  intros c _. apply mspec_lift. unfold setitem_back, setitem.
  repeat case_decide; simpl; [by rewrite length_insert | done | done].
Qed.

Lemma reproduce_length population_size mutation_rate fitnesses population
    new_population r bred r' :
  reproduce population_size mutation_rate fitnesses population new_population r
  = Ok (bred, r') ->
  length bred
  = length new_population
    + Z.to_nat (population_size - Z.of_nat (length new_population)).
Proof.
  intros H. unfold reproduce, range in H.
  pose proof (mfold_count
                (fun new_population (_ : nat) =>
                   bind (breed mutation_rate fitnesses population)
                        (fun child => ret (new_population ++ [child])))
                anything
                (seq 0 (Z.to_nat (population_size
                                  - Z.of_nat (length new_population))))) as Hc.
  eapply mspec_ok in H; [|apply Hc].
  - simpl in H. by rewrite length_seq in H.
  - intros s a _. eapply mspec_bind; [apply mspec_trivial|].
    intros child _. apply mspec_ret. rewrite length_app. simpl. lia.
Qed.

Lemma generation_step_sizes pieces original_sequence population_size
    mutation_rate grid_size elite_count stagnation_threshold st r st' r' :
  generation_step pieces original_sequence population_size mutation_rate
                  grid_size elite_count stagnation_threshold st r
  = Ok (st', r') ->
  length (population st) = Z.to_nat population_size ->
  length (population st') = Z.to_nat population_size /\
  length (best_solutions st') = S (length (best_solutions st)).
Proof.
  intros Hstep Hlen. apply generation_step_ok in Hstep as [].
  pose proof (mspec_ok _ _ _ _ _ _ (diversify_length _ _ _ _ _) tr_diversify)
    as Hdiv. simpl in Hdiv.
  apply reproduce_length in tr_reproduce.
  pose proof (elites_length elite_count fitnesses diversified) as Hel.
  apply inject_best_ok in tr_inject as (c & _ & -> & _).
  subst st'. simpl. rewrite length_insert, length_app. simpl.
  split; lia.
Qed.

Lemma state_after_sizes pieces original_sequence population_size mutation_rate
    grid_size elite_count stagnation_threshold k : forall r st,
  outcome (state_after pieces original_sequence population_size
             mutation_rate grid_size elite_count stagnation_threshold k) r
  = Ok st ->
  length (population st) = Z.to_nat population_size /\
  length (best_solutions st) = k.
Proof.
  induction k as [|k IH]; intros r st H.
  - apply outcome_ok in H as [r' H]. unfold state_after in H.
    apply bind_ok in H as (population & r1 & Hinit & H).
    apply ret_ok in H as [-> _].
    pose proof (mspec_ok _ _ _ _ _ _
                  (initial_population_spec pieces population_size) Hinit)
      as [_ Hlen].
    auto.
  - apply state_after_last in H as (st0 & r1 & r' & H0 & Hstep).
    destruct (IH r st0) as [Hlen Hsnaps]; [unfold outcome; by rewrite H0|].
    destruct (generation_step_sizes _ _ _ _ _ _ _ _ _ _ _ Hstep Hlen).
    split; [done | lia].
Qed.

(** X11.  Whatever the tiles and the parameters: a run that returns, returns
    one snapshot per generation ([generations] of them, none when
    [generations <= 0]), and the population holds [population_size]
    chromosomes after every generation. *)
Theorem run_sizes pieces original_sequence population_size mutation_rate
    grid_size elite_count stagnation_threshold :
  (forall k r st,
      outcome (state_after pieces original_sequence population_size
                 mutation_rate grid_size elite_count stagnation_threshold k) r
      = Ok st ->
      length (population st) = Z.to_nat population_size /\
      length (best_solutions st) = k) /\
  (forall generations r snaps,
      outcome (genetic_algorithm pieces original_sequence population_size
                 generations mutation_rate grid_size elite_count
                 stagnation_threshold) r = Ok snaps ->
      length snaps = Z.to_nat generations).
Proof.
  split.
  - intros k r st H. by eapply state_after_sizes.
  - intros generations r snaps H.
    apply genetic_algorithm_ok in H as (st & Hst & ->).
    by destruct (state_after_sizes _ _ _ _ _ _ _ _ _ _ Hst).
Qed.

(** The small run: five chromosomes after four generations, five
    snapshots after five. *)
Lemma run_sizes_witness :
  (length (population demo_state) = Z.to_nat 5 /\
   length (best_solutions demo_state) = 4) /\
  length demo_snaps = Z.to_nat 5.
Proof.
  destruct (run_sizes demo_pieces demo_sequence 5 (1 # 5) 2 2 2) as [Hrun Hga].
  split.
  - apply (Hrun 4 (demo_rng 6) demo_state). vm_compute. reflexivity.
  - apply (Hga 5%Z (demo_rng 6) demo_snaps). vm_compute. reflexivity.
Defined.

(** ** Runs that complete with breeding *)

(** X12.  Over the tiles of a grid of at least 2x2 and the reference sequence,
    with at least three chromosomes, every run completes, whatever the
    other parameters and the draws: it returns one snapshot per
    generation. *)
Theorem genetic_algorithm_completes pieces original_sequence population_size
    generations mutation_rate grid_size elite_count stagnation_threshold r :
  tile_set (Z.to_nat grid_size) pieces ->
  original_sequence = seq 0 (length pieces) ->
  (2 <= grid_size)%Z -> (3 <= population_size)%Z ->
  exists snaps,
    outcome (genetic_algorithm pieces original_sequence population_size
               generations mutation_rate grid_size elite_count
               stagnation_threshold) r = Ok snaps /\
    length snaps = Z.to_nat generations.
Proof.
  intros Htiles Href Hgrid Hpop.
  assert (2 <= length pieces) as Hn.
  { destruct Htiles as (_ & _ & ->). nia. }
  unfold outcome.
  destruct (mspec_total _ _ r
              (genetic_algorithm_total pieces original_sequence
                 population_size mutation_rate grid_size elite_count
                 stagnation_threshold Htiles Href ltac:(lia) generations
                 (or_intror (conj Hpop Hn))))
    as (snaps & r' & -> & Hlen).
  eauto.
Qed.

Lemma genetic_algorithm_completes_witness :
  exists snaps,
    outcome (genetic_algorithm demo_pieces demo_sequence 5 5 (1 # 5) 2 2 2)
            (demo_rng 6) = Ok snaps /\
    length snaps = 5.
Proof.
  apply (genetic_algorithm_completes demo_pieces demo_sequence 5 5 (1 # 5) 2 2 2
           (demo_rng 6)); [| reflexivity | lia | lia].
  apply (bool_decide_unpack _). vm_compute. exact I.
Defined.


(** ** The best of a generation *)

Lemma exceeds_finite x best :
  finite x -> finite best -> exceeds x best = flt best x.
Proof. by intros [? ->] [? ->]. Qed.

Lemma flt_false_fle a b : finite a -> finite b -> flt a b = false -> fle b a.
Proof. intros [x ->] [y ->]. simpl. by rewrite Qltb_ge. Qed.

Lemma argmax_from_upper xs : forall pre best_index best i,
  i = length pre -> pre !! best_index = Some best ->
  Forall finite (pre ++ xs) ->
  (forall x, x ∈ pre -> fle x best) ->
  exists fb, (pre ++ xs) !! argmax_from best_index best i xs = Some fb /\
             forall x, x ∈ pre ++ xs -> fle x fb.
Proof.
  induction xs as [|x xs IH]; intros pre best_index best i Hi Hbest Hfin Hpre;
    simpl.
  - rewrite app_nil_r. eauto.
  - replace (pre ++ x :: xs) with ((pre ++ [x]) ++ xs) in *
      by by rewrite <- app_assoc.
    pose proof (lookup_lt_Some _ _ _ Hbest) as Hlt.
    assert (finite x /\ finite best) as [Hx Hb].
    { rewrite Forall_forall in Hfin. split; apply Hfin.
      - apply elem_of_app. left. apply elem_of_app. right. left.
      - apply elem_of_app. left. apply elem_of_app. left.
        by eapply list_elem_of_lookup_2. }
    rewrite (exceeds_finite _ _ Hx Hb).
    destruct (flt best x) eqn:Hex.
    + apply IH; [rewrite length_app; simpl; lia | | exact Hfin |].
      * subst i. rewrite lookup_app_r by lia. by rewrite Nat.sub_diag.
      * intros y Hy. apply elem_of_app in Hy as [Hy|Hy%list_elem_of_singleton].
        -- eapply fle_trans; [by apply Hpre | by apply flt_fle].
        -- subst y. destruct Hx as [q ->]. by apply fle_refl.
    + apply IH; [rewrite length_app; simpl; lia | | exact Hfin |].
      * by rewrite lookup_app_l.
      * intros y Hy. apply elem_of_app in Hy as [Hy|Hy%list_elem_of_singleton];
          [by apply Hpre | subst y; by apply flt_false_fle].
Qed.

Lemma argmax_upper xs best_index :
  argmax xs = Ok best_index -> Forall finite xs ->
  exists fb, xs !! best_index = Some fb /\ forall x, x ∈ xs -> fle x fb.
Proof.
  destruct xs as [|x xs]; simpl; [discriminate|]. intros [= <-] Hfin.
  apply (argmax_from_upper xs [x] 0 x 1); try done.
  intros y Hy%list_elem_of_singleton. subst y.
  apply Forall_cons in Hfin as [[q ->] _]. by apply fle_refl.
Qed.

(** X13.  The fitness recorded at a generation is at least the fitness of every
    chromosome of the population evaluated in that generation. *)
Theorem best_dominates pieces original_sequence population_size mutation_rate
    grid_size elite_count stagnation_threshold k r st' :
  Forall wf_tile pieces ->
  outcome (state_after pieces original_sequence population_size mutation_rate
             grid_size elite_count stagnation_threshold (S k)) r = Ok st' ->
  exists st r1 r' s,
    state_after pieces original_sequence population_size mutation_rate
                grid_size elite_count stagnation_threshold k r = Ok (st, r1) /\
    generation_step pieces original_sequence population_size mutation_rate
                    grid_size elite_count stagnation_threshold st r1
    = Ok (st', r') /\
    last (best_solutions st') = Some s /\
    snap_fitness s = global_best_fitness st' /\
    forall c, c ∈ population st ->
      exists f cp,
        calculate_fitness c pieces original_sequence grid_size = Ok (f, cp) /\
        fle f (snap_fitness s).
Proof.
  intros Hwf H. apply state_after_last in H as (st & r1 & r' & Hst & Hstep).
  assert (monotone_inv st) as (Hnan & _).
  { unfold state_after in Hst.
    apply bind_ok in Hst as (population & r0 & _ & Hrun).
    eapply monotone_run; [apply monotone_initial | exact Hrun]. }
  pose proof (generation_step_ok _ _ _ _ _ _ _ _ _ _ _ Hstep) as [].
  apply take_snapshot_ok in tr_snapshot as (c0 & n & -> & _ & ->).
  exists st, r1, r', (c0, best_fitness, n).
  split; [exact Hst|]. split; [exact Hstep|]. subst st'. simpl.
  split; [by rewrite last_snoc|]. split; [reflexivity|].
  intros c Hc. apply list_elem_of_lookup in Hc as [i Hi].
  destruct (evaluate_ok _ _ _ _ _ _ tr_evaluate) as (_ & _ & Heval).
  destruct (Heval _ _ Hi) as (f & cp & Hfit & Hf & _).
  exists f, cp. split; [exact Hfit|]. unfold snap_fitness. simpl.
  assert (Forall finite fitnesses) as Hfin.
  { apply Forall_forall. intros x Hx. apply list_elem_of_lookup in Hx as [j Hj].
    by eapply evaluate_finite. }
  destruct (argmax_upper _ _ tr_argmax Hfin) as (fb & Hfb & Hmax).
  assert (fle f fb) as Hle by (apply Hmax; by eapply list_elem_of_lookup_2).
  apply track_best_cases in tr_track as (fb' & Hfb' & Hcases).
  assert (fb' = fb) as -> by congruence.
  destruct Hcases as [(_ & _ & _ & -> & _)|(Hgt & _ & -> & _)]; [exact Hle|].
  eapply fle_trans; [exact Hle|].
  assert (finite fb) as [q ->]
    by (rewrite Forall_forall in Hfin; apply Hfin;
        by eapply list_elem_of_lookup_2).
  unfold fgt in Hgt. destruct (global_best_fitness st) as [|g|]; try done.
  simpl in *. by apply Qltb_ge.
Qed.

(** The fourth generation of the small run. *)
Lemma best_dominates_witness :
  exists st r1 r' s,
    state_after demo_pieces demo_sequence 5 (1 # 5) 2 2 2 3 (demo_rng 6)
    = Ok (st, r1) /\
    generation_step demo_pieces demo_sequence 5 (1 # 5) 2 2 2 st r1
    = Ok (demo_state, r') /\
    last (best_solutions demo_state) = Some s /\
    snap_fitness s = global_best_fitness demo_state /\
    forall c, c ∈ population st ->
      exists f cp,
        calculate_fitness c demo_pieces demo_sequence 2 = Ok (f, cp) /\
        fle f (snap_fitness s).
Proof.
  apply (best_dominates demo_pieces demo_sequence 5 (1 # 5) 2 2 2 3 (demo_rng 6)
           demo_state).
  - apply (bool_decide_unpack _). vm_compute. exact I.
  - vm_compute. reflexivity.
Defined.

(** ** The global best and the snapshots *)

(** X14.  After every generation over well-formed tiles the global best exists,
    sits at position 0 of the new population, has the recorded global-best
    fitness as its own fitness, and is the chromosome of the last
    snapshot. *)
Theorem best_kept_first pieces original_sequence population_size mutation_rate
    grid_size elite_count stagnation_threshold k r st :
  Forall wf_tile pieces ->
  outcome (state_after pieces original_sequence population_size mutation_rate
             grid_size elite_count stagnation_threshold (S k)) r = Ok st ->
  exists c cp n,
    global_best_chromo st = Some c /\
    population st !! 0 = Some c /\
    calculate_fitness c pieces original_sequence grid_size
    = Ok (global_best_fitness st, cp) /\
    last (best_solutions st) = Some (c, global_best_fitness st, n).
Proof.
  intros Hwf H. apply state_after_last in H as (st0 & r1 & r' & Hst & Hstep).
  pose proof (best_inv_after _ _ _ _ _ _ _ _ _ _ _ Hwf Hst) as Hinv.
  destruct (best_inv_step _ _ population_size mutation_rate _ elite_count
              stagnation_threshold Hwf _ _ _ _ Hinv Hstep)
    as ([_ Hbest] & _ & _ & _ & c & n & _ & _ & _ & _ & Hc & Hsnaps).
  rewrite Hc in Hbest. destruct Hbest as (Hfirst & cp & Hfit).
  exists c, cp, n. rewrite Hsnaps, last_snoc. auto.
Qed.

Lemma best_kept_first_witness :
  exists c cp n,
    global_best_chromo demo_state = Some c /\
    population demo_state !! 0 = Some c /\
    calculate_fitness c demo_pieces demo_sequence 2
    = Ok (global_best_fitness demo_state, cp) /\
    last (best_solutions demo_state) = Some (c, global_best_fitness demo_state, n).
Proof.
  apply (best_kept_first demo_pieces demo_sequence 5 (1 # 5) 2 2 2 3 (demo_rng 6)
           demo_state).
  - apply (bool_decide_unpack _). vm_compute. exact I.
  - vm_compute. reflexivity.
Defined.

(** X15.  The fitness of every snapshot of a run over well-formed tiles is the
    fitness [calculate_fitness] gives its chromosome. *)
Theorem snapshot_fitness_recomputable pieces original_sequence population_size
    generations mutation_rate grid_size elite_count stagnation_threshold
    r snaps s :
  Forall wf_tile pieces ->
  outcome (genetic_algorithm pieces original_sequence population_size
             generations mutation_rate grid_size elite_count
             stagnation_threshold) r = Ok snaps ->
  s ∈ snaps ->
  exists cp,
    calculate_fitness (snap_chromosome s) pieces original_sequence grid_size
    = Ok (snap_fitness s, cp).
Proof.
  intros Hwf H Hs.
  pose proof (snapshots_consistent _ _ _ _ _ _ _ Hwf _ _ _ H) as Hall.
  rewrite Forall_forall in Hall. destruct (Hall s Hs) as (cp & Hfit & _).
  eauto.
Qed.

Lemma snapshot_fitness_recomputable_witness :
  exists cp,
    calculate_fitness (snap_chromosome demo_snapshot) demo_pieces demo_sequence 2
    = Ok (snap_fitness demo_snapshot, cp).
Proof.
  apply (snapshot_fitness_recomputable demo_pieces demo_sequence 5 5 (1 # 5)
           2 2 2 (demo_rng 6) demo_snaps demo_snapshot).
  - apply (bool_decide_unpack _). vm_compute. exact I.
  - vm_compute. reflexivity.
  - apply (list_elem_of_lookup_2 _ 3). vm_compute. reflexivity.
Defined.

(** ** Elitism without diversification *)

Lemma descending_cons x l :
  descending (x :: l) <->
  (forall b, b ∈ l -> flt x.1 b.1 = false) /\ descending l.
Proof.
  split.
  - intros H. split.
    + intros b Hb. apply list_elem_of_lookup in Hb as [j Hj].
      apply (H 0 (S j) x b); [lia | done | done].
    + intros i j a b Hij Ha Hb. apply (H (S i) (S j) a b); [lia | done | done].
  - intros [Hx Hl] i j a b Hij Ha Hb. destruct j as [|j]; [lia|]. simpl in Hb.
    destruct i as [|i]; simpl in Ha.
    + injection Ha as <-. apply Hx. by eapply list_elem_of_lookup_2.
    + apply (Hl i j a b); [lia | done | done].
Qed.

Lemma insert_desc_perm x l : insert_desc x l ≡ₚ x :: l.
Proof.
  induction l as [|y l IH]; simpl; [done|].
  destruct (flt x.1 y.1); [|done]. rewrite IH. apply Permutation_swap.
Qed.

Lemma insert_desc_descending x l :
  finite x.1 -> Forall (fun y => finite y.1) l ->
  descending l -> descending (insert_desc x l).
Proof.
  intros [qx Hx]. induction l as [|y l IH]; intros Hfin Hl; simpl.
  - apply descending_cons. split; [by intros b Hb%elem_of_nil|].
    intros i j a b _ Ha. by rewrite lookup_nil in Ha.
  - apply Forall_cons in Hfin as [[qy Hy] Hfin].
    apply descending_cons in Hl as [Hyl Hl].
    destruct (flt x.1 y.1) eqn:Hxy.
    + apply descending_cons. split; [|by apply IH].
      intros b Hb. rewrite insert_desc_perm in Hb.
      apply elem_of_cons in Hb as [->|Hb]; [|by apply Hyl].
      rewrite Hx, Hy in *. simpl in *. apply Qltb_lt in Hxy.
      apply Qltb_ge. lra.
    + apply descending_cons. split; [|by apply descending_cons].
      intros b Hb. apply elem_of_cons in Hb as [->|Hb]; [exact Hxy|].
      specialize (Hyl b Hb). rewrite Forall_forall in Hfin.
      destruct (Hfin b Hb) as [qb Hqb].
      rewrite Hx, Hy, Hqb in *. simpl in *.
      apply Qltb_ge in Hxy, Hyl. apply Qltb_ge. lra.
Qed.

Lemma sorted_desc_descending pairs :
  Forall (fun y => finite y.1) pairs -> descending (sorted_desc pairs).
Proof.
  induction pairs as [|x pairs IH]; intros Hfin; simpl.
  - intros i j a b _ Ha. by rewrite lookup_nil in Ha.
  - apply Forall_cons in Hfin as [Hx Hfin].
    apply insert_desc_descending; [exact Hx | | by apply IH].
    apply Forall_forall. intros y Hy. rewrite sorted_desc_perm in Hy.
    rewrite Forall_forall in Hfin. by apply Hfin.
Qed.

Lemma slice_to_take {A} (l : list A) e : exists t, slice_to l e = take t l.
Proof. unfold slice_to. destruct (decide _); eauto. Qed.

(** X16.  When the elites are taken from the population that was evaluated (no
    diversification in between), no chromosome left out is fitter than an
    elite. *)
Theorem elites_fittest pieces original_sequence grid_size population fitnesses
    counts elite_count e m :
  Forall wf_tile pieces ->
  evaluate pieces original_sequence grid_size population
  = Ok (fitnesses, counts) ->
  e ∈ elites elite_count fitnesses population ->
  m ∈ population ->
  m ∉ elites elite_count fitnesses population ->
  exists fe fm cpe cpm,
    calculate_fitness e pieces original_sequence grid_size = Ok (fe, cpe) /\
    calculate_fitness m pieces original_sequence grid_size = Ok (fm, cpm) /\
    fle fm fe.
Proof.
  intros Hwf He Helite Hm Hout.
  destruct (evaluate_ok _ _ _ _ _ _ He) as (Hlf & _ & Heval).
  set (sorted := sorted_desc (zip fitnesses population)) in *.
  assert (forall f c, (f, c) ∈ sorted ->
            finite f /\
            exists cp, calculate_fitness c pieces original_sequence grid_size
                       = Ok (f, cp)) as Hpairs.
  { intros f c Hin. unfold sorted in Hin. rewrite sorted_desc_perm in Hin.
    apply list_elem_of_lookup in Hin as [i Hi].
    apply lookup_zip_Some in Hi as [Hf Hc].
    destruct (Heval _ _ Hc) as (f' & cp & Hfit & Hf' & _).
    assert (f' = f) as -> by congruence.
    split; [by eapply evaluate_finite | eauto]. }
  assert (descending sorted) as Hdesc.
  { apply sorted_desc_descending, Forall_forall. intros [f c] Hin.
    rewrite <- sorted_desc_perm in Hin. by destruct (Hpairs f c Hin). }
  unfold elites in Helite, Hout. fold sorted in Helite, Hout.
  destruct (slice_to_take (snd <$> sorted) elite_count) as [t Ht].
  rewrite Ht in Helite, Hout. rewrite <- fmap_take in Helite, Hout.
  apply list_elem_of_fmap in Helite as ([fe e'] & -> & Hin).
  apply list_elem_of_lookup in Hin as [i Hi].
  apply lookup_take_Some in Hi as [Hi Hit].
  apply list_elem_of_lookup in Hm as [k Hk].
  destruct (Heval _ _ Hk) as (fm & cpm & Hfitm & Hfm & _).
  assert ((fm, m) ∈ sorted) as Hmin.
  { unfold sorted. rewrite sorted_desc_perm.
    apply (list_elem_of_lookup_2 _ k). by apply lookup_zip_Some. }
  apply list_elem_of_lookup in Hmin as [j Hj].
  assert (t <= j) as Htj.
  { destruct (decide (t <= j)) as [|Hlt]; [done|]. exfalso. apply Hout.
    apply list_elem_of_fmap. exists (fm, m). split; [done|].
    apply (list_elem_of_lookup_2 _ j). apply lookup_take_Some. split; [done|lia]. }
  destruct (Hpairs fe e' ltac:(by eapply list_elem_of_lookup_2))
    as [Hfe [cpe Hfite]].
  destruct (Hpairs fm m ltac:(by eapply list_elem_of_lookup_2)) as [Hfmf _].
  exists fe, fm, cpe, cpm. split; [exact Hfite|]. split; [exact Hfitm|].
  apply flt_false_fle; [done | done |].
  apply (Hdesc i j (fe, e') (fm, m)); [lia | done | done].
Qed.

(** The second of two elites among four arrangements, against the last
    arrangement, which is left out. *)
Lemma elites_fittest_witness :
  exists fe fm cpe cpm,
    calculate_fitness [1; 0; 2; 3] demo_pieces demo_sequence 2 = Ok (fe, cpe) /\
    calculate_fitness [2; 3; 0; 1] demo_pieces demo_sequence 2 = Ok (fm, cpm) /\
    fle fm fe.
Proof.
  apply (elites_fittest demo_pieces demo_sequence 2 demo_population
           demo_fitnesses demo_counts 2 [1; 0; 2; 3] [2; 3; 0; 1]).
  - apply (bool_decide_unpack _). vm_compute. exact I.
  - vm_compute. reflexivity.
  - apply (list_elem_of_lookup_2 _ 1). vm_compute. reflexivity.
  - apply (list_elem_of_lookup_2 _ 3). vm_compute. reflexivity.
  - apply (bool_decide_unpack _). vm_compute. exact I.
Defined.


(** ** assemble_image: any arrangement *)

Lemma mod_in_cell p k x : 0 < p -> x / p = k -> x - k * p = x mod p.
Proof.
  intros Hp <-. pose proof (Nat.div_mod_eq x p). lia.
Qed.

Section Mosaic.

Variable c : chromosome.
Variable pieces : list Image.
Variable n pw ph : nat.
Hypothesis grid_pos : 0 < n.
Hypothesis pw_pos : 0 < pw.
Hypothesis ph_pos : 0 < ph.
Hypothesis tile_size :
  Forall (fun p => im_width p = pw /\ im_height p = ph) pieces.
Hypothesis tile_ids :
  forall k, k < n * n -> exists t, c !! k = Some t /\ t < length pieces.

Lemma piece_at_cell i j :
  i < n -> j < n ->
  exists p, piece_at pieces c (i * n + j) = Ok p /\
            im_width p = pw /\ im_height p = ph.
Proof.
  intros Hi Hj. destruct (tile_ids (i * n + j)) as (t & Ht & Hlt); [nia|].
  destruct (lookup_lt_is_Some_2 pieces t Hlt) as [p Hp].
  exists p. unfold piece_at, getitem. rewrite Ht. simpl. rewrite Hp.
  split; [reflexivity|]. rewrite Forall_forall in tile_size.
  apply tile_size. by eapply list_elem_of_lookup_2.
Qed.

Lemma paste_mosaic done i j p :
  i < n -> j < n ->
  piece_at pieces c (i * n + j) = Ok p ->
  im_width p = pw -> im_height p = ph ->
  paste (mosaic_upto c pieces n pw ph done) p (j * pw) (i * ph)
  = mosaic_upto c pieces n pw ph (done ++ [(i, j)]).
Proof.
  intros Hi Hj Hp Hw Hh. unfold paste, mosaic_upto. simpl.
  apply raster_ext. intros x y Hx Hy. rewrite Hw, Hh.
  destruct (decide (j * pw <= x < j * pw + pw /\ i * ph <= y < i * ph + ph))
    as [Hin|Hout].
  - rewrite bool_decide_eq_true_2 by exact Hin.
    pose proof (proj1 (in_cell pw ph i j x y pw_pos ph_pos) Hin) as Hcell.
    rewrite bool_decide_eq_true_2
      by (rewrite Hcell; apply elem_of_app; right; left).
    injection Hcell as Hy' Hx'. unfold mosaic_pixel. rewrite Hy', Hx', Hp.
    by rewrite (mod_in_cell pw j x), (mod_in_cell ph i y).
  - rewrite bool_decide_eq_false_2 by exact Hout.
    rewrite raster_getpixel by done.
    assert ((y / ph, x / pw) <> (i, j)) as Hne
      by (intros Heq; apply Hout; by apply in_cell).
    rewrite (bool_decide_ext ((y / ph, x / pw) ∈ done ++ [(i, j)])
                             ((y / ph, x / pw) ∈ done)); [reflexivity|].
    rewrite elem_of_app, list_elem_of_singleton. tauto.
Qed.

Lemma mosaic_all : mosaic_upto c pieces n pw ph (cells n) = mosaic c pieces n pw ph.
Proof.
  unfold mosaic_upto, mosaic. apply raster_ext. intros x y Hx Hy.
  rewrite bool_decide_eq_true_2; [reflexivity|].
  apply cells_elem_of; apply Nat.Div0.div_lt_upper_bound; lia.
Qed.

Lemma assemble_mosaic :
  assemble_image c pieces (Z.of_nat n) = Ok (mosaic c pieces n pw ph).
Proof.
  unfold assemble_image.
  destruct (tile_ids 0) as (t0 & _ & Ht0); [nia|].
  destruct (lookup_lt_is_Some_2 pieces 0) as [p0 Hp0]; [lia|].
  assert (im_width p0 = pw /\ im_height p0 = ph) as [Hw0 Hh0].
  { rewrite Forall_forall in tile_size. apply tile_size.
    by eapply list_elem_of_lookup_2. }
  unfold getitem at 1. rewrite Hp0. cbn [rbind]. rewrite Hw0, Hh0.
  unfold Image_new. rewrite decide_False by lia. cbn [rbind].
  rewrite Nat2Z.id.
  assert (raster RGB (Z.to_nat (Z.of_nat pw * Z.of_nat n))
                 (Z.to_nat (Z.of_nat ph * Z.of_nat n)) (fun _ _ => black RGB)
          = mosaic_upto c pieces n pw ph []) as ->.
  { unfold mosaic_upto.
    replace (Z.to_nat (Z.of_nat pw * Z.of_nat n)) with (pw * n) by lia.
    replace (Z.to_nat (Z.of_nat ph * Z.of_nat n)) with (ph * n) by lia.
    apply raster_ext. intros x y _ _.
    rewrite bool_decide_eq_false_2; [reflexivity | apply not_elem_of_nil]. }
  destruct (foldR_prefix
              (fun assembled_image '(i, j) =>
                 rbind (piece_at pieces c (i * n + j)) (fun piece =>
                 Ok (paste assembled_image piece (j * pw) (i * ph))))
              (fun done img => img = mosaic_upto c pieces n pw ph done)
              (cells n) [] (mosaic_upto c pieces n pw ph []) eq_refl)
    as (img & -> & ->).
  - intros done [i j] s Hij ->. apply cells_elem in Hij as [Hi Hj].
    destruct (piece_at_cell i j Hi Hj) as (p & Hp & Hw & Hh).
    rewrite Hp. simpl. eexists. split; [reflexivity|]. by apply paste_mosaic.
  - rewrite app_nil_l. f_equal. apply mosaic_all.
Qed.

End Mosaic.

Lemma assemble_image_total c pieces grid_size pw ph :
  (1 <= grid_size)%Z -> 0 < pw -> 0 < ph ->
  Forall (fun p => im_width p = pw /\ im_height p = ph) pieces ->
  (forall k, k < Z.to_nat grid_size * Z.to_nat grid_size ->
             exists t, c !! k = Some t /\ t < length pieces) ->
  assemble_image c pieces grid_size
  = Ok (mosaic c pieces (Z.to_nat grid_size) pw ph).
Proof.
  intros Hg Hpw Hph Hsize Hids.
  rewrite <- (Z2Nat.id grid_size) at 1 by lia.
  apply assemble_mosaic; try done. lia.
Qed.

(** X17.  Over tiles of one positive size [(pw, ph)], for a grid of at least one
    tile and a chromosome whose first [n]² genes are tile ids,
    [assemble_image] returns the RGB image of [n pw] by [n ph] pixels that
    shows, in the cell of row [i] and column [j], the tile of id
    [c[i * n + j]] (converted to RGB). *)
Theorem assemble_image_mosaic c pieces grid_size pw ph :
  (1 <= grid_size)%Z -> 0 < pw -> 0 < ph ->
  Forall (fun p => im_width p = pw /\ im_height p = ph) pieces ->
  (forall k, k < Z.to_nat grid_size * Z.to_nat grid_size ->
             exists t, c !! k = Some t /\ t < length pieces) ->
  assemble_image c pieces grid_size
  = Ok (mosaic c pieces (Z.to_nat grid_size) pw ph) /\
  forall x y, x < pw * Z.to_nat grid_size -> y < ph * Z.to_nat grid_size ->
    getpixel (mosaic c pieces (Z.to_nat grid_size) pw ph) x y
    = match piece_at pieces c (y / ph * Z.to_nat grid_size + x / pw) with
      | Ok p => convert_pixel (im_mode p) RGB (getpixel p (x mod pw) (y mod ph))
      | Raise _ => black RGB
      end.
Proof.
  intros Hg Hpw Hph Hsize Hids. split.
  - by apply assemble_image_total.
  - intros x y Hx Hy. unfold mosaic. by rewrite raster_getpixel.
Qed.

(** The four tiles of the gradient in the arrangement [3; 0; 2; 1]. *)
Lemma assemble_image_mosaic_witness :
  assemble_image demo_parent1 demo_pieces 2
  = Ok (mosaic demo_parent1 demo_pieces 2 2 2) /\
  forall x y, x < 2 * 2 -> y < 2 * 2 ->
    getpixel (mosaic demo_parent1 demo_pieces 2 2 2) x y
    = match piece_at demo_pieces demo_parent1 (y / 2 * 2 + x / 2) with
      | Ok p => convert_pixel (im_mode p) RGB (getpixel p (x mod 2) (y mod 2))
      | Raise _ => black RGB
      end.
Proof.
  apply (assemble_image_mosaic demo_parent1 demo_pieces 2%Z 2 2); try lia.
  - apply (bool_decide_unpack _). vm_compute. exact I.
  - intros k Hk. change (Z.to_nat 2 * Z.to_nat 2) with 4 in Hk.
    destruct k as [|[|[|[|k]]]]; [| | | |lia]; eexists;
      (split; [reflexivity | vm_compute; lia]).
Defined.

(** ** assemble_image: the size of the result, and its errors *)

(** X18.  Whatever the tiles and the chromosome, an image [assemble_image]
    returns is an RGB image whose size is the size of the first tile times
    the number of tiles per side. *)
Theorem assemble_image_size c pieces grid_size img :
  assemble_image c pieces grid_size = Ok img ->
  exists piece0,
    pieces !! 0 = Some piece0 /\
    im_mode img = RGB /\
    im_width img = im_width piece0 * Z.to_nat grid_size /\
    im_height img = im_height piece0 * Z.to_nat grid_size /\
    rectangular img.
Proof.
  intros H. unfold assemble_image in H.
  apply rbind_ok in H as (piece0 & Hp0 & H). apply getitem_ok in Hp0.
  apply rbind_ok in H as (canvas & Hnew & H).
  exists piece0. split; [exact Hp0|].
  unfold Image_new in Hnew. destruct (decide _) as [|Hpos]; [discriminate|].
  injection Hnew as <-.
  set (w := im_width piece0 * Z.to_nat grid_size).
  set (h := im_height piece0 * Z.to_nat grid_size).
  assert (rspec (foldR
            (fun assembled_image '(i, j) =>
               rbind (piece_at pieces c (i * Z.to_nat grid_size + j))
                 (fun piece =>
                    Ok (paste assembled_image piece (j * im_width piece0)
                              (i * im_height piece0))))
            (raster RGB (Z.to_nat (Z.of_nat (im_width piece0) * grid_size))
               (Z.to_nat (Z.of_nat (im_height piece0) * grid_size))
               (fun _ _ => black RGB))
            (cells (Z.to_nat grid_size)))
          (fun im => im_mode im = RGB /\ im_width im = w /\ im_height im = h /\
                     rectangular im) anything) as Hspec.
  { apply foldR_spec.
    - intros im [i j] (Hm & Hw & Hh & _) _.
      destruct (piece_at _ _ _) as [piece|]; simpl; [|done].
      split; [exact Hm|]. split; [exact Hw|]. split; [exact Hh|].
      apply raster_rectangular.
    - split; [reflexivity|]. simpl. unfold w, h.
      split; [nia|]. split; [nia|]. apply raster_rectangular. }
  rewrite H in Hspec. exact Hspec.
Qed.

Lemma assemble_image_size_witness :
  exists piece0,
    demo_pieces !! 0 = Some piece0 /\
    im_mode (mosaic demo_parent1 demo_pieces 2 2 2) = RGB /\
    im_width (mosaic demo_parent1 demo_pieces 2 2 2)
    = im_width piece0 * Z.to_nat 2 /\
    im_height (mosaic demo_parent1 demo_pieces 2 2 2)
    = im_height piece0 * Z.to_nat 2 /\
    rectangular (mosaic demo_parent1 demo_pieces 2 2 2).
Proof.
  apply (assemble_image_size demo_parent1 demo_pieces 2).
  vm_compute. reflexivity.
Defined.


Lemma cells_split n k :
  k < n * n ->
  exists i j,
    cells n = take k (cells n) ++ (i, j) :: drop (S k) (cells n) /\
    i * n + j = k /\
    forall i' j', (i', j') ∈ take k (cells n) -> i' * n + j' < k.
Proof.
  intros Hk.
  destruct (lookup_lt_is_Some_2 (cells n) k) as [[i j] Hij];
    [by rewrite cells_length|].
  assert (forall m i' j', cells n !! m = Some (i', j') -> i' * n + j' = m)
    as Hindex.
  { intros m i' j' Hm.
    assert (((fun '(i, j) => i * n + j) <$> cells n) !! m = Some (i' * n + j'))
      as H by (by rewrite list_lookup_fmap, Hm).
    rewrite cells_index in H. apply lookup_seq in H. lia. }
  exists i, j. split; [|split].
  - by rewrite <- (take_drop_middle _ _ _ Hij) at 1.
  - by apply Hindex.
  - intros i' j' Hin. apply list_elem_of_lookup in Hin as [m Hm].
    apply lookup_take_Some in Hm as [Hm Hlt].
    rewrite (Hindex _ _ _ Hm). exact Hlt.
Qed.

(** X19.  [assemble_image] fails with IndexError without tiles, with ValueError
    for a negative [grid_size] over a tile that is not empty (the size of
    the new image is negative), and with IndexError when the chromosome
    has fewer genes than the grid has cells. *)
Theorem assemble_image_errors c pieces grid_size :
  assemble_image c [] grid_size = Raise IndexError /\
  (forall piece0,
      pieces !! 0 = Some piece0 -> (grid_size < 0)%Z ->
      0 < im_width piece0 \/ 0 < im_height piece0 ->
      assemble_image c pieces grid_size = Raise ValueError) /\
  (pieces <> [] -> Forall (fun t => t < length pieces) c ->
   length c < Z.to_nat grid_size * Z.to_nat grid_size ->
   assemble_image c pieces grid_size = Raise IndexError).
Proof.
  split; [reflexivity|]. split.
  - intros piece0 Hp0 Hg Hsize. unfold assemble_image, getitem.
    rewrite Hp0. cbn [rbind]. unfold Image_new.
    rewrite decide_True by nia. reflexivity.
  - intros Hne Hids Hlen. unfold assemble_image.
    destruct (lookup_lt_is_Some_2 pieces 0) as [piece0 Hp0];
      [destruct pieces; [done | simpl; lia]|].
    unfold getitem at 1. rewrite Hp0.
    cbn [rbind]. unfold Image_new. rewrite decide_False by nia. cbn [rbind].
    destruct (cells_split _ _ Hlen) as (i & j & Hcells & Hij & Hbefore).
    rewrite Hcells, foldR_app.
    set (canvas := raster _ _ _ _).
    destruct (foldR_prefix
                (fun assembled_image '(i, j) =>
                   rbind (piece_at pieces c (i * Z.to_nat grid_size + j))
                     (fun piece =>
                        Ok (paste assembled_image piece (j * im_width piece0)
                                  (i * im_height piece0))))
                (fun _ _ => True)
                (take (length c) (cells (Z.to_nat grid_size))) [] canvas I)
      as (img & -> & _).
    + intros done [i' j'] s Hin _. apply Hbefore in Hin.
      destruct (lookup_lt_is_Some_2 c _ Hin) as [t Ht].
      rewrite Forall_forall in Hids.
      destruct (lookup_lt_is_Some_2 pieces t) as [p Hp];
        [apply Hids; by eapply list_elem_of_lookup_2|].
      unfold piece_at, getitem. rewrite Ht. simpl. rewrite Hp. simpl. eauto.
    + cbn [rbind foldR]. unfold piece_at, getitem.
      rewrite lookup_ge_None_2 by lia. reflexivity.
Qed.

(** No tile; a negative grid; three genes for four cells. *)
Lemma assemble_image_errors_witness :
  assemble_image [0; 1; 2] [] 2 = Raise IndexError /\
  assemble_image demo_parent1 demo_pieces (-2) = Raise ValueError /\
  assemble_image [0; 1; 2] demo_pieces 2 = Raise IndexError.
Proof.
  split; [exact (proj1 (assemble_image_errors [0; 1; 2] [] 2))|]. split.
  - destruct (assemble_image_errors demo_parent1 demo_pieces (-2))
      as (_ & Hneg & _).
    apply (Hneg (demo_tile 0)); [reflexivity | lia | left; simpl; lia].
  - destruct (assemble_image_errors [0; 1; 2] demo_pieces 2) as (_ & _ & Hshort).
    apply Hshort; [discriminate | | simpl; lia].
    apply (bool_decide_unpack _). vm_compute. exact I.
Defined.

(** ** solve_puzzle: requests that are served *)

Lemma wf_image_rectangular im : wf_image im -> rectangular im.
Proof.
  intros [Hh Hrows]. split; [exact Hh|].
  eapply Forall_impl; [exact Hrows|]. by intros row [Hw _].
Qed.

Lemma raster_wf m w h f :
  (forall x y, x < w -> y < h -> wf_pixel m (f x y)) ->
  wf_image (raster m w h f).
Proof.
  intros Hf. split; simpl; [by rewrite length_fmap, length_seq|].
  apply Forall_fmap, Forall_forall. intros y Hy%elem_of_seq. simpl.
  split; [by rewrite length_fmap, length_seq|].
  apply Forall_fmap, Forall_forall. intros x Hx%elem_of_seq. simpl.
  apply Hf; lia.
Qed.

Lemma crop_wf im x0 y0 x1 y1 :
  wf_image im -> x1 <= im_width im -> y1 <= im_height im ->
  wf_image (crop im x0 y0 x1 y1).
Proof.
  intros Hwf Hx Hy. apply raster_wf. intros x y Hxw Hyh.
  apply getpixel_wf; [exact Hwf | lia | lia].
Qed.

Lemma Image_resize_wf resample im w h resized :
  byte_filter resample -> wf_image im ->
  Image_resize resample im w h = Ok resized -> wf_image resized.
Proof.
  intros Hbytes Hwf. unfold Image_resize.
  destruct (decide _); [by intros [= <-]|].
  destruct (decide _); [discriminate|]. intros [= <-]. by apply Hbytes.
Qed.

Lemma floor_div_pos w g : (1 <= g <= w)%Z -> (1 <= w / g)%Z.
Proof. intros H. apply Z.div_le_lower_bound; lia. Qed.

(** The tiles of a well-formed multi-band image form a tile set. *)
Lemma split_image_tile_set resample img grid_size :
  resample_contract resample -> byte_filter resample ->
  wf_image img -> im_mode img <> L ->
  (1 <= grid_size <= Z.of_nat (im_width img `min` im_height img))%Z ->
  exists pieces,
    split_image resample img grid_size
    = Ok (pieces, seq 0 (Z.to_nat grid_size * Z.to_nat grid_size)) /\
    length pieces = Z.to_nat grid_size * Z.to_nat grid_size /\
    tile_set (Z.to_nat grid_size) pieces /\
    Forall (fun p =>
              im_width p = Z.to_nat (Z.of_nat (im_width img) / grid_size) /\
              im_height p = Z.to_nat (Z.of_nat (im_height img) / grid_size))
           pieces.
Proof.
  intros Hres Hbytes Hwf Hmode Hgrid.
  set (n := Z.to_nat grid_size).
  set (w := Z.of_nat (im_width img)). set (h := Z.of_nat (im_height img)).
  pose proof (floor_div_pos w grid_size ltac:(unfold w; lia)) as Hpw.
  pose proof (floor_div_pos h grid_size ltac:(unfold h; lia)) as Hph.
  destruct (Image_resize_total resample img (w / grid_size * grid_size)
              (h / grid_size * grid_size)) as [resized Hresized]; [nia | nia |].
  pose proof (wf_image_rectangular _ Hwf) as Hrect.
  destruct (Image_resize_ok _ _ _ _ _ Hres Hrect Hresized)
    as (Hm & Hw & Hh & _).
  pose proof (Image_resize_wf _ _ _ _ _ Hbytes Hwf Hresized) as Hrwf.
  destruct (split_image resample img grid_size) as [[pieces sequence]|e] eqn:Hs.
  2:{ unfold split_image in Hs. rewrite decide_False in Hs by lia.
      fold w h in Hs. by rewrite Hresized in Hs. }
  destruct (split_image_ok _ _ _ _ _ Hs) as [Hlen ->]. fold n in Hlen.
  exists pieces. rewrite Hlen. split; [reflexivity|]. split; [reflexivity|].
  unfold split_image in Hs. rewrite decide_False in Hs by lia.
  fold w h n in Hs. rewrite Hresized in Hs. cbn [rbind] in Hs.
  injection Hs as Hpieces.
  assert (Forall (fun p => wf_tile p /\ im_mode p = im_mode img /\
                           im_width p = Z.to_nat (w / grid_size) /\
                           im_height p = Z.to_nat (h / grid_size)) pieces)
    as Hall.
  { rewrite <- Hpieces. apply Forall_fmap, Forall_forall.
    intros [i j] Hij. apply cells_elem in Hij as [Hi Hj]. fold n in Hi, Hj.
    simpl.
    split; [|split; [exact Hm | split; lia]].
    split; [|simpl; lia].
    apply crop_wf; [exact Hrwf | nia | nia]. }
  split; [|eapply Forall_impl; [exact Hall|]; by intros p (_ & _ & ? & ?)].
  split; [eapply Forall_impl; [exact Hall|]; by intros p [? _]|].
  split; [|by rewrite Hlen].
  apply Forall_forall. intros p Hp. rewrite Forall_forall in Hall.
  destruct (Hall p Hp) as (_ & Hpm & Hpw' & Hph').
  split; [congruence|]. apply Forall_forall. intros q Hq.
  destruct (Hall q Hq) as (_ & Hqm & Hqw & Hqh).
  unfold same_shape. split; [congruence|]. split; congruence.
Qed.

Lemma black_wf m : wf_pixel m (black m).
Proof.
  unfold black. split; [by rewrite length_replicate|].
  apply Forall_replicate. lia.
Qed.

(** Outside an image [getpixel] reads black. *)
Lemma getpixel_bytes im x y :
  wf_image im -> wf_pixel (im_mode im) (getpixel im x y).
Proof.
  intros [_ Hrows]. unfold getpixel.
  destruct (im_rows im !! y) as [row|] eqn:Hrow.
  - rewrite Forall_forall in Hrows.
    destruct (Hrows row ltac:(by eapply list_elem_of_lookup_2)) as [_ Hpix].
    change (default [] (Some row)) with row.
    destruct (row !! x) as [p|] eqn:Hp; [|exact (black_wf _)].
    rewrite Forall_forall in Hpix. apply Hpix. by eapply list_elem_of_lookup_2.
  - change (default [] None !! x) with (@nil pixel !! x).
    rewrite lookup_nil. exact (black_wf _).
Qed.

Lemma nearest_bytes : byte_filter nearest.
Proof.
  intros im w h Hwf. apply raster_wf. intros x y _ _.
  by apply getpixel_bytes.
Qed.

Lemma permutation_ids n (c : chromosome) :
  is_permutation n c ->
  forall k, k < n -> exists t, c !! k = Some t /\ t < n.
Proof.
  intros Hc k Hk.
  destruct (lookup_lt_is_Some_2 c k) as [t Ht];
    [by rewrite (is_permutation_length _ _ Hc)|].
  exists t. split; [exact Ht|].
  assert (t ∈ seq 0 n) as Hin
    by (rewrite <- Hc; by eapply list_elem_of_lookup_2).
  apply elem_of_seq in Hin. lia.
Qed.

(** What a served request computes: the tiles, the snapshots of the run
    and, for each snapshot, the entry of its generation. *)
Lemma solve_puzzle_response resample img grid_size population_size generations
    mutation_rate r :
  resample_contract resample -> byte_filter resample ->
  wf_image img -> im_mode img <> L ->
  (1 <= grid_size <= Z.of_nat (im_width img `min` im_height img))%Z ->
  (1 <= population_size)%Z ->
  (2 <= grid_size \/ population_size <= 10)%Z ->
  let n := Z.to_nat grid_size in
  let pw := Z.to_nat (Z.of_nat (im_width img) / grid_size) in
  let ph := Z.to_nat (Z.of_nat (im_height img) / grid_size) in
  exists pieces snaps response,
    split_image resample img grid_size = Ok (pieces, seq 0 (n * n)) /\
    tile_set n pieces /\
    outcome (genetic_algorithm pieces (seq 0 (n * n)) population_size
               generations mutation_rate grid_size 10 20) r = Ok snaps /\
    length snaps = Z.to_nat generations /\
    outcome (solve_puzzle resample img grid_size population_size generations
                          mutation_rate) r = Ok response /\
    Forall2 (fun (x : nat * snapshot) (entry : rendered) =>
               entry = (x.1, snap_fitness x.2, snap_count x.2,
                        mosaic (snap_chromosome x.2) pieces n pw ph) /\
               is_permutation (n * n) (snap_chromosome x.2))
            (imap pair snaps) response.
Proof.
  intros Hres Hbytes Hwf Hmode Hgrid Hpop Hserved n pw ph.
  destruct (split_image_tile_set _ _ _ Hres Hbytes Hwf Hmode Hgrid)
    as (pieces & Hsplit & Hlen & Htiles & Hsizes).
  fold n pw ph in Hsplit, Hlen, Htiles, Hsizes.
  exists pieces.
  pose proof (floor_div_pos (Z.of_nat (im_width img)) grid_size ltac:(lia))
    as Hpw.
  pose proof (floor_div_pos (Z.of_nat (im_height img)) grid_size ltac:(lia))
    as Hph.
  assert (breedable (length pieces) population_size 10) as Hbreed.
  { destruct (decide (population_size <= 10)%Z); [by left | right].
    split; [lia | rewrite Hlen; unfold n; nia]. }
  destruct (mspec_total _ _ r
              (genetic_algorithm_total pieces (seq 0 (n * n)) population_size
                 mutation_rate grid_size 10 20 Htiles
                 ltac:(by rewrite Hlen) Hpop generations Hbreed))
    as (snaps & r1 & Hga & Hsnaps).
  assert (outcome (genetic_algorithm pieces (seq 0 (n * n)) population_size
                     generations mutation_rate grid_size 10 20) r = Ok snaps)
    as Hout by (unfold outcome; by rewrite Hga).
  assert (Forall (fun s => is_permutation (n * n) (snap_chromosome s)) snaps)
    as Hperms.
  { pose proof Hout as Hout'.
    apply genetic_algorithm_ok in Hout' as (st & Hst & ->).
    pose proof (perm_inv_after _ _ _ _ _ _ _ _ _ _ Hst) as (_ & _ & Hp).
    by rewrite Hlen in Hp. }
  assert (rspec
            (mapR (fun '(index, (c, fitness, correct_positions)) =>
                     rbind (assemble_image c pieces grid_size)
                       (fun solved_image =>
                          Ok (index, fitness, correct_positions, solved_image)))
                  (imap pair snaps))
            (Forall2 (fun (x : nat * snapshot) (entry : rendered) =>
                        entry = (x.1, snap_fitness x.2, snap_count x.2,
                                 mosaic (snap_chromosome x.2) pieces n pw ph) /\
                        is_permutation (n * n) (snap_chromosome x.2))
                     (imap pair snaps))
            nothing) as Hmap.
  { apply mapR_spec. intros [index [[c f] cnt]] Hin.
    assert (is_permutation (n * n) c) as Hc.
    { apply list_elem_of_lookup in Hin as [i Hi].
      rewrite list_lookup_imap in Hi.
      destruct (snaps !! i) as [s|] eqn:Hs; [|done].
      injection Hi as _ ->. rewrite Forall_forall in Hperms.
      apply (Hperms (c, f, cnt)). by eapply list_elem_of_lookup_2. }
    assert (assemble_image c pieces grid_size = Ok (mosaic c pieces n pw ph))
      as ->.
    { apply assemble_image_total;
        [lia | unfold pw; lia | unfold ph; lia | exact Hsizes
         | rewrite Hlen; by apply permutation_ids]. }
    simpl. by split. }
  apply rspec_total in Hmap as (response & Hresp & Hall).
  exists snaps, response. split; [exact Hsplit|]. split; [exact Htiles|].
  split; [exact Hout|]. split; [exact Hsnaps|]. split; [|exact Hall].
  unfold outcome, solve_puzzle, bind, lift. by rewrite Hsplit, Hga, Hresp.
Qed.

(** X20.  Every request for a well-formed multi-band image with a grid that
    fits the image and at least one chromosome is served, unless
    [grid_size = 1] and [population_size > 10]: the response has one entry
    per generation, numbered from 0, and the image of each entry is the
    mosaic of a permutation of the tiles of the image. *)
Theorem solve_puzzle_serves resample img grid_size population_size generations
    mutation_rate r :
  resample_contract resample -> byte_filter resample ->
  wf_image img -> im_mode img <> L ->
  (1 <= grid_size <= Z.of_nat (im_width img `min` im_height img))%Z ->
  (1 <= population_size)%Z ->
  (2 <= grid_size \/ population_size <= 10)%Z ->
  let n := Z.to_nat grid_size in
  let pw := Z.to_nat (Z.of_nat (im_width img) / grid_size) in
  let ph := Z.to_nat (Z.of_nat (im_height img) / grid_size) in
  exists pieces response,
    split_image resample img grid_size = Ok (pieces, seq 0 (n * n)) /\
    outcome (solve_puzzle resample img grid_size population_size generations
                          mutation_rate) r = Ok response /\
    length response = Z.to_nat generations /\
    forall k entry, response !! k = Some entry ->
      exists c f correct,
        entry = (k, f, correct, mosaic c pieces n pw ph) /\
        is_permutation (n * n) c.
Proof.
  intros Hres Hbytes Hwf Hmode Hgrid Hpop Hserved n pw ph.
  destruct (solve_puzzle_response resample img grid_size population_size
              generations mutation_rate r Hres Hbytes Hwf Hmode Hgrid Hpop
              Hserved)
    as (pieces & snaps & response & Hsplit & _ & _ & Hsnaps & Hout & Hall).
  exists pieces, response. split; [exact Hsplit|]. split; [exact Hout|].
  pose proof (Forall2_length _ _ _ Hall) as Hlr.
  rewrite length_imap in Hlr. split; [lia|].
  intros k entry Hk.
  destruct (Forall2_lookup_r _ _ _ _ _ Hall Hk) as ([i s] & Hi & -> & Hc).
  rewrite list_lookup_imap in Hi.
  destruct (snaps !! k) as [s'|]; [|done].
  injection Hi as <- <-. simpl. eauto.
Qed.

(** The 4x4 gradient in four tiles, five chromosomes, three generations. *)
Lemma solve_puzzle_serves_witness :
  exists pieces response,
    split_image nearest demo_image 2 = Ok (pieces, seq 0 (2 * 2)) /\
    outcome (solve_puzzle nearest demo_image 2 5 3 (1 # 5)) (demo_rng 1)
    = Ok response /\
    length response = 3 /\
    forall k entry, response !! k = Some entry ->
      exists c f correct,
        entry = (k, f, correct, mosaic c pieces 2 2 2) /\
        is_permutation (2 * 2) c.
Proof.
  apply (solve_puzzle_serves nearest demo_image 2 5 3 (1 # 5) (demo_rng 1)).
  - exact nearest_contract.
  - exact nearest_bytes.
  - apply (bool_decide_unpack _). vm_compute. exact I.
  - discriminate.
  - simpl. lia.
  - lia.
  - left. lia.
Defined.

(** ** solve_puzzle: the entry of a solved puzzle *)

Lemma filter_all {A} (P : A -> Prop) `{forall x, Decision (P x)} (l : list A) :
  length (filter P l) = length l -> Forall P l.
Proof.
  induction l as [|x l IH]; intros Hlen; [constructor|].
  destruct (decide (P x)) as [Hx|Hx].
  - rewrite (filter_cons_True P x l Hx) in Hlen.
    constructor; [exact Hx|]. apply IH. simpl in Hlen. lia.
  - rewrite (filter_cons_False P x l Hx) in Hlen.
    pose proof (length_filter P l). simpl in Hlen. lia.
Qed.

(** A chromosome all of whose positions are correct is the reference
    arrangement. *)
Lemma all_correct_identity c n cp :
  correct_positions_of c (seq 0 n) = Ok cp ->
  length c = n -> count_true cp = n -> c = seq 0 n.
Proof.
  intros Hcp Hlen Hcount.
  destruct (correct_positions_of_ok _ _ _ Hcp) as [Hl Hi].
  assert (Forall (fun b => b = true) cp) as Hall
    by (apply (filter_all (fun b => b = true));
        unfold count_true in Hcount; lia).
  apply list_eq. intros i. destruct (decide (i < n)) as [Hlt|Hge].
  - destruct (Hi i ltac:(lia)) as (ci & oi & Hci & Hoi & Hb).
    rewrite lookup_seq_lt in Hoi by done. injection Hoi as <-.
    rewrite Forall_forall in Hall.
    pose proof (Hall _ (list_elem_of_lookup_2 _ _ _ Hb)) as Htrue.
    apply bool_decide_eq_true in Htrue. subst ci.
    by rewrite Hci, lookup_seq_lt.
  - rewrite !lookup_ge_None_2; [done | rewrite length_seq; lia | lia].
Qed.

Lemma split_image_roundtrip resample image grid_size pieces sequence :
  resample_contract resample -> rectangular image -> im_mode image = RGB ->
  (1 <= grid_size <= Z.of_nat (im_width image `min` im_height image))%Z ->
  split_image resample image grid_size = Ok (pieces, sequence) ->
  exists resized,
    Image_resize resample image
      (Z.of_nat (im_width image) / grid_size * grid_size)
      (Z.of_nat (im_height image) / grid_size * grid_size) = Ok resized /\
    assemble_image sequence pieces grid_size = Ok resized.
Proof.
  intros Hres Hrect Hrgb Hgrid Hsplit.
  set (w := Z.of_nat (im_width image)). set (h := Z.of_nat (im_height image)).
  pose proof (floor_div_pos w grid_size ltac:(unfold w; lia)) as Hpw.
  pose proof (floor_div_pos h grid_size ltac:(unfold h; lia)) as Hph.
  unfold split_image in Hsplit. rewrite decide_False in Hsplit by lia.
  fold w h in Hsplit.
  apply rbind_ok in Hsplit as (resized & Hresized & Hsplit).
  injection Hsplit as <- <-.
  destruct (Image_resize_ok _ _ _ _ _ Hres Hrect Hresized)
    as (Hmode & Hw & Hh & Hrr).
  exists resized. split; [exact Hresized|].
  rewrite cells_index.
  pose proof (assemble_tiles resized (Z.to_nat grid_size)
                (Z.to_nat (w / grid_size)) (Z.to_nat (h / grid_size)) Hrr
                ltac:(congruence) ltac:(lia) ltac:(lia) ltac:(lia) ltac:(lia)
                ltac:(lia)) as Hasm.
  rewrite Z2Nat.id in Hasm by lia. exact Hasm.
Qed.

(** X21.  In the response to a request for an RGB image, an entry that reports
    every position correct carries the resized input image itself. *)
Theorem solved_entry_shows_image resample img grid_size population_size
    generations mutation_rate r response k index f image :
  resample_contract resample -> byte_filter resample ->
  wf_image img -> im_mode img = RGB ->
  (1 <= grid_size <= Z.of_nat (im_width img `min` im_height img))%Z ->
  (1 <= population_size)%Z ->
  (2 <= grid_size \/ population_size <= 10)%Z ->
  outcome (solve_puzzle resample img grid_size population_size generations
                        mutation_rate) r = Ok response ->
  response !! k
  = Some (index, f, Z.to_nat grid_size * Z.to_nat grid_size, image) ->
  Image_resize resample img
    (Z.of_nat (im_width img) / grid_size * grid_size)
    (Z.of_nat (im_height img) / grid_size * grid_size) = Ok image.
Proof.
  intros Hres Hbytes Hwf Hrgb Hgrid Hpop Hserved Hout Hk.
  destruct (solve_puzzle_response resample img grid_size population_size
              generations mutation_rate r Hres Hbytes Hwf
              ltac:(by rewrite Hrgb) Hgrid Hpop Hserved)
    as (pieces & snaps & response' & Hsplit & Htiles & Hga & _ & Hout' & Hall).
  assert (response' = response) as -> by congruence.
  destruct (Forall2_lookup_r _ _ _ _ _ Hall Hk) as ([i s] & Hi & Hentry & Hc).
  rewrite list_lookup_imap in Hi.
  destruct (snaps !! k) as [s'|] eqn:Hs; [|done].
  injection Hi as <- <-. simpl in Hentry, Hc.
  injection Hentry as _ _ Hcount Himage.
  set (n := Z.to_nat grid_size) in *.
  destruct Htiles as (Htw & _ & Hlen).
  pose proof (snapshots_consistent pieces (seq 0 (n * n)) population_size
                mutation_rate grid_size 10 20 Htw generations r snaps Hga)
    as Hcons.
  rewrite Forall_forall in Hcons.
  destruct (Hcons s' (list_elem_of_lookup_2 _ _ _ Hs)) as (cp & Hfit & Hcnt).
  unfold calculate_fitness in Hfit.
  apply rbind_ok in Hfit as (cp' & Hcp & Hfit).
  apply rbind_ok in Hfit as (f0 & _ & Hfit). injection Hfit as _ ->.
  assert (snap_chromosome s' = seq 0 (n * n)) as Hid.
  { eapply all_correct_identity; [exact Hcp | | congruence].
    by apply is_permutation_length. }
  destruct (split_image_roundtrip _ _ _ _ _ Hres (wf_image_rectangular _ Hwf)
              Hrgb Hgrid Hsplit) as (resized & Hresized & Hasm).
  rewrite Hresized. f_equal.
  assert (assemble_image (seq 0 (n * n)) pieces grid_size = Ok image) as Himg.
  { rewrite Himage, Hid.
    pose proof (floor_div_pos (Z.of_nat (im_width img)) grid_size ltac:(lia)).
    pose proof (floor_div_pos (Z.of_nat (im_height img)) grid_size ltac:(lia)).
    destruct (split_image_tile_set _ _ _ Hres Hbytes Hwf
                ltac:(by rewrite Hrgb) Hgrid)
      as (pieces' & Hsplit' & _ & _ & Hsizes).
    assert (pieces' = pieces) as -> by congruence.
    apply assemble_image_total; [lia | lia | lia | exact Hsizes |].
    intros j Hj. exists j. fold n in Hj. rewrite lookup_seq_lt by done.
    split; [done | by rewrite Hlen]. }
  congruence.
Qed.

(** The first entry of the response to a request for the gradient: its
    four positions are correct. *)
Lemma solved_entry_shows_image_witness :
  Image_resize nearest demo_image 4 4 = Ok demo_entry.2.
Proof.
  apply (solved_entry_shows_image nearest demo_image 2 6 2 (1 # 5) (demo_rng 6)
           demo_response 0 demo_entry.1.1.1 demo_entry.1.1.2 demo_entry.2).
  - exact nearest_contract.
  - exact nearest_bytes.
  - apply (bool_decide_unpack _). vm_compute. exact I.
  - reflexivity.
  - simpl. lia.
  - lia.
  - left. lia.
  - vm_compute. reflexivity.
  - vm_compute. reflexivity.
Defined.


(** ** Generations without breeding *)

Lemma flt_asym a b : finite a -> finite b -> flt a b = true -> flt b a = false.
Proof.
  intros [x ->] [y ->]. simpl. rewrite Qltb_lt, Qltb_ge. intros. lra.
Qed.

Lemma flt_ge_trans a b c :
  finite a -> finite b -> finite c ->
  flt a b = false -> flt b c = false -> flt a c = false.
Proof.
  intros [x ->] [y ->] [z ->]. simpl. rewrite !Qltb_ge. intros. lra.
Qed.

(** The head of the sorted pairs is the first pair of greatest fitness. *)
Lemma sorted_desc_head pairs :
  pairs <> [] -> Forall (fun y => finite y.1) pairs ->
  exists i h,
    pairs !! i = Some h /\
    sorted_desc pairs !! 0 = Some h /\
    (forall k x, k < i -> pairs !! k = Some x -> flt x.1 h.1 = true) /\
    (forall x, x ∈ pairs -> flt h.1 x.1 = false).
Proof.
  induction pairs as [|x rest IH]; intros Hne Hfin; [done|].
  apply Forall_cons in Hfin as [Hx Hfin].
  destruct rest as [|y rest'].
  - exists 0, x. split; [done|]. split; [done|]. split; [intros; lia|].
    intros z Hz%list_elem_of_singleton. subst z. apply (fgt_irrefl x.1).
  - destruct (IH ltac:(done) Hfin) as (i & h & Hi & Hhead & Hbefore & Hmax).
    assert (finite h.1) as Hh.
    { rewrite Forall_forall in Hfin. apply Hfin.
      by eapply list_elem_of_lookup_2. }
    change (sorted_desc (x :: y :: rest'))
      with (insert_desc x (sorted_desc (y :: rest'))).
    destruct (sorted_desc (y :: rest')) as [|h0 tail] eqn:Hsorted; [done|].
    injection Hhead as ->. cbn [insert_desc].
    destruct (flt x.1 h.1) eqn:Hxh.
    + exists (S i), h. split; [done|]. split; [done|]. split.
      * intros k z Hk Hz. destruct k as [|k]; [by injection Hz as <-|].
        apply (Hbefore k z); [lia | done].
      * intros z Hz. apply elem_of_cons in Hz as [->|Hz]; [|by apply Hmax].
        by apply flt_asym.
    + exists 0, x. split; [done|]. split; [done|]. split; [intros; lia|].
      intros z Hz. apply elem_of_cons in Hz as [->|Hz];
        [apply (fgt_irrefl x.1)|].
      apply (flt_ge_trans _ h.1); [done | done | | done | by apply Hmax].
      rewrite Forall_forall in Hfin. by apply Hfin.
Qed.

(** [np.argmax] returns the index of the first greatest value. *)
Lemma argmax_first_max fitnesses best_index i fi :
  argmax fitnesses = Ok best_index -> Forall finite fitnesses ->
  fitnesses !! i = Some fi ->
  (forall k x, k < i -> fitnesses !! k = Some x -> flt x fi = true) ->
  (forall x, x ∈ fitnesses -> flt fi x = false) ->
  i = best_index.
Proof.
  intros Harg Hfin Hi Hbefore Hmax.
  destruct (argmax_ok _ _ Harg) as (fb & Hfb & Hearlier).
  destruct (argmax_upper _ _ Harg Hfin) as (fb' & Hfb' & Hupper).
  assert (fb' = fb) as -> by congruence.
  rewrite Forall_forall in Hfin.
  assert (finite fi) as Hfi by (apply Hfin; by eapply list_elem_of_lookup_2).
  assert (finite fb) as Hfbf by (apply Hfin; by eapply list_elem_of_lookup_2).
  destruct (lt_eq_lt_dec i best_index) as [[Hlt|Heq]|Hgt]; [|exact Heq|].
  - pose proof (Hearlier i fi Hlt Hi) as Hex.
    rewrite (exceeds_finite _ _ Hfbf Hfi) in Hex.
    pose proof (Hmax fb (list_elem_of_lookup_2 _ _ _ Hfb)). congruence.
  - pose proof (Hbefore best_index fb Hgt Hfb) as Hlt.
    pose proof (Hupper fi (list_elem_of_lookup_2 _ _ _ Hi)) as Hle.
    destruct Hfi as [x ->], Hfbf as [y ->]. simpl in *.
    apply Qltb_lt in Hlt. lra.
Qed.

Lemma sorted_head_best fitnesses (population : list chromosome) best_index c :
  length fitnesses = length population -> Forall finite fitnesses ->
  argmax fitnesses = Ok best_index -> population !! best_index = Some c ->
  (snd <$> sorted_desc (zip fitnesses population)) !! 0 = Some c.
Proof.
  intros Hlen Hfin Harg Hc.
  assert (Forall (fun y : fl * chromosome => finite y.1)
                 (zip fitnesses population)) as Hpairs.
  { apply Forall_forall. intros [f c'] Hin. apply elem_of_zip_l in Hin.
    rewrite Forall_forall in Hfin. by apply Hfin. }
  destruct (sorted_desc_head (zip fitnesses population))
    as (i & [f c'] & Hi & Hhead & Hbefore & Hmax); [|exact Hpairs|].
  { destruct fitnesses, population; simpl in *; done. }
  apply lookup_zip_Some in Hi as [Hf Hc'].
  assert (i = best_index) as ->.
  { eapply argmax_first_max; [exact Harg | exact Hfin | exact Hf | |].
    - intros k x Hk Hx.
      destruct (lookup_lt_is_Some_2 population k) as [ck Hck];
        [apply lookup_lt_Some in Hc'; lia|].
      apply (Hbefore k (x, ck)); [exact Hk | by apply lookup_zip_Some].
    - intros x Hx. apply list_elem_of_lookup in Hx as [k Hk].
      destruct (lookup_lt_is_Some_2 population k) as [ck Hck];
        [apply lookup_lt_Some in Hk; lia|].
      apply (Hmax (x, ck)). apply (list_elem_of_lookup_2 _ k).
      by apply lookup_zip_Some. }
  rewrite list_lookup_fmap, Hhead. simpl. congruence.
Qed.

Lemma generation_step_counter pieces original_sequence population_size
    mutation_rate grid_size elite_count stagnation_threshold st r st' r' :
  generation_step pieces original_sequence population_size mutation_rate
                  grid_size elite_count stagnation_threshold st r
  = Ok (st', r') ->
  stagnation_counter st' <= stagnation_counter st + 1.
Proof.
  intros Hstep. apply generation_step_ok in Hstep as [].
  apply track_best_cases in tr_track as (fb & _ & Hcases).
  apply diversify_counter in tr_diversify. subst st'. simpl.
  destruct (decide _); destruct Hcases as [(_ & _ & _ & _ & ->)|(_ & _ & _ & ->)];
    lia.
Qed.

Lemma state_after_counter pieces original_sequence population_size mutation_rate
    grid_size elite_count stagnation_threshold k : forall r st,
  outcome (state_after pieces original_sequence population_size
             mutation_rate grid_size elite_count stagnation_threshold k) r
  = Ok st ->
  stagnation_counter st <= k.
Proof.
  induction k as [|k IH]; intros r st H.
  - apply outcome_ok in H as [r' H]. unfold state_after in H.
    apply bind_ok in H as (population & r1 & _ & H).
    apply ret_ok in H as [-> _]. simpl. lia.
  - apply state_after_last in H as (st0 & r1 & r' & H0 & Hstep).
    pose proof (IH r st0 ltac:(unfold outcome; by rewrite H0)).
    apply generation_step_counter in Hstep. lia.
Qed.

(** A generation with as many elites as chromosomes and no diversification:
    the new population is the old one in the order of the sort, and nothing
    is drawn. *)
Lemma idle_generation pieces original_sequence population_size mutation_rate
    grid_size elite_count stagnation_threshold st r st' r' :
  Forall wf_tile pieces ->
  (population_size <= elite_count)%Z ->
  best_inv pieces original_sequence grid_size st ->
  length (population st) = Z.to_nat population_size ->
  (Z.of_nat (stagnation_counter st) + 1 < stagnation_threshold)%Z ->
  generation_step pieces original_sequence population_size mutation_rate
                  grid_size elite_count stagnation_threshold st r
  = Ok (st', r') ->
  exists fitnesses counts,
    evaluate pieces original_sequence grid_size (population st)
    = Ok (fitnesses, counts) /\
    population st' = snd <$> sorted_desc (zip fitnesses (population st)) /\
    r' = r.
Proof.
  intros Hwf Hel Hinv Hlen Hidle Hstep.
  destruct (best_inv_step _ _ population_size mutation_rate _ elite_count
              stagnation_threshold Hwf _ _ _ _ Hinv Hstep)
    as (_ & fitnesses & counts & best_index & c & n & He & Harg & Hc & _ & Hbest
        & _).
  exists fitnesses, counts. split; [exact He|].
  apply generation_step_ok in Hstep as [].
  assert (fitnesses0 = fitnesses /\ counts0 = counts) as [-> ->]
    by (split; congruence).
  destruct (evaluate_ok _ _ _ _ _ _ He) as (Hlf & _ & _).
  assert (Forall finite fitnesses) as Hfin.
  { apply Forall_forall. intros x Hx. apply list_elem_of_lookup in Hx as [j Hj].
    by eapply evaluate_finite. }
  assert (stagnation <= stagnation_counter st + 1) as Hstag.
  { apply track_best_cases in tr_track as (fb & _ & Hcases).
    destruct Hcases as [(_ & _ & _ & _ & ->)|(_ & _ & _ & ->)]; lia. }
  unfold diversify in tr_diversify.
  rewrite decide_False in tr_diversify by lia.
  injection tr_diversify as <- <- <-.
  assert (elites elite_count fitnesses (population st)
          = snd <$> sorted_desc (zip fitnesses (population st))) as Helites.
  { unfold elites, slice_to. rewrite decide_False.
    - apply take_ge.
      rewrite length_fmap, sorted_desc_perm, length_zip. lia.
    - pose proof (lookup_lt_Some _ _ _ Hc). lia. }
  rewrite Helites in tr_reproduce.
  unfold reproduce, range in tr_reproduce.
  replace (Z.to_nat _) with 0 in tr_reproduce.
  2:{ rewrite length_fmap, sorted_desc_perm, length_zip. lia. }
  injection tr_reproduce as <- <-.
  apply inject_best_ok in tr_inject as (c' & -> & -> & _).
  subst st'. simpl in *. injection Hbest as ->.
  split; [|reflexivity].
  apply list_insert_id. by eapply sorted_head_best.
Qed.

Lemma snd_sorted_perm fitnesses (population : list chromosome) :
  length fitnesses = length population ->
  snd <$> sorted_desc (zip fitnesses population) ≡ₚ population.
Proof.
  intros Hlen. rewrite sorted_desc_perm. rewrite snd_zip by lia. done.
Qed.

(** X22.  With at least as many elites as chromosomes
    ([population_size <= elite_count]) the generations before the
    stagnation threshold breed nothing: generation [k] with
    [k + 1 < stagnation_threshold] only reorders the population, and
    draws no random number. *)
Theorem no_breeding_within_elites pieces original_sequence population_size
    mutation_rate grid_size elite_count stagnation_threshold k r st' :
  Forall wf_tile pieces ->
  (population_size <= elite_count)%Z ->
  (Z.of_nat k + 1 < stagnation_threshold)%Z ->
  outcome (state_after pieces original_sequence population_size mutation_rate
             grid_size elite_count stagnation_threshold (S k)) r = Ok st' ->
  exists st r1,
    state_after pieces original_sequence population_size mutation_rate
                grid_size elite_count stagnation_threshold k r = Ok (st, r1) /\
    generation_step pieces original_sequence population_size mutation_rate
                    grid_size elite_count stagnation_threshold st r1
    = Ok (st', r1) /\
    population st' ≡ₚ population st.
Proof.
  intros Hwf Hel Hk H.
  apply state_after_last in H as (st & r1 & r' & Hst & Hstep).
  assert (outcome (state_after pieces original_sequence population_size
                     mutation_rate grid_size elite_count stagnation_threshold
                     k) r = Ok st) as Hout by (unfold outcome; by rewrite Hst).
  pose proof (state_after_counter _ _ _ _ _ _ _ _ _ _ Hout) as Hcounter.
  destruct (state_after_sizes _ _ _ _ _ _ _ _ _ _ Hout) as [Hlen _].
  pose proof (best_inv_after _ _ _ _ _ _ _ _ _ _ _ Hwf Hst) as Hinv.
  assert (Z.of_nat (stagnation_counter st) + 1 < stagnation_threshold)%Z
    as Hidle by lia.
  destruct (idle_generation _ _ _ _ _ _ _ _ _ _ _ Hwf Hel Hinv Hlen Hidle Hstep)
    as (fitnesses & counts & He & Hpop & ->).
  exists st, r1. split; [exact Hst|]. split; [exact Hstep|].
  rewrite Hpop. apply snd_sorted_perm.
  by destruct (evaluate_ok _ _ _ _ _ _ He).
Qed.

(** The small run with five elites for five chromosomes: its second
    generation. *)
Lemma no_breeding_within_elites_witness :
  exists st r1,
    state_after demo_pieces demo_sequence 5 (1 # 5) 2 5 20 1 (demo_rng 6)
    = Ok (st, r1) /\
    generation_step demo_pieces demo_sequence 5 (1 # 5) 2 5 20 st r1
    = Ok (demo_idle_state, r1) /\
    population demo_idle_state ≡ₚ population st.
Proof.
  apply (no_breeding_within_elites demo_pieces demo_sequence 5 (1 # 5) 2 5 20 1
           (demo_rng 6) demo_idle_state).
  - apply (bool_decide_unpack _). vm_compute. exact I.
  - lia.
  - lia.
  - vm_compute. reflexivity.
Defined.

(** ** Runs without breeding *)

Lemma generation_step_dominates pieces original_sequence population_size
    mutation_rate grid_size elite_count stagnation_threshold st r st' r' :
  Forall wf_tile pieces ->
  global_best_fitness st <> NaN ->
  generation_step pieces original_sequence population_size mutation_rate
                  grid_size elite_count stagnation_threshold st r
  = Ok (st', r') ->
  forall c, c ∈ population st ->
    exists f cp,
      calculate_fitness c pieces original_sequence grid_size = Ok (f, cp) /\
      fle f (global_best_fitness st').
Proof.
  intros Hwf Hnan Hstep c Hc.
  pose proof (generation_step_ok _ _ _ _ _ _ _ _ _ _ _ Hstep) as [].
  apply list_elem_of_lookup in Hc as [i Hi].
  destruct (evaluate_ok _ _ _ _ _ _ tr_evaluate) as (_ & _ & Heval).
  destruct (Heval _ _ Hi) as (f & cp & Hfit & Hf & _).
  exists f, cp. split; [exact Hfit|]. subst st'. simpl.
  assert (Forall finite fitnesses) as Hfin.
  { apply Forall_forall. intros x Hx. apply list_elem_of_lookup in Hx as [j Hj].
    by eapply evaluate_finite. }
  destruct (argmax_upper _ _ tr_argmax Hfin) as (fb & Hfb & Hmax).
  assert (fle f fb) as Hle by (apply Hmax; by eapply list_elem_of_lookup_2).
  apply track_best_cases in tr_track as (fb' & Hfb' & Hcases).
  assert (fb' = fb) as -> by congruence.
  destruct Hcases as [(_ & _ & _ & -> & _)|(Hgt & _ & -> & _)]; [exact Hle|].
  eapply fle_trans; [exact Hle|].
  assert (finite fb) as [q ->]
    by (rewrite Forall_forall in Hfin; apply Hfin;
        by eapply list_elem_of_lookup_2).
  unfold fgt in Hgt. destruct (global_best_fitness st) as [|g|]; try done.
  simpl in *. by apply Qltb_ge.
Qed.

Lemma fle_flt a b : fle a b -> flt b a = false.
Proof.
  destruct a as [|x|], b as [|y|]; simpl; try done. by rewrite Qltb_ge.
Qed.

(** Over a population that holds nothing fitter than the global best, a
    generation records the snapshot of the global best once more. *)
Lemma settled_snapshot pieces original_sequence population_size mutation_rate
    grid_size elite_count stagnation_threshold s st r st' r' :
  Forall wf_tile pieces ->
  best_inv pieces original_sequence grid_size st ->
  settled pieces original_sequence grid_size s st ->
  generation_step pieces original_sequence population_size mutation_rate
                  grid_size elite_count stagnation_threshold st r
  = Ok (st', r') ->
  global_best_chromo st' = Some (snap_chromosome s) /\
  global_best_fitness st' = snap_fitness s /\
  best_solutions st' = best_solutions st ++ [s].
Proof.
  intros Hwf Hinv (Hbest & Hfit & _ & Hcons & Hdom) Hstep.
  destruct (best_inv_step _ _ population_size mutation_rate _ elite_count
              stagnation_threshold Hwf _ _ _ _ Hinv Hstep)
    as (_ & fitnesses & counts & best_index & c & n & He & Harg & Hc & Hn & Hc'
        & Hsnaps).
  pose proof (generation_step_ok _ _ _ _ _ _ _ _ _ _ _ Hstep) as [].
  assert (fitnesses0 = fitnesses /\ counts0 = counts) as [-> ->]
    by (split; congruence).
  assert (best_index0 = best_index) as -> by congruence.
  destruct (evaluate_ok _ _ _ _ _ _ He) as (_ & _ & Heval).
  destruct (Heval _ _ Hc) as (f & cp & Hcalc & Hf & Hcount).
  apply track_best_cases in tr_track as (fb & Hfb & Hcases).
  assert (fb = f) as -> by congruence.
  destruct (Hdom c (list_elem_of_lookup_2 _ _ _ Hc)) as (f' & cp' & Hcalc' & Hle).
  assert (f' = f) as -> by congruence.
  destruct Hcases as [(Hgt & _)|(_ & -> & -> & _)].
  { apply fle_flt in Hle. unfold fgt in Hgt. congruence. }
  subst st'. simpl in *.
  assert (c = snap_chromosome s) as -> by congruence.
  split; [exact Hbest|]. split; [exact Hfit|].
  rewrite Hsnaps. do 2 f_equal.
  destruct Hcons as (cps & Hs & Hcnt).
  destruct s as [[cs fs] ns]. unfold snap_chromosome, snap_fitness, snap_count in *.
  simpl in *. subst. f_equal. congruence.
Qed.

Lemma settled_step pieces original_sequence population_size mutation_rate
    grid_size elite_count stagnation_threshold s st r st' r' :
  Forall wf_tile pieces ->
  (population_size <= elite_count)%Z ->
  best_inv pieces original_sequence grid_size st ->
  length (population st) = Z.to_nat population_size ->
  (Z.of_nat (stagnation_counter st) + 1 < stagnation_threshold)%Z ->
  settled pieces original_sequence grid_size s st ->
  generation_step pieces original_sequence population_size mutation_rate
                  grid_size elite_count stagnation_threshold st r
  = Ok (st', r') ->
  settled pieces original_sequence grid_size s st'.
Proof.
  intros Hwf Hel Hinv Hlen Hidle Hset Hstep.
  destruct (settled_snapshot _ _ _ _ _ _ _ _ _ _ _ _ Hwf Hinv Hset Hstep)
    as (Hbest & Hfit & Hsnaps).
  destruct (idle_generation _ _ _ _ _ _ _ _ _ _ _ Hwf Hel Hinv Hlen Hidle Hstep)
    as (fitnesses & counts & He & Hpop & _).
  destruct Hset as (_ & Hfit0 & Hall & Hcons & Hdom).
  split; [exact Hbest|]. split; [exact Hfit|]. split; [|split; [exact Hcons|]].
  - rewrite Hsnaps. apply Forall_app. split; [exact Hall | by constructor].
  - intros c Hc. rewrite Hpop in Hc.
    rewrite snd_sorted_perm in Hc by by destruct (evaluate_ok _ _ _ _ _ _ He).
    destruct (Hdom c Hc) as (f & cp & Hcalc & Hle).
    exists f, cp. split; [exact Hcalc|]. by rewrite Hfit, <- Hfit0.
Qed.

Lemma settled_first pieces original_sequence population_size mutation_rate
    grid_size elite_count stagnation_threshold r st :
  Forall wf_tile pieces ->
  (population_size <= elite_count)%Z ->
  (1 < stagnation_threshold)%Z ->
  outcome (state_after pieces original_sequence population_size mutation_rate
             grid_size elite_count stagnation_threshold 1) r = Ok st ->
  exists s, settled pieces original_sequence grid_size s st.
Proof.
  intros Hwf Hel Hthr H.
  apply state_after_last in H as (st0 & r1 & r' & Hst0 & Hstep).
  assert (outcome (state_after pieces original_sequence population_size
                     mutation_rate grid_size elite_count stagnation_threshold
                     0) r = Ok st0) as Hout by (unfold outcome; by rewrite Hst0).
  pose proof (state_after_counter _ _ _ _ _ _ _ _ _ _ Hout) as Hcounter.
  destruct (state_after_sizes _ _ _ _ _ _ _ _ _ _ Hout) as [Hlen Hnone].
  pose proof (best_inv_after _ _ _ _ _ _ _ _ _ _ _ Hwf Hst0) as Hinv.
  destruct (best_inv_step _ _ population_size mutation_rate _ elite_count
              stagnation_threshold Hwf _ _ _ _ Hinv Hstep)
    as ([Hcons _] & fitnesses & counts & best_index & c & n & He & _ & _ & _
        & Hc & Hsnaps).
  assert (best_solutions st0 = []) as Hnil
    by (destruct (best_solutions st0); [done | simpl in Hnone; lia]).
  rewrite Hnil in Hsnaps. simpl in Hsnaps.
  exists (c, global_best_fitness st, n).
  split; [exact Hc|]. split; [reflexivity|]. rewrite Hsnaps.
  split; [by constructor|].
  split; [rewrite Hsnaps in Hcons; by apply Forall_cons in Hcons as [? _]|].
  assert (Z.of_nat (stagnation_counter st0) + 1 < stagnation_threshold)%Z
    as Hidle by lia.
  destruct (idle_generation _ _ _ _ _ _ _ _ _ _ _ Hwf Hel Hinv Hlen Hidle Hstep)
    as (fitnesses' & counts' & He' & Hpop & _).
  intros c' Hc'. rewrite Hpop in Hc'.
  rewrite snd_sorted_perm in Hc' by by destruct (evaluate_ok _ _ _ _ _ _ He').
  eapply generation_step_dominates; [exact Hwf | | exact Hstep | exact Hc'].
  unfold state_after in Hst0.
  apply bind_ok in Hst0 as (population & r0 & _ & Hrun).
  apply ret_ok in Hrun as [-> _]. discriminate.
Qed.

Lemma settled_after pieces original_sequence population_size mutation_rate
    grid_size elite_count stagnation_threshold k : forall r st,
  Forall wf_tile pieces ->
  (population_size <= elite_count)%Z ->
  (Z.of_nat (S k) < stagnation_threshold)%Z ->
  outcome (state_after pieces original_sequence population_size mutation_rate
             grid_size elite_count stagnation_threshold (S k)) r = Ok st ->
  exists s, settled pieces original_sequence grid_size s st.
Proof.
  induction k as [|k IH]; intros r st Hwf Hel Hthr H.
  - eapply settled_first; eauto.
  - apply state_after_last in H as (st0 & r1 & r' & Hst0 & Hstep).
    assert (outcome (state_after pieces original_sequence population_size
                       mutation_rate grid_size elite_count stagnation_threshold
                       (S k)) r = Ok st0) as Hout
      by (unfold outcome; by rewrite Hst0).
    assert (Z.of_nat (S k) < stagnation_threshold)%Z as Hthr' by lia.
    destruct (IH r st0 Hwf Hel Hthr' Hout) as [s Hs].
    pose proof (state_after_counter _ _ _ _ _ _ _ _ _ _ Hout) as Hcounter.
    destruct (state_after_sizes _ _ _ _ _ _ _ _ _ _ Hout) as [Hlen _].
    pose proof (best_inv_after _ _ _ _ _ _ _ _ _ _ _ Hwf Hst0) as Hinv.
    exists s. eapply settled_step; eauto. lia.
Qed.

Lemma snapshots_settled pieces original_sequence population_size
    generations mutation_rate grid_size elite_count stagnation_threshold
    r snaps s :
  Forall wf_tile pieces ->
  (population_size <= elite_count)%Z ->
  (generations <= stagnation_threshold)%Z ->
  outcome (genetic_algorithm pieces original_sequence population_size
             generations mutation_rate grid_size elite_count
             stagnation_threshold) r = Ok snaps ->
  s ∈ snaps ->
  snaps !! 0 = Some s.
Proof.
  intros Hwf Hel Hgen H Hs.
  apply genetic_algorithm_ok in H as (st & Hst & ->).
  destruct (Z.to_nat generations) as [|[|k]] eqn:Hk.
  - destruct (state_after_sizes _ _ _ _ _ _ _ _ _ _ Hst) as [_ Hlen].
    destruct (best_solutions st); [by apply elem_of_nil in Hs | simpl in Hlen; lia].
  - destruct (state_after_sizes _ _ _ _ _ _ _ _ _ _ Hst) as [_ Hlen].
    destruct (best_solutions st) as [|s0 [|s1 rest]]; simpl in Hlen; try lia.
    by apply list_elem_of_singleton in Hs as ->.
  - apply state_after_last in Hst as (st0 & r1 & r' & Hst0 & Hstep).
    assert (outcome (state_after pieces original_sequence population_size
                       mutation_rate grid_size elite_count stagnation_threshold
                       (S k)) r = Ok st0) as Hout
      by (unfold outcome; by rewrite Hst0).
    assert (Z.of_nat (S k) < stagnation_threshold)%Z as Hthr by lia.
    destruct (settled_after _ _ _ _ _ _ _ _ _ _ Hwf Hel Hthr Hout)
      as [s0 Hset].
    pose proof (best_inv_after _ _ _ _ _ _ _ _ _ _ _ Hwf Hst0) as Hinv.
    destruct (settled_snapshot _ _ _ _ _ _ _ _ _ _ _ _ Hwf Hinv Hset Hstep)
      as (_ & _ & Hsnaps).
    destruct Hset as (_ & _ & Hall & _).
    assert (Forall (eq s0) (best_solutions st)) as Hall'
      by (rewrite Hsnaps; apply Forall_app; split; [done | by constructor]).
    rewrite Forall_forall in Hall'. rewrite <- (Hall' s Hs).
    destruct (best_solutions st) as [|s1 rest] eqn:Hbs;
      [by apply elem_of_nil in Hs|].
    simpl. f_equal. symmetry. apply Hall'. left.
Qed.

(** X23.  With at least as many elites as chromosomes and no more
    generations than the stagnation threshold, a run over well-formed
    tiles never improves on its first generation: every snapshot it
    returns is equal to the first one. *)
Theorem snapshots_repeat_within_elites pieces original_sequence population_size
    generations mutation_rate grid_size elite_count stagnation_threshold
    r snaps s :
  Forall wf_tile pieces ->
  (population_size <= elite_count)%Z ->
  (generations <= stagnation_threshold)%Z ->
  outcome (genetic_algorithm pieces original_sequence population_size
             generations mutation_rate grid_size elite_count
             stagnation_threshold) r = Ok snaps ->
  s ∈ snaps ->
  snaps !! 0 = Some s.
Proof.
  intros Hwf Hel Hgen H Hs.
  exact (snapshots_settled _ _ _ _ _ _ _ _ _ _ _ Hwf Hel Hgen H Hs).
Qed.

(** The small run with five elites for five chromosomes, three
    generations: its last snapshot. *)
Lemma snapshots_repeat_within_elites_witness :
  demo_idle_snaps !! 0 = Some demo_idle_last.
Proof.
  apply (snapshots_repeat_within_elites demo_pieces demo_sequence 5 3 (1 # 5)
           2 5 20 (demo_rng 6) demo_idle_snaps demo_idle_last).
  - apply (bool_decide_unpack _). vm_compute. exact I.
  - lia.
  - lia.
  - vm_compute. reflexivity.
  - apply (list_elem_of_lookup_2 _ 2). vm_compute. reflexivity.
Defined.

(** ** solve_puzzle with ten chromosomes or fewer *)

(** X24.  A request with [population_size <= 10] and [generations <= 20]
    (the [elite_count] and the [stagnation_threshold] the endpoint runs
    with) is answered with the same fitness, the same number of correct
    positions and the same image in every entry: those of the best
    chromosome of the initial population. *)
Theorem small_population_response_repeats resample img grid_size
    population_size generations mutation_rate r response k entry :
  resample_contract resample -> byte_filter resample ->
  wf_image img -> im_mode img <> L ->
  (1 <= grid_size <= Z.of_nat (im_width img `min` im_height img))%Z ->
  (1 <= population_size <= 10)%Z ->
  (generations <= 20)%Z ->
  outcome (solve_puzzle resample img grid_size population_size generations
                        mutation_rate) r = Ok response ->
  response !! k = Some entry ->
  exists first,
    response !! 0 = Some first /\
    first.1.1.1 = 0 /\ entry.1.1.1 = k /\
    entry.1.1.2 = first.1.1.2 /\ entry.1.2 = first.1.2 /\ entry.2 = first.2.
Proof.
  intros Hres Hbytes Hwf Hmode Hgrid Hpop Hgen Hout Hk.
  assert (1 <= population_size)%Z as Hpos by lia.
  assert (2 <= grid_size \/ population_size <= 10)%Z as Hserved by lia.
  assert (population_size <= 10)%Z as Hel by lia.
  destruct (solve_puzzle_response resample img grid_size population_size
              generations mutation_rate r Hres Hbytes Hwf Hmode Hgrid
              Hpos Hserved)
    as (pieces & snaps & response' & Hsplit & Htiles & Hga & _ & Hout' & Hall).
  assert (response' = response) as -> by congruence.
  destruct Htiles as (Htw & _).
  destruct (Forall2_lookup_r _ _ _ _ _ Hall Hk) as ([i s] & Hi & -> & _).
  rewrite list_lookup_imap in Hi.
  destruct (snaps !! k) as [s'|] eqn:Hs; [|done].
  injection Hi as <- <-.
  pose proof (snapshots_settled _ _ _ _ _ _ _ _ _ _ _ Htw
                Hel Hgen Hga (list_elem_of_lookup_2 _ _ _ Hs)) as H0.
  destruct (Forall2_lookup_l _ _ _ 0 (0, s') Hall) as (first & Hfirst & -> & _);
    [by rewrite list_lookup_imap, H0|].
  exists (0, snap_fitness s', snap_count s',
          mosaic (snap_chromosome s') pieces (Z.to_nat grid_size)
                 (Z.to_nat (Z.of_nat (im_width img) / grid_size))
                 (Z.to_nat (Z.of_nat (im_height img) / grid_size))).
  auto 10.
Qed.

(** The gradient in four tiles, five chromosomes, three generations: the
    last entry against the first. *)
Lemma small_population_response_repeats_witness :
  exists first,
    demo_small_response !! 0 = Some first /\
    first.1.1.1 = 0 /\ demo_small_entry.1.1.1 = 2 /\
    demo_small_entry.1.1.2 = first.1.1.2 /\
    demo_small_entry.1.2 = first.1.2 /\ demo_small_entry.2 = first.2.
Proof.
  apply (small_population_response_repeats nearest demo_image 2 5 3 (1 # 5)
           (demo_rng 1) demo_small_response 2 demo_small_entry).
  - exact nearest_contract.
  - exact nearest_bytes.
  - apply (bool_decide_unpack _). vm_compute. exact I.
  - discriminate.
  - simpl. lia.
  - lia.
  - lia.
  - vm_compute. reflexivity.
  - vm_compute. reflexivity.
Defined.
